(** * ai-doc-pal: chunker, vector store and read_file guard

    A shallow embedding of the markdown chunker
    ([src/embeddings/chunker.ts]), of the SQLite-backed vector store
    ([src/db/vector-db.ts]), of the removal loop of the update command
    ([src/commands/update.ts]) and of the [read_file] tool handler
    ([src/mcp/server.ts]), with the properties the specification states
    about them; then of the loops over the files of the update and
    init commands, of the table [db_info] and of the argument of
    [config --set], with properties that the code shows: what every
    store made by calls satisfies, what the loops do to it, and how
    the chunks cover the lines of a document. *)

From Stdlib Require Import String Ascii.
From Stdlib Require Import List ZArith NArith Lia Bool Sorted.
Import ListNotations.

Set Implicit Arguments.

(* ================================================================== *)
(** * JavaScript strings *)
(* ================================================================== *)

(** A JavaScript string is a sequence of UTF-16 code units; [length],
    [slice], [split], [trim] and the regular expressions of the source
    (none has the [u] flag) all work on code units. *)
Module JsString.

Definition code_unit := N.
Definition jsstring := list code_unit.

(** A string literal of the source, for ASCII text. *)
Definition js (s : string) : jsstring :=
  map N_of_ascii (list_ascii_of_string s).

Definition LF : code_unit := 10%N.
Definition nl : jsstring := [LF].
Definition nlnl : jsstring := [LF; LF].

(** [s.length], as a JavaScript number. *)
Definition len (s : jsstring) : Z := Z.of_nat (length s).

Definition len_list {A : Type} (l : list A) : Z := Z.of_nat (length l).

(** A string used as a condition: the empty string is falsy. *)
Definition truthy (s : jsstring) : bool :=
  match s with [] => false | _ :: _ => true end.

Definition jsstring_eqb (a b : jsstring) : bool :=
  if list_eq_dec N.eq_dec a b then true else false.

(** ECMAScript LineTerminator: LF, CR, LS, PS.  [.] matches everything
    else; [^] and [$] under the [m] flag look at these. *)
Definition isLineTerminator (c : code_unit) : bool :=
  ((c =? 10) || (c =? 13) || (c =? 0x2028) || (c =? 0x2029))%N.

(** ECMAScript WhiteSpace: TAB, VT, FF, SP, NBSP, ZWNBSP and the
    Unicode space separators. *)
Definition isWhiteSpace (c : code_unit) : bool :=
  ((c =? 9) || (c =? 11) || (c =? 12) || (c =? 32) || (c =? 160)
   || (c =? 0x1680) || ((0x2000 <=? c) && (c <=? 0x200A))
   || (c =? 0x202F) || (c =? 0x205F) || (c =? 0x3000) || (c =? 0xFEFF))%N.

(** What [String.prototype.trim] strips and what [\s] matches. *)
Definition isSpace (c : code_unit) : bool :=
  isWhiteSpace c || isLineTerminator c.

Definition isUpper (c : code_unit) : bool := ((65 <=? c) && (c <=? 90))%N.
Definition isLower (c : code_unit) : bool := ((97 <=? c) && (c <=? 122))%N.
Definition isDigit (c : code_unit) : bool := ((48 <=? c) && (c <=? 57))%N.
Definition isAlnum (c : code_unit) : bool := isLower c || isUpper c || isDigit c.

Fixpoint takeWhile (p : code_unit -> bool) (s : jsstring) : jsstring :=
  match s with
  | [] => []
  | c :: t => if p c then c :: takeWhile p t else []
  end.

Fixpoint dropWhile (p : code_unit -> bool) (s : jsstring) : jsstring :=
  match s with
  | [] => []
  | c :: t => if p c then dropWhile p t else s
  end.

(** [s.trimStart()], [s.trimEnd()], [s.trim()]. *)
Definition trimStart (s : jsstring) : jsstring := dropWhile isSpace s.
Definition trimEnd (s : jsstring) : jsstring := rev (trimStart (rev s)).
Definition trim (s : jsstring) : jsstring := trimEnd (trimStart s).

(** [s.slice(start)] with one integer argument: a negative [start]
    counts from the end, and both ends are clamped.  The source calls
    [slice(-n)]; for [n = 0] the argument is zero and the whole string
    comes back. *)
Definition slice (start : Z) (s : jsstring) : jsstring :=
  let from := if (start <? 0)%Z then Z.max (len s + start) 0
              else Z.min start (len s) in
  skipn (Z.to_nat from) s.

Definition cons_head (c : code_unit) (l : list jsstring) : list jsstring :=
  match l with
  | [] => [[c]]
  | p :: ps => (c :: p) :: ps
  end.

(** [s.split(sep)] for a one-character separator: always at least one
    piece. *)
Fixpoint split_on (sep : code_unit) (s : jsstring) : list jsstring :=
  match s with
  | [] => [[]]
  | c :: t => if (c =? sep)%N then [] :: split_on sep t
              else cons_head c (split_on sep t)
  end.

(** [s.split(/\n\n+/)]: the separators are the maximal runs of two or
    more line feeds.  [in_sep] says that the characters just read
    opened a separator, which swallows the line feeds that follow. *)
Fixpoint split_blank_aux (in_sep : bool) (s : jsstring) : list jsstring :=
  match s with
  | [] => [[]]
  | c :: t =>
      if in_sep then
        if (c =? LF)%N then split_blank_aux true t
        else cons_head c (split_blank_aux false t)
      else
        match t with
        | c' :: t' =>
            if ((c =? LF) && (c' =? LF))%N then [] :: split_blank_aux true t'
            else cons_head c (split_blank_aux false t)
        | [] => [[c]]
        end
  end.

Definition split_blank (s : jsstring) : list jsstring :=
  split_blank_aux false s.

(** [p] is a prefix of [s]: the rest of [s] after it. *)
Fixpoint strip_prefix (p s : jsstring) : option jsstring :=
  match p, s with
  | [], _ => Some s
  | a :: p', b :: s' => if (a =? b)%N then strip_prefix p' s' else None
  | _ :: _, [] => None
  end.

Definition startsWith (s p : jsstring) : bool :=
  match strip_prefix p s with Some _ => true | None => false end.

(** Index of the first occurrence of [pat] in [s]. *)
Fixpoint find_sub (pat s : jsstring) : option nat :=
  if startsWith s pat then Some O
  else match s with
       | [] => None
       | _ :: t => option_map S (find_sub pat t)
       end.

(** ** Regular-expression fragments

    A matcher is tried at one position: it sees the code unit before
    the position (for [^]) and the text from the position on, and
    returns the length of the match that JavaScript's backtracking
    finds first. *)
Definition matcher := option code_unit -> jsstring -> option nat.

(** [^] under the [m] flag. *)
Definition at_line_start (prev : option code_unit) : bool :=
  match prev with
  | None => true
  | Some c => isLineTerminator c
  end.

(** [\s+] followed by the continuation [k], greedy with backtracking:
    the longer run of white space is tried first, and one character is
    given back each time the continuation fails. *)
Fixpoint ws_plus {X : Type} (k : jsstring -> option X) (r : jsstring)
  : option X :=
  match r with
  | [] => None
  | c :: t =>
      if isSpace c then
        match ws_plus k t with
        | Some x => Some x
        | None => k t
        end
      else None
  end.

(** [(.+)$] under the [m] flag: the longest run of characters that are
    not line terminators; it is followed by a line terminator or by the
    end of the input, so [$] holds. *)
Definition dot_plus_eol (r : jsstring) : option jsstring :=
  match takeWhile (fun c => negb (isLineTerminator c)) r with
  | [] => None
  | g => Some g
  end.

(** [(.+)$] without the [m] flag: [$] is the end of the input, so the
    run has to reach it. *)
Definition dot_plus_end (r : jsstring) : option jsstring :=
  match r with
  | [] => None
  | _ => if forallb (fun c => negb (isLineTerminator c)) r then Some r
         else None
  end.

(** [s.replace(re, rep)] for a global [re] whose matches are never
    empty: the leftmost match is replaced and the scan resumes after
    it.  [skip] counts the characters of the current match that are
    still to be dropped. *)
Fixpoint replace_all_aux (m : matcher) (rep : jsstring)
    (prev : option code_unit) (skip : nat) (s : jsstring) : jsstring :=
  match s with
  | [] => []
  | c :: t =>
      match skip with
      | S k => replace_all_aux m rep (Some c) k t
      | O =>
          match m prev s with
          | Some (S n) => rep ++ replace_all_aux m rep (Some c) n t
          | _ => c :: replace_all_aux m rep (Some c) O t
          end
      end
  end.

Definition replace_all (m : matcher) (rep : jsstring) (s : jsstring)
  : jsstring :=
  replace_all_aux m rep None O s.

(** A string that does not start with white space. *)
Definition clean_head (s : jsstring) : Prop :=
  match s with
  | [] => True
  | c :: _ => isSpace c = false
  end.

End JsString.

Import JsString.

(* ================================================================== *)
(** * The chunker: [src/embeddings/chunker.ts] *)
(* ================================================================== *)

Module Chunker.

Record Chunk := mkChunk {
  content : jsstring;
  index : Z;
  lineStart : Z;
  lineEnd : Z;
  heading : option jsstring
}.

Record ChunkingOptions := mkOptions {
  maxChunkSize : Z;
  chunkOverlap : Z;
  respectHeadings : bool
}.

Definition DEFAULT_OPTIONS : ChunkingOptions :=
  {| maxChunkSize := 1000; chunkOverlap := 100; respectHeadings := true |}.

(** [Partial<ChunkingOptions>] and the spread
    [{ ...DEFAULT_OPTIONS, ...options }]. *)
Record PartialOptions := mkPartial {
  p_maxChunkSize : option Z;
  p_chunkOverlap : option Z;
  p_respectHeadings : option bool
}.

Definition no_options : PartialOptions :=
  {| p_maxChunkSize := None; p_chunkOverlap := None;
     p_respectHeadings := None |}.

Definition or_default {A : Type} (o : option A) (d : A) : A :=
  match o with Some a => a | None => d end.

Definition merge_options (o : PartialOptions) : ChunkingOptions :=
  {| maxChunkSize := or_default (p_maxChunkSize o) (maxChunkSize DEFAULT_OPTIONS);
     chunkOverlap := or_default (p_chunkOverlap o) (chunkOverlap DEFAULT_OPTIONS);
     respectHeadings :=
       or_default (p_respectHeadings o) (respectHeadings DEFAULT_OPTIONS) |}.

(** ** [extractTitle] *)

Definition hash_sign : code_unit := 35%N.
Definition dot_sign : code_unit := 46%N.

(** One attempt of [/^#\s+(.+)$/m] at a line start: group 1. *)
Definition h1_at (s : jsstring) : option jsstring :=
  match s with
  | c :: t => if (c =? hash_sign)%N then ws_plus dot_plus_eol t else None
  | [] => None
  end.

(** [content.match(/^#\s+(.+)$/m)]: the leftmost position that
    matches; the result is group 1. *)
Fixpoint search_h1 (bol : bool) (s : jsstring) : option jsstring :=
  match (if bol then h1_at s else None) with
  | Some g => Some g
  | None =>
      match s with
      | [] => None
      | c :: t => search_h1 (isLineTerminator c) t
      end
  end.

(** Equality of two code units under the [i] flag, for a pattern
    character that is an ASCII letter. *)
Definition eq_ci (pat c : code_unit) : bool :=
  ((c =? pat) || ((isLower pat) && (c =? pat - 32)))%N.

Fixpoint match_ci (pat s : jsstring) : bool :=
  match pat, s with
  | [], [] => true
  | a :: p', b :: s' => eq_ci a b && match_ci p' s'
  | _, _ => false
  end.

(** [name.replace(/\.(md|mdx)$/i, '')]: the text is cut at the
    leftmost dot that is followed by exactly [md] or [mdx]. *)
Fixpoint strip_md_extension (s : jsstring) : jsstring :=
  match s with
  | [] => []
  | c :: t =>
      if (c =? dot_sign)%N && (match_ci (js "md") t || match_ci (js "mdx") t)
      then []
      else c :: strip_md_extension t
  end.

Definition extractTitle (content fallbackFilename : jsstring) : jsstring :=
  match search_h1 true content with
  | Some g => trim g
  | None => strip_md_extension fallbackFilename
  end.

(** ** [stripMdxComponents] *)

Definition lt_sign : code_unit := 60%N.
Definition gt_sign : code_unit := 62%N.
Definition slash_sign : code_unit := 47%N.

Definition not_gt (c : code_unit) : bool := negb (c =? gt_sign)%N.
Definition not_lt_term (c : code_unit) : bool := negb (isLineTerminator c).

(** [/^import\s+.*$/gm] and [/^export\s+.*$/gm], with [kw] the
    keyword.  What follows [\s+] always matches ([.*] may be empty and
    stops in front of a line terminator or at the end), so the white
    space is the whole run, which may go over line breaks. *)
Definition m_declaration (kw : jsstring) : matcher := fun prev s =>
  if at_line_start prev then
    match strip_prefix kw s with
    | Some r =>
        match takeWhile isSpace r with
        | [] => None
        | ws => Some (length kw + length ws
                      + length (takeWhile not_lt_term (dropWhile isSpace r)))%nat
        end
    | None => None
    end
  else None.

(** [[^>]*] followed by [>]: the text up to the first [>], which has to
    exist. *)
Definition upto_gt (r : jsstring) : option jsstring :=
  match dropWhile not_gt r with
  | [] => None
  | _ :: _ => Some (takeWhile not_gt r)
  end.

(** [/<[A-Z][a-zA-Z0-9]*[^>]*\/>/g]: [[^>]*] cannot go over a [>], so
    the closing [/>] is the first [>] and the slash in front of it. *)
Definition m_self_closing : matcher := fun _ s =>
  match s with
  | a :: c :: r =>
      if (a =? lt_sign)%N && isUpper c then
        match upto_gt r with
        | Some body =>
            match rev body with
            | l :: _ => if (l =? slash_sign)%N then Some (3 + length body)%nat
                        else None
            | [] => None
            end
        | None => None
        end
      else None
  | _ => None
  end.

(** The closing tag [</name>] for the first [n] characters of the
    candidate name, looked for lazily after the opening tag; a shorter
    name is tried when the longer one has no closing tag (group 1
    gives characters back to [[^>]*]). *)
Fixpoint closing_for (name after : jsstring) (n : nat) : option nat :=
  match n with
  | O => None
  | S n' =>
      let closing := [lt_sign; slash_sign] ++ firstn n name ++ [gt_sign] in
      match find_sub closing after with
      | Some j => Some (j + length closing)%nat
      | None => closing_for name after n'
      end
  end.

(** [/<(NAME)[^>]*>[\s\S]*?<\/\1>/g], where NAME is [[A-Z][a-zA-Z0-9]*]. *)
Definition m_block : matcher := fun _ s =>
  match s with
  | a :: c :: r =>
      if (a =? lt_sign)%N && isUpper c then
        let name := c :: takeWhile isAlnum r in
        match upto_gt r with
        | Some attrs =>
            match closing_for name (skipn (S (length attrs)) r) (length name) with
            | Some k => Some (3 + length attrs + k)%nat
            | None => None
            end
        | None => None
        end
      else None
  | _ => None
  end.

(** [/<\/?[A-Z][a-zA-Z0-9]*[^>]*>/g]. *)
Definition m_tag : matcher := fun _ s =>
  match s with
  | a :: b :: r =>
      if (a =? lt_sign)%N then
        if isUpper b then
          option_map (fun body => (3 + length body)%nat) (upto_gt r)
        else if (b =? slash_sign)%N then
          match r with
          | c :: r' =>
              if isUpper c then
                option_map (fun body => (4 + length body)%nat) (upto_gt r')
              else None
          | [] => None
          end
        else None
      else None
  | _ => None
  end.

(** [/\n{3,}/g]. *)
Definition m_blank_lines : matcher := fun _ s =>
  let run := takeWhile (fun c => (c =? LF)%N) s in
  if (3 <=? length run)%nat then Some (length run) else None.

Definition stripMdxComponents (content : jsstring) : jsstring :=
  let result := replace_all (m_declaration (js "import")) [] content in
  let result := replace_all (m_declaration (js "export")) [] result in
  let result := replace_all m_self_closing [] result in
  let result := replace_all m_block [] result in
  let result := replace_all m_tag [] result in
  let result := replace_all m_blank_lines nlnl result in
  trim result.

(** ** [parseIntoSections] *)

Record Section_ := mkSection {
  s_heading : option jsstring;
  s_headingLevel : Z;
  s_content : jsstring;
  s_lineStart : Z;
  s_lineEnd : Z
}.

Definition is_hash (c : code_unit) : bool := (c =? hash_sign)%N.

(** [line.match(/^(#{1,6})\s+(.+)$/)]: the number of [#] and group 2.
    After fewer [#] than the line starts with comes another [#], which
    [\s+] refuses, so group 1 is the whole run, of at most six. *)
Definition headingMatch (line : jsstring) : option (nat * jsstring) :=
  let hashes := takeWhile is_hash line in
  if ((1 <=? length hashes) && (length hashes <=? 6))%nat then
    option_map (fun g => (length hashes, g))
               (ws_plus dot_plus_end (dropWhile is_hash line))
  else None.

Record ParseState := mkParse {
  sections : list Section_;
  currentSection : Section_;
  currentLineNumber : Z
}.

Definition with_lineEnd (s : Section_) (e : Z) : Section_ :=
  {| s_heading := s_heading s; s_headingLevel := s_headingLevel s;
     s_content := s_content s; s_lineStart := s_lineStart s;
     s_lineEnd := e |}.

Definition with_content (s : Section_) (c : jsstring) : Section_ :=
  {| s_heading := s_heading s; s_headingLevel := s_headingLevel s;
     s_content := c; s_lineStart := s_lineStart s;
     s_lineEnd := s_lineEnd s |}.

(** The body of the loop over the lines. *)
Definition parseLine (st : ParseState) (line : jsstring) : ParseState :=
  let cur := currentSection st in
  let n := currentLineNumber st in
  match headingMatch line with
  | Some (level, text) =>
      {| sections :=
           if truthy (trim (s_content cur))
           then sections st ++ [with_lineEnd cur (n - 1)]
           else sections st;
         currentSection :=
           {| s_heading := Some (trim text);
              s_headingLevel := Z.of_nat level;
              s_content := line ++ nl;
              s_lineStart := n;
              s_lineEnd := n |};
         currentLineNumber := n + 1 |}
  | None =>
      {| sections := sections st;
         currentSection := with_content cur (s_content cur ++ line ++ nl);
         currentLineNumber := n + 1 |}
  end.

Definition parseIntoSections (content : jsstring) : list Section_ :=
  let lines := split_on LF content in
  let st := fold_left parseLine lines
              {| sections := [];
                 currentSection :=
                   {| s_heading := None; s_headingLevel := 0;
                      s_content := []; s_lineStart := 1; s_lineEnd := 1 |};
                 currentLineNumber := 1 |} in
  if truthy (trim (s_content (currentSection st)))
  then sections st ++ [with_lineEnd (currentSection st) (currentLineNumber st - 1)]
  else sections st.

(** ** [splitSection] and the flat pass of [chunkMarkdown]

    Both loops keep the same state: the chunks pushed so far, the
    buffer [currentChunk], the line where the buffer starts, the
    running line counter and the next index. *)
Record Buffer := mkBuffer {
  chunks : list Chunk;
  currentChunk : jsstring;
  chunkStart : Z;
  currentLine : Z;
  chunkIndex : Z
}.

(** The body of the loop over the paragraphs of a section. *)
Definition splitStep (hd : option jsstring) (maxChunkSize chunkOverlap : Z)
    (st : Buffer) (paragraph : jsstring) : Buffer :=
  let paragraphLines := len_list (split_on LF paragraph) in
  let cur := currentChunk st in
  if (len cur + len paragraph + 2 >? maxChunkSize)%Z && truthy cur then
    {| chunks := chunks st ++
         [{| content := trim cur; index := chunkIndex st;
             lineStart := chunkStart st; lineEnd := currentLine st - 1;
             heading := hd |}];
       currentChunk := slice (- chunkOverlap) cur ++ nlnl ++ paragraph;
       chunkStart := currentLine st;
       currentLine := currentLine st + (paragraphLines + 1);
       chunkIndex := chunkIndex st + 1 |}
  else
    {| chunks := chunks st;
       currentChunk := if truthy cur then cur ++ nlnl ++ paragraph
                       else paragraph;
       chunkStart := chunkStart st;
       currentLine := currentLine st + (paragraphLines + 1);
       chunkIndex := chunkIndex st |}.

Definition splitSection (section : Section_) (maxChunkSize chunkOverlap : Z)
  : list Chunk :=
  let content := trim (s_content section) in
  if (len content <=? maxChunkSize)%Z then
    [{| content := content; index := 0;
        lineStart := s_lineStart section; lineEnd := s_lineEnd section;
        heading := s_heading section |}]
  else
    let paragraphs := split_blank content in
    let st := fold_left (splitStep (s_heading section) maxChunkSize chunkOverlap)
                paragraphs
                {| chunks := []; currentChunk := [];
                   chunkStart := s_lineStart section;
                   currentLine := s_lineStart section;
                   chunkIndex := 0 |} in
    if truthy (trim (currentChunk st)) then
      chunks st ++
        [{| content := trim (currentChunk st); index := chunkIndex st;
            lineStart := chunkStart st; lineEnd := s_lineEnd section;
            heading := s_heading section |}]
    else chunks st.

(** The body of the loop over the lines when [respectHeadings] is
    false. *)
Definition flatStep (maxChunkSize chunkOverlap : Z)
    (st : Buffer) (line : jsstring) : Buffer :=
  let cur := currentChunk st in
  if (len cur + len line + 1 >? maxChunkSize)%Z && truthy cur then
    {| chunks := chunks st ++
         [{| content := trim cur; index := chunkIndex st;
             lineStart := chunkStart st; lineEnd := currentLine st - 1;
             heading := None |}];
       currentChunk := slice (- chunkOverlap) cur ++ nl ++ line;
       chunkStart := currentLine st;
       currentLine := currentLine st + 1;
       chunkIndex := chunkIndex st + 1 |}
  else
    {| chunks := chunks st;
       currentChunk := cur ++ (if truthy cur then nl else []) ++ line;
       chunkStart := chunkStart st;
       currentLine := currentLine st + 1;
       chunkIndex := chunkIndex st |}.

Definition flatChunks (cleanContent : jsstring) (maxChunkSize chunkOverlap : Z)
  : list Chunk :=
  let lines := split_on LF cleanContent in
  let st := fold_left (flatStep maxChunkSize chunkOverlap) lines
              {| chunks := []; currentChunk := []; chunkStart := 1;
                 currentLine := 1; chunkIndex := 0 |} in
  if truthy (trim (currentChunk st)) then
    chunks st ++
      [{| content := trim (currentChunk st); index := chunkIndex st;
          lineStart := chunkStart st; lineEnd := currentLine st - 1;
          heading := None |}]
  else chunks st.

Definition with_index (c : Chunk) (i : Z) : Chunk :=
  {| content := content c; index := i; lineStart := lineStart c;
     lineEnd := lineEnd c; heading := heading c |}.

(** The two nested loops of the heading-respecting path:
    [allChunks.push({ ...chunk, index: globalIndex++ })]. *)
Definition pushSection (maxChunkSize chunkOverlap : Z)
    (acc : list Chunk * Z) (section : Section_) : list Chunk * Z :=
  fold_left (fun a chunk => (fst a ++ [with_index chunk (snd a)], snd a + 1)%Z)
            (splitSection section maxChunkSize chunkOverlap) acc.

Definition chunkClean (cleanContent : jsstring) (opts : ChunkingOptions)
  : list Chunk :=
  if respectHeadings opts then
    fst (fold_left (pushSection (maxChunkSize opts) (chunkOverlap opts))
                   (parseIntoSections cleanContent) ([], 0%Z))
  else flatChunks cleanContent (maxChunkSize opts) (chunkOverlap opts).

Definition chunkMarkdownWith (content : jsstring) (opts : ChunkingOptions)
  : list Chunk :=
  chunkClean (stripMdxComponents content) opts.

Definition chunkMarkdown (content : jsstring) (options : PartialOptions)
  : list Chunk :=
  chunkMarkdownWith content (merge_options options).

(** ** The title as the specification states it

    The trimmed text of the first level-1 heading, and otherwise the
    file name without its markdown extension.  A level-1 heading is a
    line that [parseIntoSections] takes for a heading with one [#]. *)
Definition level1_heading (line : jsstring) : option jsstring :=
  match headingMatch line with
  | Some (1%nat, text) => Some text
  | _ => None
  end.

Fixpoint first_level1_heading (lines : list jsstring) : option jsstring :=
  match lines with
  | [] => None
  | line :: rest =>
      match level1_heading line with
      | Some text => Some text
      | None => first_level1_heading rest
      end
  end.

Definition title_as_stated (content fallbackFilename : jsstring) : jsstring :=
  match first_level1_heading (split_on LF content) with
  | Some text => trim text
  | None => strip_md_extension fallbackFilename
  end.

Definition not_LF (c : code_unit) : bool := negb (c =? LF)%N.

(** The line feed is the only line terminator of the text: no CR, LS
    or PS. *)
Definition only_LF (s : jsstring) : Prop :=
  Forall (fun c => isLineTerminator c = true -> c = LF) s.

(** A line that is a [#] and then nothing but white space. *)
Definition bare_hash (line : jsstring) : bool :=
  match line with
  | c :: w => (c =? hash_sign)%N && forallb isSpace w
  | [] => false
  end.

(** A document that opens with a [#] alone on its line. *)
Definition bare_hash_document : jsstring := js "#" ++ nlnl ++ js "Intro text".

(** ** Properties of chunks *)

(** The content of the chunk is a result of [trim]. *)
Definition trimmed (ch : Chunk) : Prop := trim (content ch) = content ch.

(** The size of a chunk.

    The units of a document are what the splitter never breaks: the
    paragraphs of each section on the heading-respecting path, the
    lines on the flat path.  Two units in one buffer are joined by the
    separator. *)
Definition units (content : jsstring) (opts : ChunkingOptions) : list jsstring :=
  let clean := stripMdxComponents content in
  if respectHeadings opts
  then flat_map (fun sec => split_blank (trim (s_content sec)))
                (parseIntoSections clean)
  else split_on LF clean.

Definition separator (opts : ChunkingOptions) : jsstring :=
  if respectHeadings opts then nlnl else nl.

(** The chunk is one unit that is itself longer than the limit, with
    whatever text in front of it. *)
Definition holds_oversized_unit (U : list jsstring) (M : Z) (x : jsstring) : Prop :=
  exists pre p, In p U /\ (M < len p)%Z /\ x = trim (pre ++ p).

(** The bound as the specification states it: within the limit, or a
    single unit that alone exceeds the limit. *)
Definition size_bound_as_stated (content : jsstring) (opts : ChunkingOptions) : Prop :=
  Forall (fun ch => (len (Chunker.content ch) <= maxChunkSize opts)%Z
                    \/ holds_oversized_unit (units content opts)
                         (maxChunkSize opts) (Chunker.content ch))
         (chunkMarkdownWith content opts).

(** The chunk is one unit behind at most [c] characters of overlap and
    the separator; the unit may be of any length. *)
Definition overlap_then_unit (U : list jsstring) (sep : jsstring) (c : Z)
    (x : jsstring) : Prop :=
  exists ov p, In p U /\ (len ov <= c)%Z /\ x = trim (ov ++ sep ++ p).

(** The chunk is one unit, longer than the limit, and nothing else. *)
Definition lone_oversized_unit (U : list jsstring) (M : Z) (x : jsstring) : Prop :=
  exists p, In p U /\ (M < len p)%Z /\ x = trim p.

Definition size_ok (U : list jsstring) (sep : jsstring) (M c : Z)
    (x : jsstring) : Prop :=
  (len x <= M)%Z \/ overlap_then_unit U sep c x \/ lone_oversized_unit U M x.

(** What the buffer [currentChunk] is between two iterations. *)
Definition buffer_ok (U : list jsstring) (sep : jsstring) (M c : Z)
    (b : jsstring) : Prop :=
  b = [] \/ (len b <= M)%Z
  \/ (exists ov p, In p U /\ (len ov <= c)%Z /\ b = ov ++ sep ++ p)
  \/ (exists p, In p U /\ (M < len p)%Z /\ b = p).

Definition state_ok (U : list jsstring) (sep : jsstring) (M c : Z)
    (st : Buffer) : Prop :=
  Forall (fun ch => size_ok U sep M c (content ch)) (chunks st)
  /\ buffer_ok U sep M c (currentChunk st).

(** Two paragraphs of eight characters, a limit of ten and an overlap
    of four: [chunkMarkdown("aaaaaaaa\n\nbbbbbbbb",
    { maxChunkSize: 10, chunkOverlap: 4 })]. *)
Definition two_paragraphs : jsstring := js "aaaaaaaa" ++ nlnl ++ js "bbbbbbbb".

Definition small_options : PartialOptions :=
  {| p_maxChunkSize := Some 10%Z; p_chunkOverlap := Some 4%Z;
     p_respectHeadings := None |}.

End Chunker.

(* ================================================================== *)
(** * The vector store: [src/db/vector-db.ts] *)
(* ================================================================== *)

(** The store is a SQLite file with three tables: [documents] and
    [chunks], both with an [AUTOINCREMENT] key, and the [vec0] virtual
    table [embeddings], keyed by [chunk_id] and declared with a vector
    column [float[embeddingDimension]].  Every statement runs on its
    own: the source opens no transaction.  A table is the list of its
    rows in insertion order.

    The vectors are [Float32Array]s; the store looks only at their
    length, so the type of the elements is a parameter. *)
Module VectorDb.

(** A key is in a list of keys. *)
Definition mem (i : Z) (l : list Z) : bool := existsb (fun j => (i =? j)%Z) l.

Section Store.

Variable scalar : Type.

Definition Float32Array := list scalar.

Record DocumentMetadata := mkMeta {
  filePath : jsstring;
  title : jsstring;
  lastModified : Z;
  fileHash : jsstring
}.

Record ChunkData := mkChunkData {
  documentId : Z;
  content : jsstring;
  chunkIndex : Z;
  lineStart : Z;
  lineEnd : Z;
  heading : option jsstring
}.

Record document_row := mkDocumentRow {
  d_id : Z;
  d_file_path : jsstring;
  d_title : jsstring;
  d_last_modified : Z;
  d_file_hash : jsstring;
  d_created_at : Z;
  d_updated_at : Z
}.

Record chunk_row := mkChunkRow {
  c_id : Z;
  c_document_id : Z;
  c_content : jsstring;
  c_chunk_index : Z;
  c_line_start : Z;
  c_line_end : Z;
  c_heading : option jsstring
}.

Record embedding_row := mkEmbeddingRow {
  e_chunk_id : Z;
  e_embedding : Float32Array
}.

(** [documents_seq] and [chunks_seq] are the rows of [sqlite_sequence]:
    the largest key each [AUTOINCREMENT] table has ever handed out.
    [foreign_keys] is the pragma of the connection. *)
Record Database := mkDatabase {
  embeddingDimension : Z;
  foreign_keys : bool;
  documents : list document_row;
  documents_seq : Z;
  chunks : list chunk_row;
  chunks_seq : Z;
  embeddings : list embedding_row
}.

(** [new VectorDatabase(dbPath, embeddingDimension)] on a fresh file.
    better-sqlite3 builds SQLite with [SQLITE_DEFAULT_FOREIGN_KEYS=1],
    so the constraint of [chunks.document_id] is enforced; [vec0]
    refuses a vector column without a positive dimension, and then the
    constructor throws. *)
Definition open (dimension : Z) : option Database :=
  if (0 <? dimension)%Z then
    Some {| embeddingDimension := dimension; foreign_keys := true;
            documents := []; documents_seq := 0;
            chunks := []; chunks_seq := 0;
            embeddings := [] |}
  else None.

(** What a call does besides changing the store: it returns or it
    throws the error of the statement that failed. *)
Inductive SqliteError :=
| FOREIGN_KEY_constraint_failed
| UNIQUE_constraint_failed
| Dimension_mismatch.

Inductive outcome (A : Type) :=
| Returned (a : A)
| Threw (e : SqliteError).

Arguments Returned {A} a.
Arguments Threw {A} e.

(** The store with one table replaced. *)
Definition with_documents (db : Database) (rows : list document_row) (seq : Z)
  : Database :=
  {| embeddingDimension := embeddingDimension db;
     foreign_keys := foreign_keys db;
     documents := rows; documents_seq := seq;
     chunks := chunks db; chunks_seq := chunks_seq db;
     embeddings := embeddings db |}.

Definition with_chunks (db : Database) (rows : list chunk_row) (seq : Z)
  : Database :=
  {| embeddingDimension := embeddingDimension db;
     foreign_keys := foreign_keys db;
     documents := documents db; documents_seq := documents_seq db;
     chunks := rows; chunks_seq := seq;
     embeddings := embeddings db |}.

Definition with_embeddings (db : Database) (rows : list embedding_row)
  : Database :=
  {| embeddingDimension := embeddingDimension db;
     foreign_keys := foreign_keys db;
     documents := documents db; documents_seq := documents_seq db;
     chunks := chunks db; chunks_seq := chunks_seq db;
     embeddings := rows |}.

(** [SELECT ... FROM documents WHERE file_path = ?] with [.get]. *)
Definition document_at (path : jsstring) (db : Database) : option document_row :=
  find (fun d => jsstring_eqb (d_file_path d) path) (documents db).

(** [UPDATE documents SET title = ?, last_modified = ?, file_hash = ?,
    updated_at = unixepoch() WHERE id = ?], on one row. *)
Definition update_document (now : Z) (meta : DocumentMetadata) (id : Z)
    (d : document_row) : document_row :=
  if (d_id d =? id)%Z then
    {| d_id := d_id d; d_file_path := d_file_path d;
       d_title := title meta; d_last_modified := lastModified meta;
       d_file_hash := fileHash meta;
       d_created_at := d_created_at d; d_updated_at := now |}
  else d.

Definition new_document (now : Z) (meta : DocumentMetadata) (id : Z)
  : document_row :=
  {| d_id := id; d_file_path := filePath meta;
     d_title := title meta; d_last_modified := lastModified meta;
     d_file_hash := fileHash meta;
     d_created_at := now; d_updated_at := now |}.

(** [upsertDocument(meta)]; [now] is what [unixepoch()] gives during
    the call. *)
Definition upsertDocument (now : Z) (meta : DocumentMetadata) (db : Database)
  : Database * Z :=
  match document_at (filePath meta) db with
  | Some existing =>
      (with_documents db
         (map (update_document now meta (d_id existing)) (documents db))
         (documents_seq db),
       d_id existing)
  | None =>
      let id := (documents_seq db + 1)%Z in
      (with_documents db (documents db ++ [new_document now meta id]) id, id)
  end.

(** [documentNeedsUpdate(filePath, fileHash)]:
    [!existing || existing.file_hash !== fileHash]. *)
Definition documentNeedsUpdate (path hash : jsstring) (db : Database) : bool :=
  match document_at path db with
  | None => true
  | Some existing => negb (jsstring_eqb (d_file_hash existing) hash)
  end.

Record DocumentWithId := mkDocumentWithId {
  id : Z;
  meta : DocumentMetadata
}.

Definition row_to_document (d : document_row) : DocumentWithId :=
  {| id := d_id d;
     meta := {| filePath := d_file_path d; title := d_title d;
                lastModified := d_last_modified d;
                fileHash := d_file_hash d |} |}.

Definition getDocumentByPath (path : jsstring) (db : Database)
  : option DocumentWithId :=
  option_map row_to_document (document_at path db).

Definition getAllDocuments (db : Database) : list DocumentWithId :=
  map row_to_document (documents db).

Definition of_document (docId : Z) (c : chunk_row) : bool :=
  (c_document_id c =? docId)%Z.

(** [DELETE FROM embeddings WHERE chunk_id = ?]. *)
Definition delete_embedding (es : list embedding_row) (chunkId : Z)
  : list embedding_row :=
  filter (fun e => negb (e_chunk_id e =? chunkId)%Z) es.

(** [deleteDocumentChunks(documentId)]: the keys of the chunks of the
    document are read, the embedding of each is deleted, then the
    chunks are. *)
Definition deleteDocumentChunks (docId : Z) (db : Database) : Database :=
  let chunkIds := map c_id (filter (of_document docId) (chunks db)) in
  let db1 := with_embeddings db
               (fold_left delete_embedding chunkIds (embeddings db)) in
  with_chunks db1 (filter (fun c => negb (of_document docId c)) (chunks db1))
              (chunks_seq db1).

Definition has_document (docId : Z) (db : Database) : bool :=
  existsb (fun d => (d_id d =? docId)%Z) (documents db).

Definition has_embedding (chunkId : Z) (db : Database) : bool :=
  existsb (fun e => (e_chunk_id e =? chunkId)%Z) (embeddings db).

Definition new_chunk (chunk : ChunkData) (chunkId : Z) : chunk_row :=
  {| c_id := chunkId; c_document_id := documentId chunk;
     c_content := content chunk; c_chunk_index := chunkIndex chunk;
     c_line_start := lineStart chunk; c_line_end := lineEnd chunk;
     c_heading := heading chunk |}.

(** The parent row that [chunks.document_id] refers to is missing and
    the connection enforces foreign keys. *)
Definition foreign_key_violated (chunk : ChunkData) (db : Database) : bool :=
  foreign_keys db && negb (has_document (documentId chunk) db).

(** The first statement of [addChunk]: [INSERT INTO chunks ...].  The
    row gets the next key of the sequence. *)
Definition insert_chunk (chunk : ChunkData) (db : Database)
  : Database * outcome Z :=
  if foreign_key_violated chunk db then
    (db, Threw FOREIGN_KEY_constraint_failed)
  else
    let chunkId := (chunks_seq db + 1)%Z in
    (with_chunks db (chunks db ++ [new_chunk chunk chunkId]) chunkId,
     Returned chunkId).

(** The second statement: [INSERT INTO embeddings (chunk_id, embedding)].
    [vec0] refuses a vector whose length is not the declared dimension
    and a key that is already there. *)
Definition insert_embedding (chunkId : Z) (embedding : Float32Array)
    (db : Database) : Database * outcome unit :=
  if negb (len_list embedding =? embeddingDimension db)%Z then
    (db, Threw Dimension_mismatch)
  else if has_embedding chunkId db then
    (db, Threw UNIQUE_constraint_failed)
  else
    (with_embeddings db
       (embeddings db ++ [{| e_chunk_id := chunkId; e_embedding := embedding |}]),
     Returned tt).

(** [addChunk(chunk, embedding)]: the two statements one after the
    other; what the first has written stays when the second throws. *)
Definition addChunk (chunk : ChunkData) (embedding : Float32Array)
    (db : Database) : Database * outcome Z :=
  match insert_chunk chunk db with
  | (db1, Returned chunkId) =>
      match insert_embedding chunkId embedding db1 with
      | (db2, Returned _) => (db2, Returned chunkId)
      | (db2, Threw e) => (db2, Threw e)
      end
  | (db1, Threw e) => (db1, Threw e)
  end.

Record Stats := mkStats {
  stat_documents : Z;
  stat_chunks : Z;
  stat_embeddings : Z
}.

(** [getStats()]: three [SELECT COUNT( * )]. *)
Definition getStats (db : Database) : Stats :=
  {| stat_documents := len_list (documents db);
     stat_chunks := len_list (chunks db);
     stat_embeddings := len_list (embeddings db) |}.

(** ** Sequences of calls *)

Inductive call :=
| UpsertDocument (now : Z) (meta : DocumentMetadata)
| AddChunk (chunk : ChunkData) (embedding : Float32Array)
| DeleteDocumentChunks (docId : Z).

(** The store after a call, whether the call returned or threw. *)
Definition after (c : call) (db : Database) : Database :=
  match c with
  | UpsertDocument now meta => fst (upsertDocument now meta db)
  | AddChunk chunk embedding => fst (addChunk chunk embedding db)
  | DeleteDocumentChunks docId => deleteDocumentChunks docId db
  end.

Definition after_all (cs : list call) (db : Database) : Database :=
  fold_left (fun db c => after c db) cs db.

(** The stores a program can hold: a fresh one, and what calls make of
    it. *)
Inductive reachable : Database -> Prop :=
| reachable_open dimension db :
    open dimension = Some db -> reachable db
| reachable_call c db :
    reachable db -> reachable (after c db).

(** The embedding of every [addChunk] of the sequence has the length
    the store was opened with. *)
Definition well_sized (dimension : Z) (c : call) : Prop :=
  match c with
  | AddChunk _ embedding => len_list embedding = dimension
  | _ => True
  end.

(** Every chunk row has exactly one embedding row and every embedding
    row belongs to a chunk row: the keys of the two tables are the
    same, in the same order, and none is repeated. *)
Definition paired (db : Database) : Prop :=
  map e_chunk_id (embeddings db) = map c_id (chunks db)
  /\ NoDup (map c_id (chunks db)).

(** No key of [chunks] or of [embeddings] is beyond the sequence of
    [chunks], no key of [chunks] is repeated, and every stored vector
    has the declared length. *)
Record consistent (db : Database) : Prop := mkConsistent {
  chunk_ids_bounded :
    Forall (fun c => (c_id c <= chunks_seq db)%Z) (chunks db);
  embedding_ids_bounded :
    Forall (fun e => (e_chunk_id e <= chunks_seq db)%Z) (embeddings db);
  chunk_ids_distinct : NoDup (map c_id (chunks db));
  vectors_sized :
    Forall (fun e => len_list (e_embedding e) = embeddingDimension db)
           (embeddings db)
}.




(** The keys that [deleteDocumentChunks] reads first. *)
Definition chunk_ids_of (docId : Z) (db : Database) : list Z :=
  map c_id (filter (of_document docId) (chunks db)).


End Store.

Arguments Returned {A} a.
Arguments Threw {A} e.
Arguments UpsertDocument {scalar} now meta.
Arguments AddChunk {scalar} chunk embedding.
Arguments DeleteDocumentChunks {scalar} docId.

(** ** The calls of [vector-db.test.ts], with a dimension of four *)

Definition test_document (path hash : string) : DocumentMetadata :=
  {| filePath := js path; title := js "Test"; lastModified := 1%Z;
     fileHash := js hash |}.

Definition test_chunk (docId : Z) (text : string) (i : Z) : ChunkData :=
  {| documentId := docId; content := js text; chunkIndex := i;
     lineStart := 1%Z; lineEnd := 1%Z; heading := None |}.

Definition fresh4 : Database Z :=
  {| embeddingDimension := 4%Z; foreign_keys := true;
     documents := []; documents_seq := 0%Z;
     chunks := []; chunks_seq := 0%Z; embeddings := [] |}.

(** A store with the document [test.md] and nothing else. *)
Definition one_document : Database Z :=
  after (UpsertDocument 0%Z (test_document "test.md" "original")) fresh4.

(** [addChunk] with a vector of three numbers, for a store of
    dimension four. *)
Definition short_vector_calls : list (call Z) :=
  [ AddChunk (test_chunk 1%Z "Chunk 1" 0%Z) [1; 0; 0]%Z ].

(** The calls of the test [should return correct stats]. *)
Definition stats_test_calls : list (call Z) :=
  [ UpsertDocument 0%Z (test_document "a.md" "a");
    UpsertDocument 0%Z (test_document "b.md" "b");
    AddChunk (test_chunk 1%Z "C1" 0%Z) [1; 0; 0; 0]%Z;
    AddChunk (test_chunk 1%Z "C2" 1%Z) [0; 1; 0; 0]%Z;
    AddChunk (test_chunk 2%Z "C3" 0%Z) [0; 0; 1; 0]%Z ].

End VectorDb.

(* ================================================================== *)
(** * The removal loop of the update command:
      [src/commands/update.ts] *)
(* ================================================================== *)

Module Update.
Import VectorDb.

Section Pass.

Variable scalar : Type.

(** [existingDocs.filter(d => !currentPaths.has(d.filePath))], where
    [files] is what the glob has found. *)
Definition toDelete (files : list jsstring) (db : Database scalar)
  : list DocumentWithId :=
  filter (fun d => negb (existsb (jsstring_eqb (filePath (meta d))) files))
         (getAllDocuments db).

(** The loop [for (const doc of toDelete)]: the store and the counter
    [deleted].  [deleteDocumentChunks] does not throw, so the [catch]
    is not entered. *)
Definition deleteRemoved (files : list jsstring) (db : Database scalar)
  : Database scalar * Z :=
  fold_left (fun st doc => (deleteDocumentChunks (id doc) (fst st), snd st + 1)%Z)
            (toDelete files db) (db, 0%Z).

End Pass.

End Update.

(* ================================================================== *)
(** * The [read_file] tool: [src/mcp/server.ts] *)
(* ================================================================== *)

(** [node:path] on a POSIX system, as far as [handleReadFile] uses it:
    [path.join] of two strings and [path.resolve] of one. *)
Module NodePath.

Definition slash : code_unit := 47%N.
Definition dot : code_unit := 46%N.
Definition dotdot : jsstring := [dot; dot].

Definition isAbsolute (p : jsstring) : bool :=
  match p with
  | c :: _ => (c =? slash)%N
  | [] => false
  end.

Definition endsWithSlash (p : jsstring) : bool :=
  match rev p with
  | c :: _ => (c =? slash)%N
  | [] => false
  end.

(** One segment read by [normalizeString]; [res] is the result so far,
    its last segment first.  An empty segment and [.] are dropped;
    [..] removes the last segment unless there is none or it is [..]
    itself, and is then kept only when [allowAboveRoot]. *)
Definition normalizeSegment (allowAboveRoot : bool) (res : list jsstring)
    (segment : jsstring) : list jsstring :=
  if jsstring_eqb segment [] || jsstring_eqb segment [dot] then res
  else if jsstring_eqb segment dotdot then
    match res with
    | last :: before =>
        if jsstring_eqb last dotdot
        then (if allowAboveRoot then dotdot :: res else res)
        else before
    | [] => if allowAboveRoot then [dotdot] else []
    end
  else segment :: res.

Fixpoint joinSegments (segments : list jsstring) : jsstring :=
  match segments with
  | [] => []
  | [s] => s
  | s :: rest => s ++ [slash] ++ joinSegments rest
  end.

Definition normalizeString (path : jsstring) (allowAboveRoot : bool) : jsstring :=
  joinSegments
    (rev (fold_left (normalizeSegment allowAboveRoot) (split_on slash path) [])).

(** [path.normalize(path)]. *)
Definition normalize (path : jsstring) : jsstring :=
  match path with
  | [] => [dot]
  | _ =>
      let body := normalizeString path (negb (isAbsolute path)) in
      match body with
      | [] => if isAbsolute path then [slash]
              else if endsWithSlash path then [dot; slash] else [dot]
      | _ =>
          let body := if endsWithSlash path then body ++ [slash] else body in
          if isAbsolute path then slash :: body else body
      end
  end.

(** [path.join(a, b)]: the arguments that are not empty, joined by a
    slash and normalized. *)
Definition join (a b : jsstring) : jsstring :=
  match a, b with
  | [], [] => [dot]
  | [], _ => normalize b
  | _, [] => normalize a
  | _, _ => normalize (a ++ [slash] ++ b)
  end.

(** [path.resolve(path)] in the working directory [cwd], which is an
    absolute path. *)
Definition resolve (cwd path : jsstring) : jsstring :=
  let resolvedPath := match path with [] => [] | _ => path ++ [slash] end in
  let resolvedAbsolute := isAbsolute path in
  let resolvedPath :=
    if resolvedAbsolute then resolvedPath
    else match cwd with [] => resolvedPath | _ => cwd ++ [slash] ++ resolvedPath end in
  let resolvedAbsolute := resolvedAbsolute || isAbsolute cwd in
  let body := normalizeString resolvedPath (negb resolvedAbsolute) in
  if resolvedAbsolute then slash :: body
  else match body with [] => [dot] | _ => body end.

End NodePath.

Module McpServer.
Import NodePath.

(** What [node:fs] finds at an absolute path: a file with its text, or
    something [readFileSync] throws on, with the message of the
    error. *)
Inductive entry :=
| File (text : jsstring)
| Unreadable (message : jsstring).

Definition filesystem := jsstring -> option entry.

(** [CallToolResult] with one text item. *)
Record CallToolResult := mkResult {
  text : jsstring;
  isError : bool
}.

Definition access_denied : CallToolResult :=
  {| text := js "Access denied: File path must be within documentation directory";
     isError := true |}.

(** [handleReadFile({ file_path })], for a server configured with
    [docsPath], running in [cwd], over the files [fs]. *)
Definition handleReadFile (cwd docsPath : jsstring) (fs : filesystem)
    (file_path : jsstring) : CallToolResult :=
  let fullPath := join docsPath file_path in
  let resolvedPath := resolve cwd fullPath in
  let resolvedDocsPath := resolve cwd docsPath in
  if negb (startsWith resolvedPath resolvedDocsPath) then access_denied
  else
    match fs resolvedPath with
    | None =>
        {| text := js "File not found: " ++ file_path; isError := true |}
    | Some (Unreadable message) =>
        {| text := js "Failed to read file: " ++ message; isError := true |}
    | Some (File content) =>
        {| text := js "# " ++ file_path ++ nlnl ++ content; isError := false |}
    end.

(** The directory [root] holds the absolute, normalized path [p]: [p]
    is the root itself or goes on with a slash after it. *)
Definition within (root p : jsstring) : bool :=
  jsstring_eqb p root
  || jsstring_eqb root [slash]
  || startsWith p (root ++ [slash]).

(** The guard as the specification states it: a path whose resolution
    leaves the root is refused. *)
Definition traversal_refused (cwd docsPath : jsstring) (fs : filesystem)
    (file_path : jsstring) : Prop :=
  within (resolve cwd docsPath) (resolve cwd (join docsPath file_path)) = false ->
  handleReadFile cwd docsPath fs file_path = access_denied.

(** A server for [/docs] next to a directory [/docs-private]. *)
Definition sibling_fs : filesystem := fun p =>
  if jsstring_eqb p (js "/docs/guide.md") then Some (File (js "guide"))
  else if jsstring_eqb p (js "/docs-private/secret.md") then Some (File (js "secret"))
  else if jsstring_eqb p (js "/etc/passwd") then Some (File (js "root:x:0:0"))
  else None.

End McpServer.

(* ================================================================== *)
(** * The shape of a chunk list *)
(* ================================================================== *)

Module ChunkShape.
Import Chunker.

Definition nonspace (c : code_unit) : bool := negb (isSpace c).

(** The indices [0], [1], ... of a list of [n] chunks. *)
Definition indices (n : nat) : list Z := map Z.of_nat (seq 0 n).

(** The chunks follow one another over the lines [from] to [to]: the
    first starts at [from], each of the others starts on the line
    after the one before it ends, and the last ends at [to]. *)
Fixpoint consecutive (from : Z) (cs : list Chunk) (to : Z) : Prop :=
  match cs with
  | [] => from = (to + 1)%Z
  | c :: rest => lineStart c = from /\ consecutive (lineEnd c + 1) rest to
  end.

(** The chunks pushed so far have the indices [0], [1], ... and
    [next] is the index of the next one. *)
Definition numbered (cs : list Chunk) (next : Z) : Prop :=
  map index cs = indices (length cs) /\ next = Z.of_nat (length cs).

(** The lines read so far, each with its line feed, are the contents
    of the sections pushed and of the current one, in order; and once
    a line has been read the current section is not blank. *)
Definition parsed (done : jsstring) (st : ParseState) : Prop :=
  concat (map s_content (sections st)) ++ s_content (currentSection st) = done
  /\ (done <> [] -> existsb nonspace (s_content (currentSection st)) = true).

(** The state of the flat pass after [n] lines: the chunks pushed are
    consecutive from line 1 to the line before [chunkStart], none ends
    before it starts, and a buffer that is not empty started on a line
    already read. *)
Definition flat_lines (n : Z) (st : Buffer) : Prop :=
  consecutive 1 (chunks st) (chunkStart st - 1)
  /\ Forall (fun c => (lineStart c <= lineEnd c)%Z) (chunks st)
  /\ currentLine st = (1 + n)%Z
  /\ (chunkStart st <= currentLine st)%Z
  /\ (truthy (currentChunk st) = true -> (chunkStart st < currentLine st)%Z).

(** The sections follow one another over the lines [from] to [to]. *)
Fixpoint sections_consecutive (from : Z) (ss : list Section_) (to : Z) : Prop :=
  match ss with
  | [] => from = (to + 1)%Z
  | s :: rest =>
      s_lineStart s = from /\ sections_consecutive (s_lineEnd s + 1) rest to
  end.

(** The state of [parseIntoSections] after [n] lines: the sections
    pushed are consecutive from line 1 to the line before the current
    section starts, none is blank, and a current section that is
    blank starts at the line to be read. *)
Definition section_lines (n : Z) (st : ParseState) : Prop :=
  sections_consecutive 1 (sections st) (s_lineStart (currentSection st) - 1)
  /\ Forall (fun s => existsb nonspace (s_content s) = true) (sections st)
  /\ currentLineNumber st = (1 + n)%Z
  /\ (existsb nonspace (s_content (currentSection st)) = false ->
      s_lineStart (currentSection st) = currentLineNumber st).

Definition is_LF (c : code_unit) : bool := (c =? LF)%N.

(** The length of the run of line feeds that a text starts with. *)
Definition leading_LF (s : jsstring) : nat := length (takeWhile is_LF s).

(** Three line feeds: two empty lines. *)
Definition three_LF : jsstring := [LF; LF; LF].

(** The options with [respectHeadings: false]. *)
Definition flat_options (M c : Z) : PartialOptions :=
  {| p_maxChunkSize := Some M; p_chunkOverlap := Some c;
     p_respectHeadings := Some false |}.

End ChunkShape.

(* ================================================================== *)
(** * The shape of a store *)
(* ================================================================== *)

Module StoreShape.
Import VectorDb.

Section Store.

Variable scalar : Type.

(** What the schema declares and the calls keep: the connection
    enforces foreign keys and the dimension is positive; no two
    documents share a path or a key and no key is beyond the sequence
    of [documents]; the document of every chunk is there; no two
    embeddings share a key and the key of every embedding is the key
    of a chunk; the keys of [chunks] grow along the table. *)
Record sound (db : Database scalar) : Prop := mkSound {
  sound_pragma : foreign_keys db = true;
  sound_dimension : (0 < embeddingDimension db)%Z;
  sound_paths : NoDup (map d_file_path (documents db));
  sound_document_ids : NoDup (map d_id (documents db));
  sound_documents_seq :
    Forall (fun d => (d_id d <= documents_seq db)%Z) (documents db);
  sound_parents :
    Forall (fun c => has_document (c_document_id c) db = true) (chunks db);
  sound_embedding_keys : NoDup (map (@e_chunk_id scalar) (embeddings db));
  sound_embedded :
    incl (map (@e_chunk_id scalar) (embeddings db)) (map c_id (chunks db));
  sound_ordered : StronglySorted Z.lt (map c_id (chunks db))
}.

(** The key and the path of every document, in the order of the
    table. *)
Definition document_keys (db : Database scalar) : list (Z * jsstring) :=
  map (fun d => (d_id d, d_file_path d)) (documents db).

(** The chunk rows of a document, as [SELECT * FROM chunks WHERE
    document_id = ?] lists them. *)
Definition chunks_of (docId : Z) (db : Database scalar) : list chunk_row :=
  filter (of_document docId) (chunks db).

End Store.

End StoreShape.

(* ================================================================== *)
(** * The loops over the files: [src/commands/update.ts] and
      [src/commands/init.ts] *)
(* ================================================================== *)

Module Ingest.
Import NodePath VectorDb.

Definition is_slash (c : code_unit) : bool := (c =? slash)%N.

(** [path.basename(path)] on a POSIX system: the slashes at the end
    are left out, and what follows the last slash before them is
    returned. *)
Definition basename (path : jsstring) : jsstring :=
  rev (takeWhile (fun c => negb (is_slash c)) (dropWhile is_slash (rev path))).

(** The argument of [db.addChunk] for a chunk of the chunker;
    [heading ?? undefined] there and [heading ?? null] in [addChunk]
    keep a heading and turn the lack of one into [NULL]. *)
Definition chunk_data (docId : Z) (c : Chunker.Chunk) : ChunkData :=
  {| documentId := docId;
     content := Chunker.content c;
     chunkIndex := Chunker.index c;
     lineStart := Chunker.lineStart c;
     lineEnd := Chunker.lineEnd c;
     heading := Chunker.heading c |}.

(** What a chunk row holds besides its key. *)
Definition row_data (r : chunk_row) : ChunkData :=
  {| documentId := c_document_id r;
     content := c_content r;
     chunkIndex := c_chunk_index r;
     lineStart := c_line_start r;
     lineEnd := c_line_end r;
     heading := c_heading r |}.

(** The counters of [updateCommand] that the loop over the files
    changes. *)
Record Tally := mkTally {
  added : Z;
  updated : Z;
  skipped : Z;
  errors : Z
}.

Definition added_up (n : Tally) : Tally :=
  {| added := added n + 1; updated := updated n; skipped := skipped n;
     errors := errors n |}.

Definition updated_up (n : Tally) : Tally :=
  {| added := added n; updated := updated n + 1; skipped := skipped n;
     errors := errors n |}.

Definition skipped_up (n : Tally) : Tally :=
  {| added := added n; updated := updated n; skipped := skipped n + 1;
     errors := errors n |}.

Definition errors_up (n : Tally) : Tally :=
  {| added := added n; updated := updated n; skipped := skipped n;
     errors := errors n + 1 |}.

(** The counters of [initCommand]. *)
Record InitTally := mkInitTally {
  totalChunks : Z;
  processedFiles : Z;
  init_errors : Z
}.

Section Run.

Variable scalar : Type.

(** The working directory; what [readFileSync] and [statSync] give at
    a path, the text and [mtimeMs], or nothing when one of them
    throws; the MD5 digest in hexadecimal; what [provider.embedBatch]
    resolves to while a file is processed, or nothing when it
    rejects; and what [unixepoch()] gives while a file is
    processed. *)
Variable cwd : jsstring.
Variable read : jsstring -> option (jsstring * Z).
Variable md5 : jsstring -> jsstring.
Variable embedBatch :
  jsstring -> list jsstring -> option (list (Float32Array scalar)).
Variable unixepoch : jsstring -> Z.

(** [db.addChunk(data, embeddings[i])].  Beyond the end of the array
    [embeddings[i]] is [undefined]: the first statement of [addChunk]
    runs and then [embedding.buffer] throws a [TypeError].  The
    boolean tells whether the call threw. *)
Definition addChunk_at (data : ChunkData)
    (embedding : option (Float32Array scalar)) (db : Database scalar)
  : Database scalar * bool :=
  match embedding with
  | Some vector =>
      match addChunk data vector db with
      | (db', Returned _) => (db', false)
      | (db', Threw _) => (db', true)
      end
  | None => (fst (insert_chunk data db), true)
  end.

(** [for (let i = 0; i < chunks.length; i++) db.addChunk(...)], from
    the index [i] on; [rest] is [chunks] from there.  The loop ends at
    the first call that throws. *)
Fixpoint storeChunks (docId : Z) (embeddings : list (Float32Array scalar))
    (i : nat) (rest : list Chunker.Chunk) (db : Database scalar)
  : Database scalar * bool :=
  match rest with
  | [] => (db, false)
  | chunk :: rest' =>
      match addChunk_at (chunk_data docId chunk) (nth_error embeddings i) db with
      | (db', true) => (db', true)
      | (db', false) => storeChunks docId embeddings (S i) rest' db'
      end
  end.

(** The end of the body of both loops, once [chunkMarkdown(content)]
    has given [chunks]: nothing is embedded when there is no chunk;
    the boolean tells whether [embedBatch] or an [addChunk] threw. *)
Definition embed_and_store (file : jsstring) (chunks : list Chunker.Chunk)
    (docId : Z) (db : Database scalar) : Database scalar * bool :=
  match chunks with
  | [] => (db, false)
  | _ :: _ =>
      let texts := map Chunker.content chunks in
      match embedBatch file texts with
      | None => (db, true)
      | Some embeddings => storeChunks docId embeddings 0 chunks db
      end
  end.

(** The metadata both loops give to [upsertDocument]. *)
Definition metadata_of (file content : jsstring) (mtimeMs : Z)
  : DocumentMetadata :=
  {| filePath := file;
     title := Chunker.extractTitle content (basename file);
     lastModified := mtimeMs;
     fileHash := md5 content |}.

(** The body of [for (const file of files)] in [updateCommand], with
    its [try] and [catch]. *)
Definition update_file (force : bool) (st : Database scalar * Tally)
    (file : jsstring) : Database scalar * Tally :=
  let (db, n) := st in
  let filePath := join cwd file in
  match read filePath with
  | None => (db, errors_up n)
  | Some (content, mtimeMs) =>
      let fileHash := md5 content in
      let needsUpdate := force || documentNeedsUpdate file fileHash db in
      if negb needsUpdate then (db, skipped_up n)
      else
        let existingDoc := getDocumentByPath file db in
        let (db1, n1) :=
          match existingDoc with
          | Some doc => (deleteDocumentChunks (id doc) db, updated_up n)
          | None => (db, added_up n)
          end in
        let (db2, docId) :=
          upsertDocument (unixepoch file) (metadata_of file content mtimeMs) db1 in
        let chunks := Chunker.chunkMarkdown content Chunker.no_options in
        match embed_and_store file chunks docId db2 with
        | (db3, true) => (db3, errors_up n1)
        | (db3, false) => (db3, n1)
        end
  end.

(** The second loop of [updateCommand]. *)
Definition update_files (force : bool) (files : list jsstring)
    (st : Database scalar * Tally) : Database scalar * Tally :=
  fold_left (update_file force) files st.

(** The two loops of [updateCommand] on the store: the documents
    whose file is gone lose their chunks, then the files are
    processed. *)
Definition update_store (force : bool) (files : list jsstring)
    (db : Database scalar) : Database scalar * Tally :=
  update_files force files
    (fst (Update.deleteRemoved files db),
     {| added := 0; updated := 0; skipped := 0; errors := 0 |}).

(** The body of [for (const file of files)] in [initCommand]. *)
Definition init_file (st : Database scalar * InitTally) (file : jsstring)
  : Database scalar * InitTally :=
  let (db, n) := st in
  let filePath := join cwd file in
  match read filePath with
  | None =>
      (db, {| totalChunks := totalChunks n; processedFiles := processedFiles n;
              init_errors := init_errors n + 1 |})
  | Some (content, mtimeMs) =>
      let (db2, docId) :=
        upsertDocument (unixepoch file) (metadata_of file content mtimeMs) db in
      let chunks := Chunker.chunkMarkdown content Chunker.no_options in
      match embed_and_store file chunks docId db2 with
      | (db3, true) =>
          (db3, {| totalChunks := totalChunks n;
                   processedFiles := processedFiles n;
                   init_errors := init_errors n + 1 |})
      | (db3, false) =>
          match chunks with
          | [] => (db3, n)
          | _ :: _ =>
              (db3, {| totalChunks := totalChunks n + len_list chunks;
                       processedFiles := processedFiles n + 1;
                       init_errors := init_errors n |})
          end
      end
  end.

Definition init_files (files : list jsstring) (db : Database scalar)
  : Database scalar * InitTally :=
  fold_left init_file files
    (db, {| totalChunks := 0; processedFiles := 0; init_errors := 0 |}).

(** The embeddings of the chunks of a document. *)
Definition embeddings_of (docId : Z) (db : Database scalar)
  : list (embedding_row scalar) :=
  filter (fun e => mem (e_chunk_id e) (chunk_ids_of docId db)) (embeddings db).

(** A file that can be read. *)
Definition readable (file : jsstring) : bool :=
  match read (join cwd file) with Some _ => true | None => false end.

End Run.

(** ** A directory with two files, and a provider that gives every
    text the same vector of four numbers and fails on [b.md] *)

Definition two_files (path : jsstring) : option (jsstring * Z) :=
  if jsstring_eqb path (js "/docs/a.md") then Some (js "# A" ++ nlnl ++ js "one", 10%Z)
  else if jsstring_eqb path (js "/docs/b.md") then Some (js "two", 20%Z)
  else None.

Definition same_vector (file : jsstring) (texts : list jsstring)
  : option (list (Float32Array Z)) :=
  if jsstring_eqb file (js "b.md") then None
  else Some (map (fun _ => [1; 0; 0; 0]%Z) texts).

Definition no_tally : Tally :=
  {| added := 0; updated := 0; skipped := 0; errors := 0 |}.

End Ingest.

(* ================================================================== *)
(** * The table [db_info]: [src/db/vector-db.ts] *)
(* ================================================================== *)

Module DbInfo.






End DbInfo.

(* ================================================================== *)
(** * The argument of [config --set]: [src/commands/config.ts] *)
(* ================================================================== *)

Module ConfigCommand.

Definition equals_sign : code_unit := 61%N.

(** [parts.join(sep)]. *)
Fixpoint join_with (sep : jsstring) (parts : list jsstring) : jsstring :=
  match parts with
  | [] => []
  | [part] => part
  | part :: rest => part ++ sep ++ join_with sep rest
  end.

(** [const [key, ...valueParts] = options.set.split('=')], [const
    value = valueParts.join('=')], and the check [!key || !value]
    that ends the command with [Invalid format]. *)
Definition parse_set (set : jsstring) : option (jsstring * jsstring) :=
  match split_on equals_sign set with
  | [] => None
  | key :: valueParts =>
      let value := join_with [equals_sign] valueParts in
      if negb (truthy key) || negb (truthy value) then None
      else Some (key, value)
  end.

End ConfigCommand.

(* ================================================================== *)
(** * Facts about strings *)
(* ================================================================== *)

Module JsStringFacts.

Lemma len_nonneg (s : jsstring) : (0 <= len s)%Z.
Proof. unfold len. lia. Qed.

Lemma len_app (a b : jsstring) : len (a ++ b) = (len a + len b)%Z.
Proof. unfold len. rewrite length_app. lia. Qed.

Lemma len_nil : len [] = 0%Z.
Proof. reflexivity. Qed.

Lemma truthy_false (s : jsstring) : truthy s = false -> s = [].
Proof. destruct s; [reflexivity | discriminate]. Qed.

Lemma truthy_true (s : jsstring) : truthy s = true -> s <> [].
Proof. destruct s; [discriminate | intros _ H; discriminate H]. Qed.

Lemma dropWhile_length (p : code_unit -> bool) (s : jsstring) :
  (length (dropWhile p s) <= length s)%nat.
Proof.
  induction s as [|c t IH]; simpl; [lia|].
  destruct (p c); simpl; lia.
Qed.

Lemma dropWhile_idem (p : code_unit -> bool) (s : jsstring) :
  dropWhile p (dropWhile p s) = dropWhile p s.
Proof.
  induction s as [|c t IH]; simpl; [reflexivity|].
  destruct (p c) eqn:E; [exact IH|].
  simpl. rewrite E. reflexivity.
Qed.

Lemma dropWhile_snoc (p : code_unit -> bool) (s : jsstring) (c : code_unit) :
  p c = false -> dropWhile p (s ++ [c]) = dropWhile p s ++ [c].
Proof.
  intros Hc. induction s as [|a t IH]; simpl.
  - rewrite Hc. reflexivity.
  - destruct (p a); [exact IH | reflexivity].
Qed.

Lemma trimStart_clean_head (s : jsstring) : clean_head (trimStart s).
Proof.
  unfold trimStart. induction s as [|c t IH]; simpl; [exact I|].
  destruct (isSpace c) eqn:E; [exact IH | exact E].
Qed.

Lemma trimStart_fixed (s : jsstring) : clean_head s -> trimStart s = s.
Proof.
  destruct s as [|c t]; simpl; [reflexivity|].
  intros H. unfold trimStart. simpl. rewrite H. reflexivity.
Qed.

Lemma trimEnd_clean_head (s : jsstring) : clean_head s -> clean_head (trimEnd s).
Proof.
  destruct s as [|c t]; intros H; [exact I|].
  unfold trimEnd, trimStart. simpl in *.
  rewrite dropWhile_snoc by exact H.
  rewrite rev_app_distr. simpl. exact H.
Qed.

Lemma trimEnd_idem (s : jsstring) : trimEnd (trimEnd s) = trimEnd s.
Proof.
  unfold trimEnd, trimStart. rewrite rev_involutive, dropWhile_idem.
  reflexivity.
Qed.

(** [trim] gives a string that [trim] leaves alone. *)
Lemma trim_idem (s : jsstring) : trim (trim s) = trim s.
Proof.
  unfold trim.
  rewrite (trimStart_fixed (trimEnd (trimStart s))).
  - apply trimEnd_idem.
  - apply trimEnd_clean_head, trimStart_clean_head.
Qed.

Lemma trim_nil : trim [] = [].
Proof. reflexivity. Qed.

Lemma len_trim (s : jsstring) : (len (trim s) <= len s)%Z.
Proof.
  unfold trim, trimEnd, trimStart, len.
  rewrite length_rev.
  pose proof (dropWhile_length isSpace (rev (dropWhile isSpace s))) as H1.
  pose proof (dropWhile_length isSpace s) as H2.
  rewrite length_rev in H1. lia.
Qed.

Lemma truthy_trim (s : jsstring) : truthy (trim s) = true -> s <> [].
Proof. intros H E. subst s. discriminate H. Qed.

(** [slice(-n)] for a positive [n] keeps at most [n] characters. *)
Lemma len_slice_neg (n : Z) (s : jsstring) :
  (0 < n)%Z -> (len (slice (- n) s) <= n)%Z.
Proof.
  intros Hn. unfold slice.
  destruct (- n <? 0)%Z eqn:E; [|apply Z.ltb_ge in E; lia].
  unfold len. rewrite length_skipn. lia.
Qed.

(** [slice(-0)] is [slice(0)]: the whole string. *)
Lemma slice_neg_zero (s : jsstring) : slice (- 0) s = s.
Proof.
  unfold slice. simpl.
  rewrite Z.min_l by apply len_nonneg. reflexivity.
Qed.

Lemma fold_left_inv {A B : Type} (P : A -> Prop) (f : A -> B -> A) (l : list B) :
  (forall a b, In b l -> P a -> P (f a b)) ->
  forall a, P a -> P (fold_left f l a).
Proof.
  induction l as [|b l IH]; intros Hf a Ha; simpl; [exact Ha|].
  apply IH.
  - intros a' b' Hb'. apply Hf. right. exact Hb'.
  - apply Hf; [left; reflexivity | exact Ha].
Qed.

End JsStringFacts.

(* ================================================================== *)
(** * The chunker: trimmed contents and the size of a chunk *)
(* ================================================================== *)

Module ChunkerFacts.
Import Chunker JsStringFacts.

(** ** Every content is a result of [trim] *)

Lemma Forall_snoc {A : Type} (P : A -> Prop) (l : list A) (a : A) :
  Forall P l -> P a -> Forall P (l ++ [a]).
Proof.
  intros Hl Ha. apply Forall_app. split; [exact Hl|].
  constructor; [exact Ha | constructor].
Qed.

Lemma splitStep_trimmed hd M c st p :
  Forall trimmed (chunks st) -> Forall trimmed (chunks (splitStep hd M c st p)).
Proof.
  intros H. unfold splitStep.
  destruct ((len (currentChunk st) + len p + 2 >? M)%Z && truthy (currentChunk st));
    simpl; [|exact H].
  apply Forall_snoc; [exact H|]. unfold trimmed. simpl. apply trim_idem.
Qed.

Lemma flatStep_trimmed M c st l :
  Forall trimmed (chunks st) -> Forall trimmed (chunks (flatStep M c st l)).
Proof.
  intros H. unfold flatStep.
  destruct ((len (currentChunk st) + len l + 1 >? M)%Z && truthy (currentChunk st));
    simpl; [|exact H].
  apply Forall_snoc; [exact H|]. unfold trimmed. simpl. apply trim_idem.
Qed.

Lemma splitSection_trimmed sec M c : Forall trimmed (splitSection sec M c).
Proof.
  unfold splitSection.
  destruct (len (trim (s_content sec)) <=? M)%Z.
  - constructor; [|constructor]. unfold trimmed. simpl. apply trim_idem.
  - match goal with |- context [fold_left ?f ?l ?a] =>
      assert (Hf : Forall trimmed (chunks (fold_left f l a)))
    end.
    { apply (fold_left_inv (fun st => Forall trimmed (chunks st))).
      - intros a b _. apply splitStep_trimmed.
      - constructor. }
    destruct (truthy _); [|exact Hf].
    apply Forall_snoc; [exact Hf|]. unfold trimmed. simpl. apply trim_idem.
Qed.

Lemma flatChunks_trimmed clean M c : Forall trimmed (flatChunks clean M c).
Proof.
  unfold flatChunks.
  match goal with |- context [fold_left ?f ?l ?a] =>
    assert (Hf : Forall trimmed (chunks (fold_left f l a)))
  end.
  { apply (fold_left_inv (fun st => Forall trimmed (chunks st))).
    - intros a b _. apply flatStep_trimmed.
    - constructor. }
  destruct (truthy _); [|exact Hf].
  apply Forall_snoc; [exact Hf|]. unfold trimmed. simpl. apply trim_idem.
Qed.

(** Re-indexing keeps the contents: a property of the content of every
    chunk of every section is a property of every chunk pushed. *)
Lemma pushSection_content (P : jsstring -> Prop) M c acc sec :
  Forall (fun ch => P (content ch)) (fst acc) ->
  Forall (fun ch => P (content ch)) (splitSection sec M c) ->
  Forall (fun ch => P (content ch)) (fst (pushSection M c acc sec)).
Proof.
  unfold pushSection. generalize (splitSection sec M c) as l.
  intros l. revert acc. induction l as [|ch l IH]; intros acc Hacc Hl; simpl.
  - exact Hacc.
  - inversion Hl as [|? ? Hch Hl']; subst. apply IH; [|exact Hl'].
    simpl. apply Forall_snoc; [exact Hacc | exact Hch].
Qed.

Lemma chunkClean_content (P : jsstring -> Prop) clean opts :
  (respectHeadings opts = true ->
   forall sec, In sec (parseIntoSections clean) ->
     Forall (fun ch => P (content ch))
            (splitSection sec (maxChunkSize opts) (chunkOverlap opts))) ->
  (respectHeadings opts = false ->
   Forall (fun ch => P (content ch))
          (flatChunks clean (maxChunkSize opts) (chunkOverlap opts))) ->
  Forall (fun ch => P (content ch)) (chunkClean clean opts).
Proof.
  intros Hsec Hflat. unfold chunkClean.
  destruct (respectHeadings opts); [|apply Hflat; reflexivity].
  apply (fold_left_inv (fun acc => Forall (fun ch => P (content ch)) (fst acc))).
  - intros acc sec Hin Hacc.
    apply pushSection_content; [exact Hacc | apply Hsec; [reflexivity | exact Hin]].
  - constructor.
Qed.

Section SizeInvariant.

Variables (U : list jsstring) (sep : jsstring) (M c : Z).
Hypothesis overlap_positive : (0 < c)%Z.

Lemma buffer_ok_closed (b : jsstring) :
  buffer_ok U sep M c b -> b <> [] -> size_ok U sep M c (trim b).
Proof.
  intros [E | [Hle | [(ov & p & Hp & Hov & E) | (p & Hp & Hlt & E)]]] Hne.
  - contradiction.
  - left. pose proof (len_trim b). lia.
  - right. left. exists ov, p. subst b. auto.
  - right. right. exists p. subst b. auto.
Qed.

Lemma buffer_ok_overlap (b p : jsstring) :
  In p U -> buffer_ok U sep M c (slice (- c) b ++ sep ++ p).
Proof.
  intros Hp. right. right. left. exists (slice (- c) b), p.
  split; [exact Hp|]. split; [|reflexivity].
  apply len_slice_neg, overlap_positive.
Qed.

Lemma buffer_ok_first (p : jsstring) : In p U -> buffer_ok U sep M c p.
Proof.
  intros Hp. destruct (Z_le_gt_dec (len p) M) as [Hle | Hgt].
  - right. left. exact Hle.
  - right. right. right. exists p. split; [exact Hp|]. split; [lia | reflexivity].
Qed.

End SizeInvariant.

Lemma splitStep_state_ok U M c hd st p :
  (0 < c)%Z -> In p U ->
  state_ok U nlnl M c st -> state_ok U nlnl M c (splitStep hd M c st p).
Proof.
  intros Hc Hp [Hch Hb]. unfold splitStep.
  destruct (len (currentChunk st) + len p + 2 >? M)%Z eqn:Hgt;
    destruct (truthy (currentChunk st)) eqn:Ht;
    split; cbn [andb chunks currentChunk]; try exact Hch.
  - apply Forall_snoc; [exact Hch|]. cbn [content].
    apply buffer_ok_closed; [exact Hb | apply truthy_true; exact Ht].
  - apply buffer_ok_overlap; assumption.
  - apply truthy_false in Ht. apply buffer_ok_first; exact Hp.
  - right. left. rewrite !len_app. change (len nlnl) with 2%Z.
    rewrite Z.gtb_ltb in Hgt. apply Z.ltb_ge in Hgt. lia.
  - apply buffer_ok_first; exact Hp.
Qed.

Lemma flatStep_state_ok U M c st l :
  (0 < c)%Z -> In l U ->
  state_ok U nl M c st -> state_ok U nl M c (flatStep M c st l).
Proof.
  intros Hc Hl [Hch Hb]. unfold flatStep.
  destruct (len (currentChunk st) + len l + 1 >? M)%Z eqn:Hgt;
    destruct (truthy (currentChunk st)) eqn:Ht;
    split; cbn [andb chunks currentChunk]; try exact Hch.
  - apply Forall_snoc; [exact Hch|]. cbn [content].
    apply buffer_ok_closed; [exact Hb | apply truthy_true; exact Ht].
  - apply buffer_ok_overlap; assumption.
  - apply truthy_false in Ht. rewrite Ht. apply buffer_ok_first; exact Hl.
  - right. left. rewrite !len_app. change (len nl) with 1%Z.
    rewrite Z.gtb_ltb in Hgt. apply Z.ltb_ge in Hgt. lia.
  - apply truthy_false in Ht. rewrite Ht. apply buffer_ok_first; exact Hl.
Qed.

Lemma state_ok_last U sep M c st (last : Chunk) :
  state_ok U sep M c st ->
  content last = trim (currentChunk st) ->
  Forall (fun ch => size_ok U sep M c (content ch))
    (if truthy (trim (currentChunk st)) then chunks st ++ [last] else chunks st).
Proof.
  intros [Hch Hb] E.
  destruct (truthy (trim (currentChunk st))) eqn:Ht; [|exact Hch].
  apply Forall_snoc; [exact Hch|]. rewrite E.
  apply buffer_ok_closed; [exact Hb | apply truthy_trim; exact Ht].
Qed.

Lemma splitSection_size_ok sec M c :
  (0 < c)%Z ->
  Forall (fun ch => size_ok (split_blank (trim (s_content sec))) nlnl M c (content ch))
         (splitSection sec M c).
Proof.
  intros Hc. unfold splitSection.
  destruct (len (trim (s_content sec)) <=? M)%Z eqn:Hfit.
  - constructor; [|constructor]. left. simpl. apply Z.leb_le. exact Hfit.
  - apply state_ok_last; [|reflexivity].
    apply (fold_left_inv (state_ok (split_blank (trim (s_content sec))) nlnl M c)).
    + intros st p Hp. apply splitStep_state_ok; assumption.
    + split; [constructor | left; reflexivity].
Qed.

Lemma flatChunks_size_ok clean M c :
  (0 < c)%Z ->
  Forall (fun ch => size_ok (split_on LF clean) nl M c (content ch))
         (flatChunks clean M c).
Proof.
  intros Hc. unfold flatChunks.
  apply state_ok_last; [|reflexivity].
  apply (fold_left_inv (state_ok (split_on LF clean) nl M c)).
  - intros st l Hl. apply flatStep_state_ok; assumption.
  - split; [constructor | left; reflexivity].
Qed.

Lemma size_ok_incl U U' sep M c x :
  incl U U' -> size_ok U sep M c x -> size_ok U' sep M c x.
Proof.
  intros HU [H | [(ov & p & Hp & H) | (p & Hp & H)]].
  - left. exact H.
  - right. left. exists ov, p. split; [apply HU; exact Hp | exact H].
  - right. right. exists p. split; [apply HU; exact Hp | exact H].
Qed.

End ChunkerFacts.

Module ChunkerSpec.
Import Chunker JsStringFacts ChunkerFacts.

(** C10.  For every markdown input and every options value, the content
    of every chunk that [chunkMarkdown] returns has no leading and no
    trailing white space: it is equal to its own [trim], on the
    heading-respecting path and on the flat path alike. *)
Theorem chunk_content_trimmed (content : jsstring) (options : PartialOptions) :
  Forall (fun ch => trim (Chunker.content ch) = Chunker.content ch)
         (chunkMarkdown content options).
Proof.
  unfold chunkMarkdown, chunkMarkdownWith.
  apply (chunkClean_content (fun x => trim x = x)).
  - intros _ sec _. apply splitSection_trimmed.
  - intros _. apply flatChunks_trimmed.
Qed.

Example two_paragraphs_chunks :
  map Chunker.content (chunkMarkdown two_paragraphs small_options)
  = [js "aaaaaaaa"; js "aaaa" ++ nlnl ++ js "bbbbbbbb"].
Proof. vm_compute. reflexivity. Qed.

Example two_paragraphs_units :
  units two_paragraphs (merge_options small_options)
  = [js "aaaaaaaa"; js "bbbbbbbb"].
Proof. vm_compute. reflexivity. Qed.

(** C1, as stated, fails: the second chunk of [two_paragraphs] is the
    overlap ["aaaa"], the separator and the paragraph ["bbbbbbbb"],
    fourteen characters for a limit of ten, and no paragraph of the
    input is longer than the limit. *)
Lemma size_bound_as_stated_fails :
  ~ size_bound_as_stated two_paragraphs (merge_options small_options).
Proof.
  unfold size_bound_as_stated. intros H.
  assert (E : chunkMarkdownWith two_paragraphs (merge_options small_options)
              = [ {| content := js "aaaaaaaa"; index := 0; lineStart := 1;
                     lineEnd := 2; heading := None |};
                  {| content := js "aaaa" ++ nlnl ++ js "bbbbbbbb"; index := 1;
                     lineStart := 3; lineEnd := 3; heading := None |} ])
    by (vm_compute; reflexivity).
  rewrite E in H. clear E.
  inversion H as [|? ? _ H2]; subst.
  inversion H2 as [|? ? Hsecond _]; subst. clear H H2.
  destruct Hsecond as [Hle | (pre & p & Hp & Hlt & _)].
  - vm_compute in Hle. apply Hle. reflexivity.
  - rewrite two_paragraphs_units in Hp.
    destruct Hp as [<- | [<- | []]]; vm_compute in Hlt; discriminate Hlt.
Qed.

(** C1, amended.  When the overlap is positive, every chunk of
    [chunkMarkdown] is within [maxChunkSize], or is a single paragraph
    (a single line on the flat path) behind at most [chunkOverlap]
    characters of overlap and the separator, or is a single paragraph
    (line) that alone exceeds [maxChunkSize].  In the second case the
    paragraph itself need not exceed the limit. *)
Theorem chunk_size_bound (content : jsstring) (options : PartialOptions) :
  let opts := merge_options options in
  (0 < chunkOverlap opts)%Z ->
  Forall (fun ch => size_ok (units content opts) (separator opts)
                      (maxChunkSize opts) (chunkOverlap opts)
                      (Chunker.content ch))
         (chunkMarkdown content options).
Proof.
  intros opts Hc. unfold chunkMarkdown, chunkMarkdownWith. fold opts.
  apply (chunkClean_content
           (size_ok (units content opts) (separator opts)
                    (maxChunkSize opts) (chunkOverlap opts))).
  - intros Hr sec Hsec. unfold units, separator. rewrite Hr.
    eapply Forall_impl; [|apply splitSection_size_ok; exact Hc].
    intros ch. apply size_ok_incl.
    intros p Hp. apply in_flat_map. exists sec. split; assumption.
  - intros Hr. unfold units, separator. rewrite Hr.
    apply flatChunks_size_ok. exact Hc.
Qed.

(** The theorem at [two_paragraphs], with an overlap of four. *)
Lemma chunk_size_bound_witness :
  Forall (fun ch => size_ok [js "aaaaaaaa"; js "bbbbbbbb"] nlnl 10 4
                      (Chunker.content ch))
         (chunkMarkdown two_paragraphs small_options).
Proof.
  apply (chunk_size_bound two_paragraphs small_options).
  reflexivity.
Defined.

(** With an overlap of zero the source calls [slice(-0)], which is
    [slice(0)]: the closed buffer is carried over whole. *)
Example zero_overlap_chunks :
  map Chunker.content
      (chunkMarkdown (two_paragraphs ++ nlnl ++ js "cccccccc")
         {| p_maxChunkSize := Some 10%Z; p_chunkOverlap := Some 0%Z;
            p_respectHeadings := None |})
  = [js "aaaaaaaa";
     js "aaaaaaaa" ++ nlnl ++ js "bbbbbbbb";
     js "aaaaaaaa" ++ nlnl ++ js "bbbbbbbb" ++ nlnl ++ js "cccccccc"].
Proof. vm_compute. reflexivity. Qed.

End ChunkerSpec.


(* ================================================================== *)
(** * The vector store: pairing, deletion, staleness *)
(* ================================================================== *)

Module VectorDbFacts.
Import VectorDb.

Lemma jsstring_eqb_refl (a : jsstring) : jsstring_eqb a a = true.
Proof.
  unfold jsstring_eqb. destruct (list_eq_dec N.eq_dec a a); congruence.
Qed.

Lemma jsstring_eqb_eq (a b : jsstring) : jsstring_eqb a b = true <-> a = b.
Proof.
  unfold jsstring_eqb. destruct (list_eq_dec N.eq_dec a b); split; congruence.
Qed.

Lemma jsstring_eqb_neq (a b : jsstring) : a <> b -> jsstring_eqb a b = false.
Proof.
  unfold jsstring_eqb. destruct (list_eq_dec N.eq_dec a b); congruence.
Qed.

(** ** Lists as tables *)

Lemma filter_filter {A : Type} (p q : A -> bool) (l : list A) :
  filter p (filter q l) = filter (fun a => q a && p a) l.
Proof.
  induction l as [|a l IH]; simpl; [reflexivity|].
  destruct (q a); simpl; [|exact IH].
  destruct (p a); rewrite IH; reflexivity.
Qed.

Lemma filter_none {A : Type} (p : A -> bool) (l : list A) :
  (forall a, In a l -> p a = false) -> filter p l = [].
Proof.
  induction l as [|a l IH]; intros H; simpl; [reflexivity|].
  rewrite (H a) by (left; reflexivity).
  apply IH. intros b Hb. apply H. right. exact Hb.
Qed.

Lemma filter_all {A : Type} (p : A -> bool) (l : list A) :
  (forall a, In a l -> p a = true) -> filter p l = l.
Proof.
  induction l as [|a l IH]; intros H; simpl; [reflexivity|].
  rewrite (H a) by (left; reflexivity).
  f_equal. apply IH. intros b Hb. apply H. right. exact Hb.
Qed.

Lemma filter_map_swap {A B : Type} (f : A -> B) (p : B -> bool) (l : list A) :
  filter p (map f l) = map f (filter (fun a => p (f a)) l).
Proof.
  induction l as [|a l IH]; simpl; [reflexivity|].
  destruct (p (f a)); simpl; rewrite IH; reflexivity.
Qed.

(** Deleting rows keeps the keys distinct. *)
Lemma keys_distinct_filter {Row : Type} (key : Row -> Z) (keep : Row -> bool)
    (rows : list Row) :
  NoDup (map key rows) -> NoDup (map key (filter keep rows)).
Proof.
  induction rows as [|r rows IH]; simpl; intros Hnd; [constructor|].
  inversion Hnd as [|? ? Hfresh Hrest]; subst.
  destruct (keep r); simpl; [|apply IH; exact Hrest].
  constructor; [|apply IH; exact Hrest].
  intros Hin. apply Hfresh. apply in_map_iff in Hin.
  destruct Hin as (r' & Hkey & Hin). apply filter_In in Hin.
  apply in_map_iff. exists r'. tauto.
Qed.

Lemma mem_In (i : Z) (l : list Z) : mem i l = true <-> In i l.
Proof.
  unfold mem. rewrite existsb_exists. split.
  - intros (j & Hj & E). apply Z.eqb_eq in E. subst. exact Hj.
  - intros H. exists i. split; [exact H | apply Z.eqb_refl].
Qed.

Section Store.

Variable scalar : Type.

(** The loop of [deleteDocumentChunks] removes the embeddings whose
    key is one of the keys read. *)
Lemma delete_embeddings_filter (ids : list Z) (es : list (embedding_row scalar)) :
  fold_left (@delete_embedding scalar) ids es
  = filter (fun e => negb (mem (e_chunk_id e) ids)) es.
Proof.
  revert es. induction ids as [|i ids IH]; intros es; simpl.
  - symmetry. apply filter_all. reflexivity.
  - rewrite IH. unfold delete_embedding. rewrite filter_filter.
    apply filter_ext. intros e.
    rewrite negb_orb. reflexivity.
Qed.

(** In a table without repeated keys, the keys read for a document
    are the keys of its chunks and of no other chunk. *)
Lemma chunk_ids_of_document (docId : Z) (cs : list chunk_row) (c : chunk_row) :
  NoDup (map c_id cs) -> In c cs ->
  mem (c_id c) (map c_id (filter (of_document docId) cs)) = of_document docId c.
Proof.
  intros Hnd Hin.
  destruct (of_document docId c) eqn:E.
  - apply mem_In. apply in_map. apply filter_In. split; assumption.
  - destruct (mem _ _) eqn:Hm; [|reflexivity].
    apply mem_In in Hm. apply in_map_iff in Hm.
    destruct Hm as (c' & Hid & Hc'). apply filter_In in Hc'.
    destruct Hc' as [Hc' Hdoc].
    assert (c' = c); [|subst; congruence].
    clear E Hdoc. induction cs as [|a cs IH]; [contradiction|].
    simpl in Hnd. inversion Hnd as [|? ? Hnot Hrest]; subst.
    destruct Hin as [-> | Hin], Hc' as [-> | Hc'].
    + reflexivity.
    + exfalso. apply Hnot. rewrite <- Hid. apply in_map. exact Hc'.
    + exfalso. apply Hnot. rewrite Hid. apply in_map. exact Hin.
    + apply IH; assumption.
Qed.

Lemma Forall_filter {A : Type} (P : A -> Prop) (p : A -> bool) (l : list A) :
  Forall P l -> Forall P (filter p l).
Proof.
  intros H. apply Forall_forall. intros a Ha. apply filter_In in Ha.
  rewrite Forall_forall in H. apply H. tauto.
Qed.

Lemma bounded_fresh {A : Type} (key : A -> Z) (l : list A) (n : Z) :
  Forall (fun a => (key a <= n)%Z) l -> ~ In (n + 1)%Z (map key l).
Proof.
  intros H Hin. apply in_map_iff in Hin. destruct Hin as (a & E & Ha).
  rewrite Forall_forall in H. specialize (H a Ha). lia.
Qed.

(** ** What holds of every reachable store *)

Lemma has_embedding_fresh (db : Database scalar) :
  Forall (fun e => (e_chunk_id e <= chunks_seq db)%Z) (embeddings db) ->
  has_embedding (chunks_seq db + 1) db = false.
Proof.
  intros H. unfold has_embedding.
  destruct (existsb _ _) eqn:E; [|reflexivity].
  apply existsb_exists in E. destruct E as (e & He & Eq).
  apply Z.eqb_eq in Eq. rewrite Forall_forall in H. specialize (H e He). lia.
Qed.

Lemma NoDup_snoc {A : Type} (l : list A) (a : A) :
  NoDup l -> ~ In a l -> NoDup (l ++ [a]).
Proof.
  induction l as [|b l IH]; simpl; intros Hnd Hnot.
  - constructor; [intros [] | constructor].
  - inversion Hnd as [|? ? Hb Hl]; subst. constructor.
    + intros Hin. apply in_app_or in Hin. destruct Hin as [Hin | [E | []]].
      * contradiction.
      * subst. apply Hnot. left. reflexivity.
    + apply IH; [exact Hl | intros Hin; apply Hnot; right; exact Hin].
Qed.

Lemma Forall_weaken_snoc {A : Type} (key : A -> Z) (l : list A) (a : A) (n : Z) :
  Forall (fun x => (key x <= n)%Z) l -> key a = (n + 1)%Z ->
  Forall (fun x => (key x <= n + 1)%Z) (l ++ [a]).
Proof.
  intros Hl Ha. apply Forall_app. split.
  - eapply Forall_impl; [|exact Hl]. simpl. intros x Hx. lia.
  - constructor; [lia | constructor].
Qed.

Lemma open_consistent (dimension : Z) (db : Database scalar) :
  open scalar dimension = Some db ->
  consistent db /\ paired db /\ embeddingDimension db = dimension.
Proof.
  unfold open. destruct (0 <? dimension)%Z; [|discriminate].
  intros E. injection E as <-. split; [|split].
  - constructor; simpl; constructor.
  - split; simpl; [reflexivity | constructor].
  - reflexivity.
Qed.

Lemma upsertDocument_tables now meta (db : Database scalar) :
  let db' := fst (upsertDocument now meta db) in
  chunks db' = chunks db /\ chunks_seq db' = chunks_seq db
  /\ embeddings db' = embeddings db
  /\ embeddingDimension db' = embeddingDimension db.
Proof.
  unfold upsertDocument. destruct (document_at _ _); simpl; auto.
Qed.

(** The three ways [addChunk] can go. *)
Lemma addChunk_cases chunk embedding (db : Database scalar) :
  let chunkId := (chunks_seq db + 1)%Z in
  let db1 := with_chunks db (chunks db ++ [new_chunk chunk chunkId]) chunkId in
  Forall (fun e => (e_chunk_id e <= chunks_seq db)%Z) (embeddings db) ->
  (foreign_key_violated chunk db = true
   /\ addChunk chunk embedding db = (db, Threw FOREIGN_KEY_constraint_failed))
  \/ (foreign_key_violated chunk db = false
      /\ len_list embedding <> embeddingDimension db
      /\ addChunk chunk embedding db = (db1, Threw Dimension_mismatch))
  \/ (foreign_key_violated chunk db = false
      /\ len_list embedding = embeddingDimension db
      /\ addChunk chunk embedding db
         = (with_embeddings db1
              (embeddings db ++
                 [{| e_chunk_id := chunkId; e_embedding := embedding |}]),
            Returned chunkId)).
Proof.
  intros chunkId db1 Hbound.
  unfold addChunk, insert_chunk.
  destruct (foreign_key_violated chunk db) eqn:Hfk; [left; auto|].
  right. fold chunkId. fold db1. unfold insert_embedding.
  change (embeddingDimension db1) with (embeddingDimension db).
  change (has_embedding chunkId db1) with (has_embedding (chunks_seq db + 1) db).
  rewrite (has_embedding_fresh db Hbound).
  destruct (len_list embedding =? embeddingDimension db)%Z eqn:Hlen; cbn [negb].
  - apply Z.eqb_eq in Hlen. right. auto.
  - apply Z.eqb_neq in Hlen. left. auto.
Qed.

Lemma after_consistent (c : call scalar) (db : Database scalar) :
  consistent db -> consistent (after c db).
Proof.
  intros [Hc He Hnd Hv]. destruct c as [now meta | chunk embedding | docId];
    unfold after.
  - destruct (upsertDocument_tables now meta db) as (E1 & E2 & E3 & E4).
    constructor; rewrite ?E1, ?E2, ?E3, ?E4; assumption.
  - destruct (addChunk_cases chunk embedding db He)
      as [(_ & E) | [(_ & _ & E) | (_ & Hlen & E)]]; rewrite E;
      constructor; simpl; try assumption.
    + apply Forall_weaken_snoc; [exact Hc | reflexivity].
    + eapply Forall_impl; [|exact He]. simpl. intros e H. lia.
    + rewrite map_app. apply NoDup_snoc; [exact Hnd|].
      simpl. apply bounded_fresh. exact Hc.
    + apply Forall_weaken_snoc; [exact Hc | reflexivity].
    + apply Forall_weaken_snoc; [exact He | reflexivity].
    + rewrite map_app. apply NoDup_snoc; [exact Hnd|].
      simpl. apply bounded_fresh. exact Hc.
    + apply Forall_app. split; [exact Hv|].
      constructor; [exact Hlen | constructor].
  - unfold deleteDocumentChunks. constructor; simpl.
    + apply Forall_filter. exact Hc.
    + rewrite delete_embeddings_filter. apply Forall_filter. exact He.
    + apply keys_distinct_filter. exact Hnd.
    + rewrite delete_embeddings_filter. apply Forall_filter. exact Hv.
Qed.

Lemma reachable_consistent (db : Database scalar) :
  reachable db -> consistent db.
Proof.
  induction 1 as [dimension db Hopen | c db _ IH].
  - apply (open_consistent _ Hopen).
  - apply after_consistent. exact IH.
Qed.

Lemma after_dimension (c : call scalar) (db : Database scalar) :
  consistent db ->
  embeddingDimension (after c db) = embeddingDimension db.
Proof.
  intros [_ He _ _]. destruct c as [now meta | chunk embedding | docId];
    unfold after.
  - apply (upsertDocument_tables now meta db).
  - destruct (addChunk_cases chunk embedding db He)
      as [(_ & E) | [(_ & _ & E) | (_ & _ & E)]]; rewrite E; reflexivity.
  - reflexivity.
Qed.

(** The pairing survives every call whose vector has the declared
    length. *)
Lemma after_paired (c : call scalar) (db : Database scalar) :
  consistent db -> well_sized (embeddingDimension db) c ->
  paired db -> paired (after c db).
Proof.
  intros Hcons Hsized [Hkeys Hnd].
  pose proof (after_consistent c Hcons) as Hcons'.
  split; [|apply (chunk_ids_distinct Hcons')].
  destruct Hcons as [Hc He _ _].
  destruct c as [now meta | chunk embedding | docId]; unfold after.
  - destruct (upsertDocument_tables now meta db) as (E1 & _ & E3 & _).
    rewrite E1, E3. exact Hkeys.
  - destruct (addChunk_cases chunk embedding db He)
      as [(_ & E) | [(_ & Hlen & _) | (_ & _ & E)]].
    + rewrite E. exact Hkeys.
    + contradiction.
    + rewrite E. simpl. rewrite !map_app, Hkeys. reflexivity.
  - unfold deleteDocumentChunks. simpl.
    rewrite delete_embeddings_filter.
    rewrite <- (filter_map_swap (@e_chunk_id scalar)
                  (fun i => negb (mem i (map c_id (filter (of_document docId)
                                                          (chunks db)))))).
    rewrite Hkeys, filter_map_swap. f_equal.
    apply filter_ext_in. intros c Hin.
    rewrite (@chunk_ids_of_document docId (chunks db) c Hnd Hin). reflexivity.
Qed.

Lemma paired_counts (db : Database scalar) :
  paired db -> stat_chunks (getStats db) = stat_embeddings (getStats db).
Proof.
  intros [Hkeys _]. simpl. unfold len_list.
  rewrite <- (length_map (@e_chunk_id scalar)), Hkeys, length_map. reflexivity.
Qed.

Lemma after_all_paired (cs : list (call scalar)) (db : Database scalar) :
  consistent db -> paired db ->
  Forall (well_sized (embeddingDimension db)) cs ->
  paired (after_all cs db).
Proof.
  revert db. induction cs as [|c cs IH]; intros db Hcons Hp Hs; simpl.
  - exact Hp.
  - inversion Hs as [|? ? Hc Hcs]; subst.
    apply IH.
    + apply after_consistent. exact Hcons.
    + apply after_paired; assumption.
    + rewrite after_dimension by exact Hcons. exact Hcs.
Qed.

(** ** Looking a document up after [upsertDocument] *)

Lemma find_map_update {A : Type} (p : A -> bool) (upd : A -> A) (l : list A) (x : A) :
  (forall a, p (upd a) = p a) ->
  find p l = Some x -> find p (map upd l) = Some (upd x).
Proof.
  intros Hp. induction l as [|a l IH]; simpl; [discriminate|].
  rewrite Hp. destruct (p a); [|exact IH].
  intros E. injection E as <-. reflexivity.
Qed.

Lemma find_app_none {A : Type} (p : A -> bool) (l l' : list A) :
  find p l = None -> find p (l ++ l') = find p l'.
Proof.
  induction l as [|a l IH]; simpl; [reflexivity|].
  destruct (p a); [discriminate | exact IH].
Qed.

Lemma update_document_path now meta id d :
  d_file_path (update_document now meta id d) = d_file_path d.
Proof. unfold update_document. destruct (d_id d =? id)%Z; reflexivity. Qed.

Lemma document_at_upsert now meta (db : Database scalar) :
  exists row,
    document_at (filePath meta) (fst (upsertDocument now meta db)) = Some row
    /\ d_file_hash row = fileHash meta.
Proof.
  unfold upsertDocument.
  destruct (document_at (filePath meta) db) as [existing|] eqn:E;
    unfold document_at in *; simpl.
  - exists (update_document now meta (d_id existing) existing). split.
    + apply find_map_update; [|exact E].
      intros a. rewrite update_document_path. reflexivity.
    + unfold update_document. rewrite Z.eqb_refl. reflexivity.
  - exists (new_document now meta (documents_seq db + 1)). split.
    + rewrite find_app_none by exact E. simpl.
      rewrite jsstring_eqb_refl. reflexivity.
    + reflexivity.
Qed.

(** ** Deleting the chunks of a document *)


Lemma deleteDocumentChunks_twice (docId : Z) (db : Database scalar) :
  deleteDocumentChunks docId (deleteDocumentChunks docId db)
  = deleteDocumentChunks docId db.
Proof.
  set (rest := filter (fun c => negb (of_document docId c)) (chunks db)).
  assert (Hnone : filter (of_document docId) rest = []).
  { unfold rest. rewrite filter_filter.
    apply filter_none. intros c _. destruct (of_document docId c); reflexivity. }
  assert (Hsame : filter (fun c => negb (of_document docId c)) rest = rest).
  { unfold rest. rewrite filter_filter.
    apply filter_ext. intros c. destruct (of_document docId c); reflexivity. }
  unfold deleteDocumentChunks at 1. simpl. fold rest.
  rewrite Hnone, Hsame. reflexivity.
Qed.

(** ** The removal loop *)

Lemma deleteRemoved_fold (l : list DocumentWithId) (db : Database scalar) (n : Z) :
  fst (fold_left
         (fun st doc => (deleteDocumentChunks (id doc) (fst st), snd st + 1)%Z)
         l (db, n))
  = fold_left (fun db doc => deleteDocumentChunks (id doc) db) l db.
Proof.
  revert db n. induction l as [|d l IH]; intros db n; simpl; [reflexivity|].
  apply IH.
Qed.

Lemma delete_all_documents (l : list DocumentWithId) (db : Database scalar) :
  documents (fold_left (fun db doc => deleteDocumentChunks (id doc) db) l db)
  = documents db.
Proof.
  revert db. induction l as [|d l IH]; intros db; simpl; [reflexivity|].
  rewrite IH. reflexivity.
Qed.

Lemma delete_all_chunks (l : list DocumentWithId) (db : Database scalar) :
  chunks (fold_left (fun db doc => deleteDocumentChunks (id doc) db) l db)
  = filter (fun c => negb (mem (c_document_id c) (map id l))) (chunks db).
Proof.
  revert db. induction l as [|d l IH]; intros db; simpl.
  - symmetry. apply filter_all. reflexivity.
  - rewrite IH. unfold deleteDocumentChunks at 1. simpl.
    rewrite filter_filter. apply filter_ext. intros c.
    unfold of_document. rewrite negb_orb. reflexivity.
Qed.

Lemma reachable_after_all (cs : list (call scalar)) (db : Database scalar) :
  reachable db -> reachable (after_all cs db).
Proof.
  revert db. induction cs as [|c cs IH]; intros db H; simpl; [exact H|].
  apply IH. apply reachable_call. exact H.
Qed.

End Store.

End VectorDbFacts.

Module VectorDbSpec.
Import VectorDb Update VectorDbFacts.

(** The test [should return correct stats] of [vector-db.test.ts]. *)
Example stats_test :
  getStats (after_all stats_test_calls fresh4)
  = {| stat_documents := 2; stat_chunks := 3; stat_embeddings := 3 |}.
Proof. vm_compute. reflexivity. Qed.

(** A vector of three numbers for a store of dimension four: the call
    throws, and the chunk row written by the first statement stays. *)
Example short_vector_throws :
  snd (addChunk (test_chunk 1%Z "Chunk 1" 0%Z) [1; 0; 0]%Z one_document)
  = Threw Dimension_mismatch.
Proof. vm_compute. reflexivity. Qed.






(** The test [should detect when document needs update]. *)
Example needs_update_test :
  documentNeedsUpdate (js "test.md") (js "original") one_document = false
  /\ documentNeedsUpdate (js "test.md") (js "changed") one_document = true
  /\ documentNeedsUpdate (js "new.md") (js "any") one_document = true.
Proof. vm_compute. auto. Qed.







(** The test [should delete document chunks]. *)
Example delete_test :
  let db := after_all
              [ UpsertDocument 0%Z (test_document "test.md" "hash");
                AddChunk (test_chunk 1%Z "Chunk 1" 0%Z) [1; 0; 0; 0]%Z;
                AddChunk (test_chunk 1%Z "Chunk 2" 1%Z) [0; 1; 0; 0]%Z ] fresh4 in
  stat_chunks (getStats db) = 2%Z
  /\ stat_chunks (getStats (deleteDocumentChunks 1%Z db)) = 0%Z.
Proof. vm_compute. auto. Qed.



(** The removal loop when [a.md] is gone and [b.md] is still there:
    both documents stay, the two chunks of [a.md] go. *)
Example removal_test :
  getStats (fst (deleteRemoved [js "b.md"] (after_all stats_test_calls fresh4)))
  = {| stat_documents := 2; stat_chunks := 1; stat_embeddings := 1 |}
  /\ snd (deleteRemoved [js "b.md"] (after_all stats_test_calls fresh4)) = 1%Z.
Proof. vm_compute. auto. Qed.

(** C9.  [deleteDocumentChunks] is idempotent: on every store and for
    every document key, the store after two calls in a row is the
    store after one. *)
Theorem deleteDocumentChunks_idempotent (scalar : Type) (db : Database scalar)
    (docId : Z) :
  deleteDocumentChunks docId (deleteDocumentChunks docId db)
  = deleteDocumentChunks docId db.
Proof. apply deleteDocumentChunks_twice. Qed.

End VectorDbSpec.

Module TitleFacts.
Import Chunker.

(** ** [extractTitle] and the headings of [parseIntoSections]

    On a text whose only line terminator is the line feed and in which
    no line is a bare [#], the pattern of [extractTitle] finds the
    first line that [parseIntoSections] takes for a level-1 heading. *)

Lemma search_h1_true (s : jsstring) :
  search_h1 true s
  = match h1_at s with
    | Some g => Some g
    | None => search_h1 false s
    end.
Proof. destruct s; simpl; reflexivity. Qed.

Lemma only_LF_tail c s : only_LF (c :: s) -> only_LF s.
Proof. intros H. inversion H; assumption. Qed.

Lemma only_LF_head c s : only_LF (c :: s) -> isLineTerminator c = negb (not_LF c).
Proof.
  intros H. inversion H as [|? ? Hc _]; subst. unfold not_LF.
  destruct (c =? LF)%N eqn:E.
  - apply N.eqb_eq in E. subst. reflexivity.
  - destruct (isLineTerminator c) eqn:Ht; [|reflexivity].
    apply N.eqb_neq in E. elim E. apply Hc. reflexivity.
Qed.

(** After the first character of a line, the search goes on at the
    next line. *)
Lemma search_h1_skip (s : jsstring) :
  only_LF s ->
  search_h1 false s
  = match dropWhile not_LF s with
    | [] => None
    | _ :: rest => search_h1 true rest
    end.
Proof.
  induction s as [|c t IH]; intros H; [reflexivity|].
  simpl. rewrite (only_LF_head H).
  destruct (not_LF c); simpl; [|reflexivity].
  apply IH. apply (only_LF_tail H).
Qed.

Lemma split_on_line (s : jsstring) :
  split_on LF s
  = takeWhile not_LF s ::
    match dropWhile not_LF s with
    | [] => []
    | _ :: rest => split_on LF rest
    end.
Proof.
  induction s as [|c t IH]; [reflexivity|].
  simpl. unfold not_LF at 1 3. destruct (c =? LF)%N; simpl.
  - reflexivity.
  - rewrite IH. reflexivity.
Qed.

Lemma takeWhile_line (s : jsstring) :
  only_LF s ->
  takeWhile (fun c => negb (isLineTerminator c)) s = takeWhile not_LF s.
Proof.
  induction s as [|c t IH]; intros H; [reflexivity|].
  simpl. rewrite (only_LF_head H), negb_involutive.
  destruct (not_LF c); [|reflexivity].
  rewrite IH by apply (only_LF_tail H). reflexivity.
Qed.

Lemma line_has_no_terminator (s : jsstring) :
  only_LF s ->
  forallb (fun c => negb (isLineTerminator c)) (takeWhile not_LF s) = true.
Proof.
  induction s as [|c t IH]; intros H; [reflexivity|].
  simpl. destruct (not_LF c) eqn:E; [|reflexivity].
  simpl. rewrite (only_LF_head H), E. simpl.
  apply IH. apply (only_LF_tail H).
Qed.

(** [(.+)$] on the rest of the text, under [m], and on the rest of the
    line, without [m]. *)
Lemma dot_plus_line (s : jsstring) :
  only_LF s -> dot_plus_eol s = dot_plus_end (takeWhile not_LF s).
Proof.
  intros H. unfold dot_plus_eol, dot_plus_end.
  rewrite (takeWhile_line H).
  pose proof (line_has_no_terminator H) as Hl.
  destruct (takeWhile not_LF s); [reflexivity|].
  rewrite Hl. reflexivity.
Qed.

(** [\s+(.+)$] on the rest of the text and on the rest of the line,
    when the line has a character that is not white space. *)
Lemma ws_plus_line (s : jsstring) :
  only_LF s ->
  forallb isSpace (takeWhile not_LF s) = false ->
  ws_plus dot_plus_eol s = ws_plus dot_plus_end (takeWhile not_LF s).
Proof.
  induction s as [|c t IH]; intros H Hline; [discriminate Hline|].
  cbn [takeWhile] in *. destruct (not_LF c) eqn:E; [|discriminate Hline].
  cbn [forallb ws_plus] in *.
  destruct (isSpace c) eqn:Hc; [|reflexivity].
  rewrite (IH (only_LF_tail H) Hline).
  rewrite (dot_plus_line (only_LF_tail H)). reflexivity.
Qed.

(** The heading pattern on a line that starts with a [#]: a second
    [#] makes the level two or more; otherwise group 1 is the single
    [#] and the rest of the pattern reads the rest of the line. *)
Lemma level1_heading_hash (r : jsstring) :
  level1_heading (hash_sign :: r)
  = match r with
    | d :: _ => if is_hash d then None else ws_plus dot_plus_end r
    | [] => None
    end.
Proof.
  unfold level1_heading, headingMatch.
  destruct r as [|d r']; [reflexivity|].
  cbn [takeWhile dropWhile].
  change (is_hash hash_sign) with true. cbv iota.
  destruct (is_hash d) eqn:Ed.
  - cbn [takeWhile length].
    destruct ((1 <=? _)%nat && _); [|reflexivity].
    destruct (ws_plus dot_plus_end _); reflexivity.
  - cbn [length Nat.leb andb].
    destruct (ws_plus dot_plus_end (d :: r')); reflexivity.
Qed.

Lemma level1_heading_other (c : code_unit) (r : jsstring) :
  is_hash c = false -> level1_heading (c :: r) = None.
Proof.
  intros Hc. unfold level1_heading, headingMatch.
  cbn [takeWhile]. rewrite Hc. reflexivity.
Qed.

(** One line: the attempt of [extractTitle] at its start and the
    heading pattern of [parseIntoSections] on it. *)
Lemma h1_at_line (s : jsstring) :
  only_LF s ->
  bare_hash (takeWhile not_LF s) = false ->
  h1_at s = level1_heading (takeWhile not_LF s).
Proof.
  intros H Hbare. destruct s as [|c t]; [reflexivity|].
  unfold h1_at. cbn [takeWhile] in *.
  destruct (not_LF c) eqn:Enl.
  - fold (is_hash c). destruct (is_hash c) eqn:Eh.
    + assert (c = hash_sign) by (apply N.eqb_eq; exact Eh). subst c.
      rewrite level1_heading_hash.
      cbn [bare_hash] in Hbare. rewrite N.eqb_refl in Hbare.
      cbn [andb] in Hbare.
      destruct t as [|d t']; [discriminate Hbare|].
      cbn [takeWhile] in *.
      destruct (not_LF d) eqn:End; [|discriminate Hbare].
      destruct (is_hash d) eqn:Ehd.
      * assert (d = hash_sign) by (apply N.eqb_eq; exact Ehd). subst d.
        reflexivity.
      * rewrite (@ws_plus_line (d :: t') (only_LF_tail H)).
        -- cbn [takeWhile]. rewrite End. reflexivity.
        -- cbn [takeWhile]. rewrite End. exact Hbare.
    + rewrite level1_heading_other by exact Eh. reflexivity.
  - unfold not_LF in Enl. apply negb_false_iff, N.eqb_eq in Enl. subst c.
    reflexivity.
Qed.

Lemma search_h1_lines (n : nat) (s : jsstring) :
  (length s <= n)%nat ->
  only_LF s ->
  Forall (fun line => bare_hash line = false) (split_on LF s) ->
  search_h1 true s = first_level1_heading (split_on LF s).
Proof.
  revert s. induction n as [|n IH]; intros s Hlen H Hlines.
  - destruct s; [reflexivity | simpl in Hlen; lia].
  - rewrite search_h1_true, (search_h1_skip H).
    rewrite split_on_line in *. simpl.
    inversion Hlines as [|? ? Hline Hrest]; subst.
    rewrite (h1_at_line H Hline).
    destruct (level1_heading (takeWhile not_LF s)); [reflexivity|].
    assert (Hsuffix : forall rest c, dropWhile not_LF s = c :: rest ->
                      (length rest < length s)%nat /\ only_LF rest).
    { clear -H. induction s as [|a s IHs]; intros rest c E; [discriminate E|].
      simpl in E. destruct (not_LF a).
      - destruct (IHs (only_LF_tail H) rest c E) as [Hl Ho].
        split; [simpl; lia | exact Ho].
      - injection E as _ <-. split; [simpl; lia | apply (only_LF_tail H)]. }
    destruct (dropWhile not_LF s) as [|c rest] eqn:E; [reflexivity|].
    destruct (Hsuffix rest c eq_refl) as [Hl Ho].
    apply IH; [lia | exact Ho | exact Hrest].
Qed.

(** Outside the two cases that the pattern of [extractTitle] treats in
    its own way (a line break that is not a line feed, and a [#] that
    has only white space after it on its line), the title is the one
    the specification states. *)
Theorem extractTitle_agrees (content fallbackFilename : jsstring) :
  only_LF content ->
  Forall (fun line => bare_hash line = false) (split_on LF content) ->
  extractTitle content fallbackFilename
  = title_as_stated content fallbackFilename.
Proof.
  intros H Hlines. unfold extractTitle, title_as_stated.
  rewrite (@search_h1_lines (length content) content (le_n _) H Hlines).
  reflexivity.
Qed.

Lemma only_LF_check (s : jsstring) :
  forallb (fun c => negb (isLineTerminator c) || (c =? LF)%N) s = true ->
  only_LF s.
Proof.
  intros H. apply Forall_forall. intros c Hc Ht.
  rewrite forallb_forall in H. specialize (H c Hc).
  rewrite Ht in H. apply N.eqb_eq. exact H.
Qed.

(** The theorem at a text whose second line is the heading. *)
Lemma extractTitle_agrees_witness :
  extractTitle (js "intro" ++ nl ++ js "# Title" ++ nl ++ js "...") (js "x.mdx")
  = title_as_stated (js "intro" ++ nl ++ js "# Title" ++ nl ++ js "...") (js "x.mdx").
Proof.
  apply extractTitle_agrees.
  - apply only_LF_check. reflexivity.
  - vm_compute. repeat constructor.
Defined.

End TitleFacts.

Module TitleSpec.
Import Chunker.

(** The two scenarios of the specification. *)
Example title_scenario_fallback :
  extractTitle (js "Just text") (js "my-docs.md") = js "my-docs".
Proof. reflexivity. Qed.

Example title_scenario_heading :
  extractTitle (js "# Title" ++ nl ++ js "...") (js "x.mdx") = js "Title".
Proof. reflexivity. Qed.

Example title_as_stated_heading :
  title_as_stated (js "# Title" ++ nl ++ js "...") (js "x.mdx") = js "Title".
Proof. reflexivity. Qed.

(** C8, at the input the code gets wrong.  In [bare_hash_document] no
    line is a heading, so the title is to be the file name without its
    extension, ["notes"]; [extractTitle] gives ["Intro text"], the
    paragraph under the bare [#], because [\s+] in its pattern runs
    over the line breaks. *)
Theorem extractTitle_bare_hash :
  Forall (fun line => headingMatch line = None) (split_on LF bare_hash_document)
  /\ title_as_stated bare_hash_document (js "notes.md") = js "notes"
  /\ extractTitle bare_hash_document (js "notes.md") = js "Intro text".
Proof.
  split; [|split].
  - vm_compute. repeat constructor.
  - vm_compute. reflexivity.
  - vm_compute. reflexivity.
Qed.

End TitleSpec.

Module McpServerSpec.
Import NodePath McpServer.

(** The scenario of the specification: [read_file("../../etc/passwd")]
    against the root [/docs] is refused. *)
Example passwd_refused :
  handleReadFile (js "/srv") (js "/docs") sibling_fs (js "../../etc/passwd")
  = access_denied.
Proof. vm_compute. reflexivity. Qed.

Example guide_served :
  handleReadFile (js "/srv") (js "/docs") sibling_fs (js "guide.md")
  = {| text := js "# guide.md" ++ nlnl ++ js "guide"; isError := false |}.
Proof. vm_compute. reflexivity. Qed.

(** The check of the source is a comparison of strings: a path that
    does not begin with the characters of the root is refused. *)
Lemma not_prefixed_refused (cwd docsPath : jsstring) (fs : filesystem)
    (file_path : jsstring) :
  startsWith (resolve cwd (join docsPath file_path)) (resolve cwd docsPath) = false ->
  handleReadFile cwd docsPath fs file_path = access_denied.
Proof.
  intros H. unfold handleReadFile. rewrite H. reflexivity.
Qed.

(** C3, at the input the code gets wrong.  Against the root [/docs],
    [read_file("../docs-private/secret.md")] resolves to
    [/docs-private/secret.md], which is outside [/docs] but begins
    with the characters [/docs]: the guard lets it through and the
    text of the file is returned. *)
Theorem read_file_serves_sibling :
  resolve (js "/srv") (join (js "/docs") (js "../docs-private/secret.md"))
  = js "/docs-private/secret.md"
  /\ within (resolve (js "/srv") (js "/docs")) (js "/docs-private/secret.md") = false
  /\ handleReadFile (js "/srv") (js "/docs") sibling_fs
       (js "../docs-private/secret.md")
     = {| text := js "# ../docs-private/secret.md" ++ nlnl ++ js "secret";
          isError := false |}
  /\ ~ traversal_refused (js "/srv") (js "/docs") sibling_fs
         (js "../docs-private/secret.md").
Proof.
  split; [|split; [|split]].
  - vm_compute. reflexivity.
  - vm_compute. reflexivity.
  - vm_compute. reflexivity.
  - intros H. assert (E : within (resolve (js "/srv") (js "/docs"))
                      (resolve (js "/srv")
                         (join (js "/docs") (js "../docs-private/secret.md")))
                    = false) by (vm_compute; reflexivity).
    specialize (H E). vm_compute in H. discriminate H.
Qed.

End McpServerSpec.

Module ChunkerTests.
Import Chunker.

(** The cases of [chunker.test.ts] for [extractTitle]. *)
Example extractTitle_h1 :
  extractTitle (js "# My Documentation" ++ nlnl ++ js "Some content here")
               (js "fallback.md") = js "My Documentation".
Proof. reflexivity. Qed.

Example extractTitle_fallback :
  extractTitle (js "Just some content without heading") (js "my-docs.md")
  = js "my-docs".
Proof. reflexivity. Qed.

Example extractTitle_mdx :
  extractTitle (js "No heading") (js "component.mdx") = js "component".
Proof. reflexivity. Qed.

(** The cases for [stripMdxComponents]. *)
Example strip_import :
  stripMdxComponents (js "import { Button } from './components';" ++ nlnl
                      ++ js "# Hello")
  = js "# Hello".
Proof. vm_compute. reflexivity. Qed.

Example strip_self_closing :
  stripMdxComponents (js "# Hello" ++ nlnl ++ js "<MyComponent prop=1 />"
                      ++ nlnl ++ js "More text")
  = js "# Hello" ++ nlnl ++ js "More text".
Proof. vm_compute. reflexivity. Qed.

Example strip_block :
  stripMdxComponents (js "# Hello" ++ nlnl ++ js "<Card>" ++ nl
                      ++ js "  Some content" ++ nl ++ js "</Card>"
                      ++ nlnl ++ js "More text")
  = js "# Hello" ++ nlnl ++ js "More text".
Proof. vm_compute. reflexivity. Qed.

Example strip_keeps_markdown :
  let md := js "# Hello" ++ nlnl ++ js "This is **bold** and *italic*."
            ++ nlnl ++ js "- List item" in
  stripMdxComponents md = md.
Proof. vm_compute. reflexivity. Qed.

(** The scenario of the specification for [chunkMarkdown]: two
    sections, two chunks, the second under the heading [Install]. *)
Example chunk_scenario :
  map (fun ch => (content ch, index ch, lineStart ch, lineEnd ch, heading ch))
      (chunkMarkdown (js "# Getting Started" ++ nlnl ++ js "Intro." ++ nlnl
                      ++ js "## Install" ++ nlnl ++ js "Run install.")
                     no_options)
  = [ (js "# Getting Started" ++ nlnl ++ js "Intro.", 0%Z, 1%Z, 4%Z,
       Some (js "Getting Started"));
      (js "## Install" ++ nlnl ++ js "Run install.", 1%Z, 5%Z, 7%Z,
       Some (js "Install")) ].
Proof. vm_compute. reflexivity. Qed.

Example chunk_empty : chunkMarkdown [] no_options = [].
Proof. vm_compute. reflexivity. Qed.

Example chunk_strips_mdx :
  map content
      (chunkMarkdown (js "import X from 'y';" ++ nlnl ++ js "# Title" ++ nlnl
                      ++ js "<Component />" ++ nlnl ++ js "Real content here")
                     no_options)
  = [ js "# Title" ++ nlnl ++ js "Real content here" ].
Proof. vm_compute. reflexivity. Qed.

(** The flat path on the two paragraphs of [two_paragraphs], as
    lines. *)
Example chunk_flat :
  map content
      (chunkMarkdown (js "aaaaaaaa" ++ nl ++ js "bbbbbbbb")
         {| p_maxChunkSize := Some 10%Z; p_chunkOverlap := Some 4%Z;
            p_respectHeadings := Some false |})
  = [ js "aaaaaaaa"; js "aaaa" ++ nl ++ js "bbbbbbbb" ].
Proof. vm_compute. reflexivity. Qed.

End ChunkerTests.

(* ================================================================== *)
(** * More of the chunker *)
(* ================================================================== *)

Unset Implicit Arguments.

Module ChunkerMore.
Import Chunker ChunkShape JsStringFacts ChunkerFacts.

(** ** White space *)

Lemma dropWhile_all (p : code_unit -> bool) (s : jsstring) :
  forallb p s = true -> dropWhile p s = [].
Proof.
  induction s as [|c t IH]; simpl; [reflexivity|].
  destruct (p c); [exact IH | discriminate].
Qed.

Lemma trim_blank (s : jsstring) : forallb isSpace s = true -> trim s = [].
Proof.
  intros H. unfold trim, trimEnd, trimStart.
  rewrite (dropWhile_all _ _ H). reflexivity.
Qed.

Lemma existsb_nonspace_rev (s : jsstring) :
  existsb nonspace (rev s) = existsb nonspace s.
Proof.
  induction s as [|c t IH]; [reflexivity|].
  simpl. rewrite existsb_app, IH. simpl.
  rewrite orb_false_r. apply orb_comm.
Qed.

Lemma dropWhile_nonspace (s : jsstring) :
  existsb nonspace s = true ->
  existsb nonspace (dropWhile isSpace s) = true.
Proof.
  induction s as [|c t IH]; simpl; [discriminate|].
  unfold nonspace at 1. destruct (isSpace c) eqn:E; simpl.
  - exact IH.
  - intros _. unfold nonspace. rewrite E. reflexivity.
Qed.

(** [s.trim()] is not empty when [s] has a character that is not white
    space. *)
Lemma trim_truthy (s : jsstring) :
  existsb nonspace s = true -> truthy (trim s) = true.
Proof.
  intros H. unfold trim, trimEnd, trimStart.
  assert (H' : existsb nonspace
                 (rev (dropWhile isSpace (rev (dropWhile isSpace s)))) = true).
  { rewrite existsb_nonspace_rev. apply dropWhile_nonspace.
    rewrite existsb_nonspace_rev. apply dropWhile_nonspace. exact H. }
  destruct (rev _); [discriminate H' | reflexivity].
Qed.

(** What a global replacement writes is made of characters of the text
    and of the replacement. *)
Lemma replace_all_aux_forall (P : code_unit -> bool) (m : matcher)
    (rep : jsstring) (s : jsstring) :
  forallb P rep = true ->
  forall prev skip, forallb P s = true ->
  forallb P (replace_all_aux m rep prev skip s) = true.
Proof.
  intros Hrep. induction s as [|c t IH]; intros prev skip Hs; [reflexivity|].
  simpl in Hs. apply andb_true_iff in Hs. destruct Hs as [Hc Ht].
  simpl. destruct skip as [|k]; [|apply IH; exact Ht].
  destruct (m prev (c :: t)) as [[|n]|].
  - simpl. rewrite Hc. apply IH. exact Ht.
  - rewrite forallb_app, Hrep. apply IH. exact Ht.
  - simpl. rewrite Hc. apply IH. exact Ht.
Qed.

Lemma stripMdxComponents_blank (content : jsstring) :
  forallb isSpace content = true -> stripMdxComponents content = [].
Proof.
  intros H. unfold stripMdxComponents, replace_all. apply trim_blank.
  repeat (apply replace_all_aux_forall; [reflexivity|]). exact H.
Qed.

Lemma chunkClean_nil (opts : ChunkingOptions) : chunkClean [] opts = [].
Proof.
  unfold chunkClean. destruct (respectHeadings opts); [reflexivity|].
  unfold flatChunks. simpl. unfold flatStep. simpl.
  rewrite andb_false_r. reflexivity.
Qed.

(** X1.  A markdown input made of white space only, the empty input
    among them, gives no chunk, whatever the options. *)
Theorem chunkMarkdown_blank (content : jsstring) (options : PartialOptions) :
  forallb isSpace content = true -> chunkMarkdown content options = [].
Proof.
  intros H. unfold chunkMarkdown, chunkMarkdownWith.
  rewrite (stripMdxComponents_blank content H). apply chunkClean_nil.
Qed.

(** The theorem at three blank lines behind a tab. *)
Lemma chunkMarkdown_blank_witness :
  chunkMarkdown ([9%N; 32%N] ++ nlnl ++ nl) no_options = [].
Proof. apply chunkMarkdown_blank. reflexivity. Defined.

(** ** Indices *)

Lemma indices_snoc (n : nat) : indices (S n) = indices n ++ [Z.of_nat n].
Proof. unfold indices. rewrite seq_S, map_app. reflexivity. Qed.

Lemma numbered_snoc (cs : list Chunk) (next : Z) (c : Chunk) :
  numbered cs next -> index c = next -> numbered (cs ++ [c]) (next + 1).
Proof.
  intros [Hmap Hnext] Hc. split.
  - rewrite map_app, length_app, Hmap. simpl.
    rewrite Nat.add_1_r, indices_snoc, Hc, Hnext. reflexivity.
  - rewrite length_app. simpl. lia.
Qed.

Lemma flatChunks_numbered clean M c :
  map index (flatChunks clean M c) = indices (length (flatChunks clean M c)).
Proof.
  unfold flatChunks.
  match goal with |- context [fold_left ?f ?l ?a] =>
    assert (H : numbered (chunks (fold_left f l a)) (chunkIndex (fold_left f l a)))
  end.
  { apply (fold_left_inv (fun st => numbered (chunks st) (chunkIndex st))).
    - intros st line _ Hst. unfold flatStep.
      destruct (_ && _); cbn [chunks chunkIndex]; [|exact Hst].
      apply numbered_snoc; [exact Hst | reflexivity].
    - split; reflexivity. }
  destruct (truthy _); [|apply H].
  match goal with |- map index (_ ++ [?last]) = _ =>
    apply (proj1 (@numbered_snoc _ _ last H eq_refl))
  end.
Qed.

Lemma pushSection_numbered M c acc sec :
  numbered (fst acc) (snd acc) ->
  numbered (fst (pushSection M c acc sec)) (snd (pushSection M c acc sec)).
Proof.
  unfold pushSection. generalize (splitSection sec M c) as l.
  intros l. revert acc. induction l as [|ch l IH]; intros acc H; simpl.
  - exact H.
  - apply IH. simpl. apply numbered_snoc; [exact H | reflexivity].
Qed.

(** X2.  The chunks of [chunkMarkdown] carry the indices 0, 1, 2, ...
    in the order in which they are returned, over the whole document
    and on both paths. *)
Theorem chunkMarkdown_indices (content : jsstring) (options : PartialOptions) :
  map index (chunkMarkdown content options)
  = indices (length (chunkMarkdown content options)).
Proof.
  unfold chunkMarkdown, chunkMarkdownWith, chunkClean.
  destruct (respectHeadings (merge_options options)).
  - match goal with |- context [fold_left ?f ?l ?a] =>
      assert (H : numbered (fst (fold_left f l a)) (snd (fold_left f l a)))
    end.
    { apply (fold_left_inv (fun acc => numbered (fst acc) (snd acc))).
      - intros acc sec _. apply pushSection_numbered.
      - split; reflexivity. }
    apply H.
  - apply flatChunks_numbered.
Qed.

(** ** The title *)

Lemma takeWhile_line_end (text tail : jsstring) :
  forallb not_lt_term text = true ->
  match tail with
  | [] => True
  | c :: _ => isLineTerminator c = true
  end ->
  takeWhile (fun c => negb (isLineTerminator c)) (text ++ tail) = text.
Proof.
  intros Htext Htail. induction text as [|c t IH]; simpl.
  - destruct tail as [|d tail]; [reflexivity|]. simpl. rewrite Htail. reflexivity.
  - simpl in Htext. apply andb_true_iff in Htext. destruct Htext as [Hc Ht].
    unfold not_lt_term in Hc. rewrite Hc, (IH Ht). reflexivity.
Qed.

(** [\s+(.+)$] on a line that has text: the white space is all the
    white space in front of the text, and group 1 is the text up to the
    end of the line. *)
Lemma ws_plus_text (sp : code_unit) (text tail : jsstring) :
  isSpace sp = true ->
  forallb not_lt_term text = true ->
  existsb nonspace text = true ->
  match tail with
  | [] => True
  | c :: _ => isLineTerminator c = true
  end ->
  ws_plus dot_plus_eol (sp :: text ++ tail) = Some (dropWhile isSpace text).
Proof.
  intros Hsp Htext Hsome Htail. revert sp Hsp.
  induction text as [|c t IH]; intros sp Hsp; [discriminate Hsome|].
  cbn [ws_plus]. rewrite Hsp.
  simpl in Htext. apply andb_true_iff in Htext. destruct Htext as [Hc Ht].
  change ((c :: t) ++ tail) with (c :: t ++ tail).
  destruct (isSpace c) eqn:Ec.
  - simpl in Hsome. unfold nonspace at 1 in Hsome. rewrite Ec in Hsome.
    simpl in Hsome. rewrite (IH Ht Hsome c Ec). simpl. rewrite Ec. reflexivity.
  - cbn [ws_plus]. rewrite Ec. unfold dot_plus_eol.
    change (c :: t ++ tail) with ((c :: t) ++ tail).
    rewrite takeWhile_line_end; [|simpl; rewrite Hc, Ht; reflexivity | exact Htail].
    simpl. rewrite Ec. reflexivity.
Qed.

Lemma trim_dropWhile (s : jsstring) : trim (dropWhile isSpace s) = trim s.
Proof. unfold trim, trimStart. rewrite dropWhile_idem. reflexivity. Qed.

(** X3.  When the content starts with a level-1 heading, a [#], a
    space and a text that has a character other than white space,
    alone on the first line, [extractTitle] returns that text,
    trimmed, whatever follows and whatever the file name. *)
Theorem extractTitle_first_line (text tail fallbackFilename : jsstring) :
  forallb not_lt_term text = true ->
  existsb nonspace text = true ->
  match tail with
  | [] => True
  | c :: _ => isLineTerminator c = true
  end ->
  extractTitle (js "# " ++ text ++ tail) fallbackFilename = trim text.
Proof.
  intros Htext Hsome Htail. unfold extractTitle.
  change (js "# " ++ text ++ tail) with (hash_sign :: 32%N :: text ++ tail).
  rewrite TitleFacts.search_h1_true. unfold h1_at. rewrite N.eqb_refl.
  match goal with |- context [ws_plus dot_plus_eol ?x] =>
    replace (ws_plus dot_plus_eol x) with (Some (dropWhile isSpace text))
      by (symmetry; exact (@ws_plus_text 32%N text tail eq_refl Htext Hsome Htail))
  end.
  apply trim_dropWhile.
Qed.

(** The theorem at the heading of the scenario. *)
Lemma extractTitle_first_line_witness :
  extractTitle (js "# " ++ js " My Title " ++ (nl ++ js "body")) (js "x.mdx")
  = trim (js " My Title ").
Proof.
  apply extractTitle_first_line; [reflexivity | reflexivity | reflexivity].
Defined.

Lemma search_h1_no_hash (bol : bool) (s : jsstring) :
  ~ In hash_sign s -> search_h1 bol s = None.
Proof.
  revert bol. induction s as [|c t IH]; intros bol H.
  - destruct bol; reflexivity.
  - assert (Hc : (c =? hash_sign)%N = false).
    { apply N.eqb_neq. intros E. apply H. left. exact E. }
    assert (Ht : ~ In hash_sign t) by (intros Hin; apply H; right; exact Hin).
    destruct bol; cbn [search_h1 h1_at]; rewrite ?Hc; apply IH; exact Ht.
Qed.

Lemma eq_ci_not_dot (a b : code_unit) :
  isLower a = true -> eq_ci a b = true -> b <> dot_sign.
Proof.
  intros Ha H E. unfold eq_ci in H. rewrite Ha in H. cbn [andb] in H.
  unfold isLower in Ha. apply andb_true_iff in Ha. destruct Ha as [Ha _].
  apply N.leb_le in Ha. unfold dot_sign in E.
  apply orb_true_iff in H. destruct H as [H | H]; apply N.eqb_eq in H; lia.
Qed.

Lemma match_ci_no_dot (pat s : jsstring) :
  forallb isLower pat = true -> match_ci pat s = true -> ~ In dot_sign s.
Proof.
  revert s. induction pat as [|a pat IH]; intros s Hpat H.
  - destruct s; [intros [] | discriminate H].
  - destruct s as [|b s]; [discriminate H|].
    simpl in Hpat, H.
    apply andb_true_iff in Hpat. destruct Hpat as [Ha Hpat].
    apply andb_true_iff in H. destruct H as [Hb H].
    intros [E | Hin].
    + exact (@eq_ci_not_dot a b Ha Hb E).
    + apply (IH s Hpat H Hin).
Qed.

Lemma strip_md_extension_added (name ext : jsstring) :
  match_ci (js "md") ext || match_ci (js "mdx") ext = true ->
  strip_md_extension (name ++ dot_sign :: ext) = name.
Proof.
  intros Hext. induction name as [|c t IH]; cbn [app strip_md_extension].
  - rewrite N.eqb_refl, Hext. reflexivity.
  - rewrite IH. destruct (c =? dot_sign)%N; [|reflexivity].
    assert (Hno : forall pat, forallb isLower pat = true ->
                   match_ci pat (t ++ dot_sign :: ext) = false).
    { intros pat Hpat. destruct (match_ci pat _) eqn:E; [|reflexivity].
      elim (@match_ci_no_dot pat _ Hpat E). apply in_or_app. right. left. reflexivity. }
    rewrite (Hno (js "md") eq_refl), (Hno (js "mdx") eq_refl). reflexivity.
Qed.

(** X4.  When the content has no [#] at all, [extractTitle] falls back
    to the file name, and a file name made of a stem, a dot and [md] or
    [mdx] in any letter case gives the stem back, whatever dots the
    stem has. *)
Theorem extractTitle_fallback_stem (content name ext : jsstring) :
  ~ In hash_sign content ->
  match_ci (js "md") ext || match_ci (js "mdx") ext = true ->
  extractTitle content (name ++ dot_sign :: ext) = name.
Proof.
  intros Hcontent Hext. unfold extractTitle.
  rewrite (@search_h1_no_hash true content Hcontent).
  apply strip_md_extension_added. exact Hext.
Qed.

(** The theorem at a file name with two dots and an extension in upper
    case. *)
Lemma extractTitle_fallback_stem_witness :
  extractTitle (js "Just text") (js "notes.v2" ++ dot_sign :: js "MDX")
  = js "notes.v2".
Proof.
  apply extractTitle_fallback_stem.
  - vm_compute. intuition discriminate.
  - reflexivity.
Defined.

(** ** Sections *)

Lemma split_on_nonempty (sep : code_unit) (s : jsstring) : split_on sep s <> [].
Proof.
  destruct s as [|c t]; simpl; [discriminate|].
  destruct (c =? sep)%N; [discriminate|].
  destruct (split_on sep t); discriminate.
Qed.

(** The lines, each with its line feed, are the text and a line
    feed. *)
Lemma lines_concat (s : jsstring) :
  concat (map (fun l => l ++ nl) (split_on LF s)) = s ++ nl.
Proof.
  induction s as [|c t IH]; [reflexivity|].
  simpl. destruct (c =? LF)%N eqn:E.
  - apply N.eqb_eq in E. subst c. simpl. rewrite IH. reflexivity.
  - pose proof (split_on_nonempty LF t) as Hne.
    destruct (split_on LF t) as [|l ls]; [contradiction|].
    simpl in *. rewrite IH. reflexivity.
Qed.

Lemma existsb_nonspace_app (a b : jsstring) :
  existsb nonspace a = true \/ existsb nonspace b = true ->
  existsb nonspace (a ++ b) = true.
Proof. intros H. rewrite existsb_app. apply orb_true_iff. exact H. Qed.

Lemma truthy_trim_nonspace (s : jsstring) :
  truthy (trim s) = true -> existsb nonspace s = true.
Proof.
  intros H. destruct (existsb nonspace s) eqn:E; [reflexivity|].
  assert (Hall : forallb isSpace s = true).
  { apply forallb_forall. intros c Hc.
    destruct (isSpace c) eqn:Ec; [reflexivity|].
    assert (existsb nonspace s = true); [|congruence].
    apply existsb_exists. exists c. split; [exact Hc|].
    unfold nonspace. rewrite Ec. reflexivity. }
  rewrite (trim_blank s Hall) in H. discriminate H.
Qed.

Lemma heading_line_nonspace (line : jsstring) (m : nat * jsstring) :
  headingMatch line = Some m -> existsb nonspace line = true.
Proof.
  unfold headingMatch. destruct line as [|c t]; [discriminate|].
  simpl. destruct (is_hash c) eqn:E; [|discriminate].
  intros _. unfold is_hash in E. apply N.eqb_eq in E. subst c. reflexivity.
Qed.

Lemma parseLine_parsed (done line : jsstring) (st : ParseState) :
  parsed done st ->
  done <> [] \/ existsb nonspace line = true ->
  parsed (done ++ line ++ nl) (parseLine st line).
Proof.
  intros [Hcat Hcur] Hline. unfold parseLine.
  destruct (headingMatch line) as [[level text]|] eqn:Eh.
  - split; cbn [sections currentSection s_content].
    + destruct (truthy (trim (s_content (currentSection st)))) eqn:Et.
      * rewrite map_app, concat_app. simpl. rewrite app_nil_r, <- app_assoc.
        rewrite app_assoc, Hcat. reflexivity.
      * destruct done as [|d done].
        -- apply app_eq_nil in Hcat. destruct Hcat as [-> _]. reflexivity.
        -- assert (Hns : existsb nonspace (s_content (currentSection st)) = true)
             by (apply Hcur; discriminate).
           rewrite (trim_truthy _ Hns) in Et. discriminate Et.
    + intros _. apply existsb_nonspace_app. left.
      apply (heading_line_nonspace _ _ Eh).
  - split; cbn [sections currentSection s_content with_content].
    + rewrite app_assoc, Hcat. reflexivity.
    + intros _. apply existsb_nonspace_app.
      destruct done as [|d done].
      * right. apply existsb_nonspace_app. left.
        destruct Hline as [Hd | Hl]; [elim Hd; reflexivity | exact Hl].
      * left. apply Hcur. discriminate.
Qed.

Lemma parse_lines_parsed (lines : list jsstring) (done : jsstring)
    (st : ParseState) :
  parsed done st ->
  done <> [] \/ match lines with
                | [] => True
                | l :: _ => existsb nonspace l = true
                end ->
  parsed (done ++ concat (map (fun l => l ++ nl) lines))
         (fold_left parseLine lines st).
Proof.
  revert done st. induction lines as [|l ls IH]; intros done st Hst Hfirst.
  - simpl. rewrite app_nil_r. exact Hst.
  - cbn [fold_left map concat]. rewrite (app_assoc done (l ++ nl)).
    apply IH.
    + apply parseLine_parsed; [exact Hst | exact Hfirst].
    + left. destruct done; [destruct l|]; discriminate.
Qed.

Lemma with_lineEnd_content (sec : Section_) (e : Z) :
  s_content (with_lineEnd sec e) = s_content sec.
Proof. reflexivity. Qed.

Lemma first_line_nonspace (s : jsstring) :
  s <> [] -> clean_head s ->
  match split_on LF s with
  | [] => True
  | l :: _ => existsb nonspace l = true
  end.
Proof.
  destruct s as [|c t]; [intros H; elim H; reflexivity|].
  intros _ Hc. simpl in Hc. simpl.
  assert (E : (c =? LF)%N = false).
  { destruct (c =? LF)%N eqn:E; [|reflexivity].
    apply N.eqb_eq in E. subst c. discriminate Hc. }
  rewrite E. destruct (split_on LF t); simpl; unfold nonspace; rewrite Hc; reflexivity.
Qed.

Lemma trim_clean_head (s : jsstring) : clean_head (trim s).
Proof. apply trimEnd_clean_head, trimStart_clean_head. Qed.

(** X5.  The sections that [parseIntoSections] makes of the stripped
    text lose nothing: when the stripped text is not empty, the
    contents of the sections, one after the other, are the stripped
    text followed by one line feed. *)
Theorem sections_reassemble (content : jsstring) :
  stripMdxComponents content <> [] ->
  concat (map s_content (parseIntoSections (stripMdxComponents content)))
  = stripMdxComponents content ++ nl.
Proof.
  intros Hne.
  assert (Hhead : clean_head (stripMdxComponents content))
    by (unfold stripMdxComponents; apply trim_clean_head).
  generalize dependent (stripMdxComponents content). intros clean Hne Hhead.
  unfold parseIntoSections.
  match goal with |- context [fold_left parseLine ?l ?a] =>
    assert (H : parsed (clean ++ nl) (fold_left parseLine l a))
  end.
  { rewrite <- lines_concat.
    apply (@parse_lines_parsed (split_on LF clean) [] _).
    - split; [reflexivity | intros H; elim H; reflexivity].
    - right. apply first_line_nonspace; assumption. }
  destruct H as [Hcat Hcur].
  rewrite (trim_truthy _ (Hcur ltac:(destruct clean; discriminate))).
  rewrite map_app, concat_app. simpl. rewrite app_nil_r. exact Hcat.
Qed.

(** The theorem at the document of the scenario. *)
Lemma sections_reassemble_witness :
  concat (map s_content
            (parseIntoSections
               (stripMdxComponents (js "# A" ++ nlnl ++ js "x" ++ nlnl ++ js "## B"))))
  = stripMdxComponents (js "# A" ++ nlnl ++ js "x" ++ nlnl ++ js "## B") ++ nl.
Proof. apply sections_reassemble. vm_compute. discriminate. Defined.

(** ** The lines of the flat pass *)

Lemma consecutive_snoc (from to : Z) (cs : list Chunk) (c : Chunk) :
  consecutive from cs to -> lineStart c = (to + 1)%Z ->
  consecutive from (cs ++ [c]) (lineEnd c).
Proof.
  revert from. induction cs as [|a cs IH]; intros from H Hc; simpl in *.
  - split; [lia | reflexivity].
  - destruct H as [Ha H]. split; [exact Ha | apply IH; assumption].
Qed.

Lemma flatStep_lines (M c n : Z) (st : Buffer) (line : jsstring) :
  flat_lines n st -> flat_lines (n + 1) (flatStep M c st line).
Proof.
  intros (Hcons & Hle & Hcur & Hstart & Htruthy). unfold flatStep.
  destruct (len (currentChunk st) + len line + 1 >? M)%Z;
    destruct (truthy (currentChunk st)) eqn:Et;
    cbn [andb]; unfold flat_lines;
    cbn [chunks currentLine chunkStart currentChunk];
    repeat split; try assumption; try lia.
  - replace (currentLine st - 1)%Z
      with (lineEnd {| content := trim (currentChunk st); index := chunkIndex st;
                       lineStart := chunkStart st; lineEnd := currentLine st - 1;
                       heading := None |}) by reflexivity.
    eapply consecutive_snoc; [exact Hcons | simpl; lia].
  - apply Forall_snoc; [exact Hle|]. simpl. specialize (Htruthy eq_refl). lia.
Qed.

Lemma flat_lines_fold (M c : Z) (lines : list jsstring) (n : Z) (st : Buffer) :
  flat_lines n st ->
  flat_lines (n + len_list lines) (fold_left (flatStep M c) lines st).
Proof.
  revert n st. induction lines as [|l ls IH]; intros n st H.
  - simpl. unfold len_list. simpl. rewrite Z.add_0_r. exact H.
  - cbn [fold_left]. replace (n + len_list (l :: ls))%Z
      with ((n + 1) + len_list ls)%Z by (unfold len_list; simpl length; lia).
    apply IH. apply flatStep_lines. exact H.
Qed.

Lemma split_on_last (s : jsstring) (c : code_unit) :
  (c =? LF)%N = false ->
  exists init l, split_on LF (s ++ [c]) = init ++ [l ++ [c]].
Proof.
  intros Hc. induction s as [|a t IH]; simpl.
  - rewrite Hc. exists [], []. reflexivity.
  - destruct IH as (init & l & E). rewrite E.
    destruct (a =? LF)%N.
    + exists ([] :: init), l. reflexivity.
    + destruct init as [|i init]; simpl.
      * exists [], (a :: l). reflexivity.
      * exists ((a :: i) :: init), l. reflexivity.
Qed.

Lemma flatStep_buffer (M c : Z) (st : Buffer) (line : jsstring) :
  exists pre, currentChunk (flatStep M c st line) = pre ++ line.
Proof.
  unfold flatStep. destruct (_ && _); cbn [currentChunk].
  - exists (slice (- c) (currentChunk st) ++ nl). rewrite <- app_assoc. reflexivity.
  - exists (currentChunk st ++ (if truthy (currentChunk st) then nl else [])).
    rewrite <- app_assoc. reflexivity.
Qed.

(** A text that [trim] has produced and that is not empty ends with a
    character that is not white space. *)
Lemma trim_last (s : jsstring) :
  trim s <> [] ->
  exists t c, trim s = t ++ [c] /\ isSpace c = false.
Proof.
  unfold trim, trimEnd. intros Hne.
  pose proof (trimStart_clean_head (rev (trimStart s))) as Hhead.
  destruct (trimStart (rev (trimStart s))) as [|c r].
  - elim Hne. reflexivity.
  - exists (rev r), c. split; [reflexivity | exact Hhead].
Qed.

(** X6.  With [respectHeadings: false] and a stripped text that is not
    empty, the chunks cover the lines of the stripped text without a
    gap and without an overlap: the first chunk starts at line 1, each
    of the others starts on the line after the one before it ends, the
    last ends at the last line, and no chunk ends before it starts. *)
Theorem flat_chunks_cover_lines (content : jsstring) (M c : Z) :
  stripMdxComponents content <> [] ->
  let cs := chunkMarkdown content (flat_options M c) in
  consecutive 1 cs (len_list (split_on LF (stripMdxComponents content)))
  /\ Forall (fun ch => (lineStart ch <= lineEnd ch)%Z) cs.
Proof.
  intros Hne cs. subst cs.
  unfold chunkMarkdown, chunkMarkdownWith, chunkClean.
  cbn [merge_options flat_options or_default respectHeadings maxChunkSize
       chunkOverlap p_respectHeadings p_maxChunkSize p_chunkOverlap].
  unfold stripMdxComponents in *.
  match goal with |- context [flatChunks (trim ?x)] => set (raw := x) in * end.
  destruct (trim_last raw Hne) as (t & last & Eclean & Hlast).
  rewrite Eclean. unfold flatChunks.
  assert (Hlf : (last =? LF)%N = false).
  { destruct (last =? LF)%N eqn:E; [|reflexivity].
    apply N.eqb_eq in E. subst last. discriminate Hlast. }
  destruct (split_on_last t last Hlf) as (init & l & Elines).
  set (st0 := {| chunks := []; currentChunk := []; chunkStart := 1%Z;
                 currentLine := 1%Z; chunkIndex := 0%Z |}).
  assert (H0 : flat_lines 0 st0).
  { unfold flat_lines, st0. simpl. repeat split; try lia; try constructor. }
  pose proof (flat_lines_fold M c (split_on LF (t ++ [last])) 0%Z st0 H0) as Hfold.
  set (st := fold_left (flatStep M c) (split_on LF (t ++ [last])) st0) in *.
  assert (Hbuf : existsb nonspace (currentChunk st) = true).
  { unfold st. rewrite Elines, fold_left_app. cbn [fold_left].
    match goal with |- context [currentChunk (flatStep M c ?a ?b)] =>
      destruct (flatStep_buffer M c a b) as (pre & E); rewrite E
    end.
    apply existsb_nonspace_app. right.
    apply existsb_nonspace_app. right. simpl. unfold nonspace. rewrite Hlast.
    reflexivity. }
  rewrite (trim_truthy _ Hbuf).
  destruct Hfold as (Hcons & Hle & Hcur & Hstart & Htruthy).
  assert (Htr : truthy (currentChunk st) = true).
  { destruct (currentChunk st); [discriminate Hbuf | reflexivity]. }
  specialize (Htruthy Htr). split.
  - replace (len_list (split_on LF (t ++ [last])))
      with (lineEnd {| content := trim (currentChunk st); index := chunkIndex st;
                       lineStart := chunkStart st; lineEnd := currentLine st - 1;
                       heading := None |}) by (simpl; lia).
    eapply consecutive_snoc; [exact Hcons | simpl; lia].
  - apply Forall_snoc; [exact Hle | simpl; lia].
Qed.

(** The theorem at [two_paragraphs], cut into two chunks. *)
Lemma flat_chunks_cover_lines_witness :
  consecutive 1 (chunkMarkdown two_paragraphs (flat_options 10 4)) 3
  /\ Forall (fun ch => (lineStart ch <= lineEnd ch)%Z)
            (chunkMarkdown two_paragraphs (flat_options 10 4)).
Proof.
  apply (@flat_chunks_cover_lines two_paragraphs 10%Z 4%Z).
  vm_compute. discriminate.
Defined.

(** ** The lines of the sections *)

Lemma sections_consecutive_snoc (from to : Z) (ss : list Section_)
    (s : Section_) :
  sections_consecutive from ss to -> s_lineStart s = (to + 1)%Z ->
  sections_consecutive from (ss ++ [s]) (s_lineEnd s).
Proof.
  revert from. induction ss as [|a ss IH]; intros from H Hs; simpl in *.
  - split; [lia | reflexivity].
  - destruct H as [Ha H]. split; [exact Ha | apply IH; assumption].
Qed.

Lemma nonspace_blank (s : jsstring) :
  existsb nonspace s = false -> truthy (trim s) = false.
Proof.
  intros H. destruct (truthy (trim s)) eqn:E; [|reflexivity].
  apply truthy_trim_nonspace in E. congruence.
Qed.

Lemma parseLine_lines (n : Z) (st : ParseState) (line : jsstring) :
  section_lines n st ->
  existsb nonspace (s_content (currentSection st)) = true
  \/ existsb nonspace line = true ->
  section_lines (n + 1) (parseLine st line)
  /\ existsb nonspace (s_content (currentSection (parseLine st line))) = true.
Proof.
  intros (Hcons & Hall & Hn & Hblank) Hline. unfold parseLine.
  destruct (headingMatch line) as [[level text]|] eqn:Eh.
  - assert (Hl : existsb nonspace (line ++ nl) = true).
    { apply existsb_nonspace_app. left. apply (heading_line_nonspace _ _ Eh). }
    split; [|exact Hl]. unfold section_lines.
    cbn [sections currentSection currentLineNumber s_content s_lineStart].
    rewrite Hl.
    destruct (existsb nonspace (s_content (currentSection st))) eqn:Ecur.
    + rewrite (trim_truthy _ Ecur). repeat split; try lia; try discriminate.
      * replace (currentLineNumber st - 1)%Z
          with (s_lineEnd (with_lineEnd (currentSection st)
                             (currentLineNumber st - 1))) by reflexivity.
        eapply sections_consecutive_snoc; [exact Hcons | simpl; lia].
      * apply Forall_snoc; [exact Hall | exact Ecur].
    + rewrite (nonspace_blank _ Ecur).
      specialize (Hblank eq_refl). rewrite Hblank in Hcons.
      repeat split; try assumption; try lia; try discriminate.
  - assert (Hl : existsb nonspace (s_content (currentSection st) ++ line ++ nl)
                 = true).
    { apply existsb_nonspace_app. destruct Hline as [H | H]; [left; exact H|].
      right. apply existsb_nonspace_app. left. exact H. }
    split; [|exact Hl]. unfold section_lines.
    cbn [sections currentSection currentLineNumber s_content s_lineStart
         with_content].
    rewrite Hl. repeat split; try assumption; try lia; try discriminate.
Qed.

Lemma parse_lines_lines (lines : list jsstring) (n : Z) (st : ParseState) :
  section_lines n st ->
  existsb nonspace (s_content (currentSection st)) = true
  \/ match lines with
     | [] => False
     | l :: _ => existsb nonspace l = true
     end ->
  section_lines (n + len_list lines) (fold_left parseLine lines st)
  /\ existsb nonspace
       (s_content (currentSection (fold_left parseLine lines st))) = true.
Proof.
  revert n st. induction lines as [|l ls IH]; intros n st Hst Hfirst.
  - simpl. unfold len_list. simpl. rewrite Z.add_0_r.
    split; [exact Hst | tauto].
  - cbn [fold_left].
    destruct (parseLine_lines n st l Hst Hfirst) as [Hst' Hcur'].
    replace (n + len_list (l :: ls))%Z with ((n + 1) + len_list ls)%Z
      by (unfold len_list; simpl length; lia).
    apply IH; [exact Hst' | left; exact Hcur'].
Qed.

Lemma parseIntoSections_lines (clean : jsstring) :
  clean <> [] -> clean_head clean ->
  sections_consecutive 1 (parseIntoSections clean)
    (len_list (split_on LF clean))
  /\ Forall (fun s => existsb nonspace (s_content s) = true)
            (parseIntoSections clean).
Proof.
  intros Hne Hhead. unfold parseIntoSections.
  set (st0 := {| sections := [];
                 currentSection :=
                   {| s_heading := None; s_headingLevel := 0;
                      s_content := []; s_lineStart := 1; s_lineEnd := 1 |};
                 currentLineNumber := 1 |}).
  assert (H0 : section_lines 0 st0).
  { unfold section_lines, st0. simpl. repeat split; try lia; constructor. }
  pose proof (first_line_nonspace clean Hne Hhead) as Hfirst.
  pose proof (split_on_nonempty LF clean) as Hsome.
  destruct (parse_lines_lines (split_on LF clean) 0%Z st0 H0)
    as [(Hcons & Hall & Hn & _) Hcur].
  { right. destruct (split_on LF clean); [contradiction | exact Hfirst]. }
  rewrite (trim_truthy _ Hcur). split.
  - replace (len_list (split_on LF clean))
      with (s_lineEnd
              (with_lineEnd
                 (currentSection (fold_left parseLine (split_on LF clean) st0))
                 (currentLineNumber
                    (fold_left parseLine (split_on LF clean) st0) - 1)))
      by (simpl; lia).
    eapply sections_consecutive_snoc; [exact Hcons | simpl; lia].
  - apply Forall_snoc; [exact Hall | exact Hcur].
Qed.

(** ** The lines of the chunks of a section *)

Lemma split_blank_aux_last (c : code_unit) (n : nat) :
  (c =? LF)%N = false ->
  forall (t : jsstring) (in_sep : bool),
    (length t <= n)%nat ->
    exists init p, split_blank_aux in_sep (t ++ [c]) = init ++ [p ++ [c]].
Proof.
  intros Hc. induction n as [|n IH]; intros t in_sep Hlen.
  - destruct t; [|simpl in Hlen; lia]. simpl. rewrite Hc.
    exists [], []. destruct in_sep; reflexivity.
  - destruct t as [|a t]; [apply IH; simpl; lia|].
    simpl in Hlen. cbn [app split_blank_aux]. destruct in_sep.
    + destruct (a =? LF)%N; [apply IH; lia|].
      destruct (IH t false) as (init & p & E); [lia|]. rewrite E.
      destruct init as [|i init]; simpl.
      * exists [], (a :: p). reflexivity.
      * exists ((a :: i) :: init), p. reflexivity.
    + destruct t as [|a' t]; cbn [app]; cbv iota.
      * rewrite Hc, andb_false_r. simpl.
        exists [], [a]. reflexivity.
      * simpl in Hlen. destruct ((a =? LF)%N && (a' =? LF)%N).
        -- destruct (IH t true) as (init & p & E); [lia|]. rewrite E.
           exists ([] :: init), p. reflexivity.
        -- destruct (IH (a' :: t) false) as (init & p & E); [simpl; lia|].
           simpl app in E. rewrite E.
           destruct init as [|i init]; simpl.
           ++ exists [], (a :: p). reflexivity.
           ++ exists ((a :: i) :: init), p. reflexivity.
Qed.

Lemma splitStep_buffer (hd : option jsstring) (M c : Z) (st : Buffer)
    (paragraph : jsstring) :
  exists pre, currentChunk (splitStep hd M c st paragraph) = pre ++ paragraph.
Proof.
  unfold splitStep. destruct (_ && _); cbn [currentChunk].
  - exists (slice (- c) (currentChunk st) ++ nlnl).
    rewrite <- app_assoc. reflexivity.
  - destruct (truthy (currentChunk st)).
    + exists (currentChunk st ++ nlnl). rewrite <- app_assoc. reflexivity.
    + exists []. reflexivity.
Qed.

Lemma splitStep_lines (hd : option jsstring) (M c from : Z) (st : Buffer)
    (paragraph : jsstring) :
  consecutive from (chunks st) (chunkStart st - 1) ->
  consecutive from (chunks (splitStep hd M c st paragraph))
    (chunkStart (splitStep hd M c st paragraph) - 1).
Proof.
  intros H. unfold splitStep. destruct (_ && _); cbn [chunks chunkStart].
  - replace (currentLine st - 1)%Z
      with (lineEnd {| content := trim (currentChunk st); index := chunkIndex st;
                       lineStart := chunkStart st; lineEnd := currentLine st - 1;
                       heading := hd |}) by reflexivity.
    eapply consecutive_snoc; [exact H | simpl; lia].
  - exact H.
Qed.

Lemma split_lines_fold (hd : option jsstring) (M c from : Z)
    (paragraphs : list jsstring) (st : Buffer) :
  consecutive from (chunks st) (chunkStart st - 1) ->
  consecutive from
    (chunks (fold_left (splitStep hd M c) paragraphs st))
    (chunkStart (fold_left (splitStep hd M c) paragraphs st) - 1).
Proof.
  revert st. induction paragraphs as [|p ps IH]; intros st H; simpl.
  - exact H.
  - apply IH. apply splitStep_lines. exact H.
Qed.

Lemma splitSection_lines (section : Section_) (M c : Z) :
  existsb nonspace (s_content section) = true ->
  consecutive (s_lineStart section) (splitSection section M c)
    (s_lineEnd section).
Proof.
  intros Hns. unfold splitSection.
  destruct (len (trim (s_content section)) <=? M)%Z; [simpl; auto|].
  assert (Hne : trim (s_content section) <> []).
  { pose proof (trim_truthy _ Hns) as Ht.
    destruct (trim (s_content section)); [discriminate Ht | discriminate]. }
  destruct (trim_last (s_content section) Hne) as (t & last & Eclean & Hlast).
  rewrite Eclean.
  assert (Hlf : (last =? LF)%N = false).
  { destruct (last =? LF)%N eqn:E; [|reflexivity].
    apply N.eqb_eq in E. subst last. discriminate Hlast. }
  destruct (split_blank_aux_last last (length t) Hlf t false (le_n _))
    as (init & p & Eps).
  unfold split_blank. rewrite Eps.
  set (st0 := {| chunks := []; currentChunk := [];
                 chunkStart := s_lineStart section;
                 currentLine := s_lineStart section; chunkIndex := 0%Z |}).
  assert (H0 : consecutive (s_lineStart section) (chunks st0)
                 (chunkStart st0 - 1)).
  { simpl. lia. }
  pose proof (split_lines_fold (s_heading section) M c (s_lineStart section)
                (init ++ [p ++ [last]]) st0 H0) as Hfold.
  set (st := fold_left (splitStep (s_heading section) M c)
               (init ++ [p ++ [last]]) st0) in *.
  assert (Hbuf : existsb nonspace (currentChunk st) = true).
  { unfold st. rewrite fold_left_app. cbn [fold_left].
    match goal with |- context [currentChunk (splitStep ?h M c ?a ?b)] =>
      destruct (splitStep_buffer h M c a b) as (pre & E); rewrite E
    end.
    apply existsb_nonspace_app. right.
    apply existsb_nonspace_app. right. simpl. unfold nonspace. rewrite Hlast.
    reflexivity. }
  rewrite (trim_truthy _ Hbuf).
  replace (s_lineEnd section)
    with (lineEnd {| content := trim (currentChunk st); index := chunkIndex st;
                     lineStart := chunkStart st; lineEnd := s_lineEnd section;
                     heading := s_heading section |}) at 2 by reflexivity.
  eapply consecutive_snoc; [exact Hfold | simpl; lia].
Qed.

Lemma consecutive_app (from mid to : Z) (cs cs' : list Chunk) :
  consecutive from cs mid -> consecutive (mid + 1) cs' to ->
  consecutive from (cs ++ cs') to.
Proof.
  revert from. induction cs as [|a cs IH]; intros from H H'; simpl in *.
  - subst from. exact H'.
  - destruct H as [Ha H]. split; [exact Ha | apply IH; assumption].
Qed.

Lemma push_chunks_lines (from mid to : Z) (l : list Chunk)
    (acc : list Chunk * Z) :
  consecutive from (fst acc) mid -> consecutive (mid + 1) l to ->
  consecutive from
    (fst (fold_left
            (fun a chunk => (fst a ++ [with_index chunk (snd a)], snd a + 1)%Z)
            l acc))
    to.
Proof.
  revert mid acc. induction l as [|ch l IH]; intros mid acc Hacc Hl; simpl in *.
  - replace to with mid by lia. exact Hacc.
  - destruct Hl as [Hstart Hl]. apply (IH (lineEnd ch)); [|exact Hl].
    simpl. replace (lineEnd ch)
      with (lineEnd (with_index ch (snd acc))) by reflexivity.
    eapply consecutive_snoc; [exact Hacc | simpl; lia].
Qed.

Lemma push_sections_lines (M c from mid to : Z) (ss : list Section_)
    (acc : list Chunk * Z) :
  consecutive from (fst acc) mid ->
  sections_consecutive (mid + 1) ss to ->
  Forall (fun s => existsb nonspace (s_content s) = true) ss ->
  consecutive from (fst (fold_left (pushSection M c) ss acc)) to.
Proof.
  revert mid acc. induction ss as [|s ss IH]; intros mid acc Hacc Hss Hall;
    simpl in *.
  - replace to with mid by lia. exact Hacc.
  - destruct Hss as [Hstart Hss].
    apply Forall_cons_iff in Hall. destruct Hall as [Hs Hall].
    apply (IH (s_lineEnd s)); [|exact Hss | exact Hall].
    unfold pushSection. apply (push_chunks_lines from mid); [exact Hacc|].
    rewrite <- Hstart. apply splitSection_lines. exact Hs.
Qed.

(** X23.  With [respectHeadings] on, as by default, and a stripped
    text that is not empty, the chunks cover the lines of the stripped
    text without a gap and without an overlap: the first chunk starts
    at line 1, each of the others starts on the line after the one
    before it ends, and the last ends at the last line. *)
Theorem heading_chunks_cover_lines (content : jsstring)
    (options : PartialOptions) :
  stripMdxComponents content <> [] ->
  respectHeadings (merge_options options) = true ->
  consecutive 1 (chunkMarkdown content options)
    (len_list (split_on LF (stripMdxComponents content))).
Proof.
  intros Hne Hmode.
  unfold chunkMarkdown, chunkMarkdownWith, chunkClean. rewrite Hmode.
  assert (Hhead : clean_head (stripMdxComponents content))
    by (unfold stripMdxComponents; apply trim_clean_head).
  destruct (parseIntoSections_lines (stripMdxComponents content) Hne Hhead)
    as [Hcons Hall].
  apply (push_sections_lines _ _ 1%Z 0%Z _ _ ([], 0%Z)); simpl; auto.
Qed.

(** The theorem at the document of the scenario, with the default
    options. *)
Lemma heading_chunks_cover_lines_witness :
  consecutive 1
    (chunkMarkdown (js "# A" ++ nlnl ++ js "x" ++ nlnl ++ js "## B") no_options)
    5.
Proof.
  apply (heading_chunks_cover_lines
           (js "# A" ++ nlnl ++ js "x" ++ nlnl ++ js "## B") no_options).
  - vm_compute. discriminate.
  - reflexivity.
Defined.

End ChunkerMore.

(* ================================================================== *)
(** * More of the vector store *)
(* ================================================================== *)

Module VectorDbMore.
Import JsString VectorDb StoreShape VectorDbFacts.

Section Store.

Variable scalar : Type.

(** ** Tables *)

Lemma no_document_at (path : jsstring) (db : Database scalar) :
  document_at path db = None -> ~ In path (map d_file_path (documents db)).
Proof.
  unfold document_at. intros Hnone Hin.
  apply in_map_iff in Hin. destruct Hin as (d & Hd & Hin).
  apply (find_none _ _ Hnone) in Hin.
  rewrite Hd, jsstring_eqb_refl in Hin. discriminate.
Qed.

Lemma document_at_some (path : jsstring) (db : Database scalar) (d : document_row) :
  document_at path db = Some d -> In d (documents db) /\ d_file_path d = path.
Proof.
  unfold document_at. intros H. apply find_some in H.
  destruct H as [Hin Hp]. apply jsstring_eqb_eq in Hp. auto.
Qed.

Lemma update_document_id now meta id d :
  d_id (update_document now meta id d) = d_id d.
Proof. unfold update_document. destruct (d_id d =? id)%Z; reflexivity. Qed.

Lemma updated_paths now meta id (rows : list document_row) :
  map d_file_path (map (update_document now meta id) rows) = map d_file_path rows.
Proof.
  rewrite map_map. apply map_ext. intros d. apply update_document_path.
Qed.

Lemma updated_ids now meta id (rows : list document_row) :
  map d_id (map (update_document now meta id) rows) = map d_id rows.
Proof.
  rewrite map_map. apply map_ext. intros d. apply update_document_id.
Qed.

Lemma has_document_ids (docId : Z) (db : Database scalar) :
  has_document docId db = mem docId (map d_id (documents db)).
Proof.
  unfold has_document, mem. induction (documents db) as [|d l IH]; simpl.
  - reflexivity.
  - rewrite IH, (Z.eqb_sym docId). reflexivity.
Qed.

Lemma upsertDocument_ids now meta (db : Database scalar) :
  exists more,
    map d_id (documents (fst (upsertDocument now meta db)))
    = map d_id (documents db) ++ more.
Proof.
  unfold upsertDocument. destruct (document_at (filePath meta) db) as [d|]; simpl.
  - exists []. rewrite updated_ids, app_nil_r. reflexivity.
  - eexists. rewrite map_app. reflexivity.
Qed.

Lemma has_document_upsert now meta (docId : Z) (db : Database scalar) :
  has_document docId db = true ->
  has_document docId (fst (upsertDocument now meta db)) = true.
Proof.
  rewrite !has_document_ids.
  destruct (upsertDocument_ids now meta db) as (more & E). rewrite E.
  rewrite !mem_In, in_app_iff. auto.
Qed.

Lemma sorted_keys_snoc (keys : list Z) (n : Z) :
  StronglySorted Z.lt keys -> Forall (fun k => (k <= n)%Z) keys ->
  StronglySorted Z.lt (keys ++ [n + 1])%Z.
Proof.
  induction 1 as [|k keys Hs IH Hk]; intros Hb; simpl.
  - repeat constructor.
  - inversion Hb as [|? ? Hkn Hb']; subst. constructor.
    + apply IH. exact Hb'.
    + apply Forall_app. split; [exact Hk|]. constructor; [lia | constructor].
Qed.

Lemma sorted_keys_filter {Row : Type} (key : Row -> Z) (keep : Row -> bool)
    (rows : list Row) :
  StronglySorted Z.lt (map key rows) ->
  StronglySorted Z.lt (map key (filter keep rows)).
Proof.
  induction rows as [|r rows IH]; simpl; intros H; [constructor|].
  inversion H as [|? ? Hs Hr]; subst.
  destruct (keep r); simpl; [constructor|]; auto.
  rewrite Forall_forall in *. intros k Hin. apply Hr.
  apply in_map_iff in Hin. destruct Hin as (x & Hx & Hin).
  apply filter_In in Hin. apply in_map_iff. exists x. tauto.
Qed.

Lemma bound_of_keys (rows : list chunk_row) (n : Z) :
  Forall (fun c => (c_id c <= n)%Z) rows ->
  Forall (fun k => (k <= n)%Z) (map c_id rows).
Proof.
  intros H. rewrite Forall_forall in *. intros k Hin.
  apply in_map_iff in Hin. destruct Hin as (c & <- & Hin). auto.
Qed.

(** ** What holds of every reachable store, besides [consistent] *)

Lemma open_sound (dimension : Z) (db : Database scalar) :
  open scalar dimension = Some db -> sound db.
Proof.
  unfold open. destruct (0 <? dimension)%Z eqn:Hd; [|discriminate].
  intros E. injection E as <-. apply Z.ltb_lt in Hd.
  constructor; simpl; try constructor; try assumption.
  intros k [].
Qed.

Lemma upsertDocument_sound now meta (db : Database scalar) :
  sound db -> sound (fst (upsertDocument now meta db)).
Proof.
  intros Hs. pose proof (has_document_upsert now meta) as Hkeep.
  destruct Hs as [Hfk Hdim Hpaths Hids Hseq Hpar Hkeys Hemb Hord].
  assert (Hpar' : Forall (fun c => has_document (c_document_id c)
                                     (fst (upsertDocument now meta db)) = true)
                         (chunks db)).
  { eapply Forall_impl; [|exact Hpar]. intros c Hc. apply Hkeep. exact Hc. }
  revert Hpar'. unfold upsertDocument.
  destruct (document_at (filePath meta) db) as [d|] eqn:Hat; simpl; intros Hpar'.
  - constructor; simpl; rewrite ?updated_paths, ?updated_ids; try assumption.
    rewrite Forall_forall in *. intros r Hin.
    apply in_map_iff in Hin. destruct Hin as (r0 & <- & Hin).
    rewrite update_document_id. auto.
  - constructor; simpl; try assumption.
    + rewrite map_app. apply NoDup_snoc; [exact Hpaths|].
      simpl. apply no_document_at. exact Hat.
    + rewrite map_app. apply NoDup_snoc; [exact Hids|].
      simpl. apply bounded_fresh. exact Hseq.
    + apply Forall_weaken_snoc; [exact Hseq | reflexivity].
Qed.

Lemma addChunk_sound chunk embedding (db : Database scalar) :
  consistent db -> sound db -> sound (fst (addChunk chunk embedding db)).
Proof.
  intros [Hc He Hnd Hv] Hs.
  destruct (addChunk_cases chunk embedding db He)
    as [(_ & E) | [(Hfk & _ & E) | (Hfk & _ & E)]]; rewrite E; simpl;
    [exact Hs | |];
    destruct Hs as [Hpragma Hdim Hpaths Hids Hseq Hpar Hkeys Hemb Hord];
    unfold foreign_key_violated in Hfk; rewrite Hpragma in Hfk; simpl in Hfk;
    apply negb_false_iff in Hfk;
    constructor; simpl; try assumption.
  - apply Forall_app. split; [exact Hpar|]. constructor; [exact Hfk | constructor].
  - rewrite map_app. apply incl_appr with (m := map c_id (chunks db)) in Hemb.
    intros k Hin. apply in_app_iff. left. apply Hemb in Hin.
    apply in_app_iff in Hin. destruct Hin as [Hin | Hin]; [|exact Hin].
    exact Hin.
  - rewrite map_app. simpl. apply sorted_keys_snoc; [exact Hord|].
    apply bound_of_keys. exact Hc.
  - apply Forall_app. split; [exact Hpar|]. constructor; [exact Hfk | constructor].
  - rewrite map_app. simpl. apply NoDup_snoc; [exact Hkeys|].
    change (~ In (chunks_seq db + 1)%Z (map (@e_chunk_id scalar) (embeddings db))).
    apply bounded_fresh. exact He.
  - rewrite !map_app. simpl. apply incl_app_app; [exact Hemb | apply incl_refl].
  - rewrite map_app. simpl. apply sorted_keys_snoc; [exact Hord|].
    apply bound_of_keys. exact Hc.
Qed.

Lemma deleteDocumentChunks_sound (docId : Z) (db : Database scalar) :
  sound db -> sound (deleteDocumentChunks docId db).
Proof.
  intros [Hpragma Hdim Hpaths Hids Hseq Hpar Hkeys Hemb Hord].
  unfold deleteDocumentChunks. constructor; simpl; try assumption.
  - apply Forall_filter. exact Hpar.
  - rewrite delete_embeddings_filter. apply keys_distinct_filter. exact Hkeys.
  - rewrite delete_embeddings_filter. intros k Hin.
    apply in_map_iff in Hin. destruct Hin as (e & <- & Hin).
    apply filter_In in Hin. destruct Hin as [Hin Hkeep].
    assert (Hk : In (e_chunk_id e) (map c_id (chunks db))).
    { apply Hemb. apply in_map. exact Hin. }
    apply in_map_iff in Hk. destruct Hk as (c & Hc & Hcin).
    apply in_map_iff. exists c. split; [exact Hc|].
    apply filter_In. split; [exact Hcin|].
    destruct (of_document docId c) eqn:Hof; [|reflexivity].
    apply negb_true_iff in Hkeep.
    assert (Hmem : mem (e_chunk_id e)
                       (map c_id (filter (of_document docId) (chunks db))) = true).
    { apply mem_In. rewrite <- Hc. apply in_map. apply filter_In. auto. }
    rewrite Hmem in Hkeep. discriminate.
  - apply sorted_keys_filter. exact Hord.
Qed.

Lemma after_sound (c : call scalar) (db : Database scalar) :
  consistent db -> sound db -> sound (after c db).
Proof.
  intros Hc Hs. destruct c as [now meta | chunk embedding | docId]; unfold after.
  - apply upsertDocument_sound. exact Hs.
  - apply addChunk_sound; assumption.
  - apply deleteDocumentChunks_sound. exact Hs.
Qed.

Lemma reachable_sound (db : Database scalar) : reachable db -> sound db.
Proof.
  induction 1 as [dimension db Hopen | c db Hr IH].
  - apply (open_sound dimension). exact Hopen.
  - apply after_sound; [apply reachable_consistent; exact Hr | exact IH].
Qed.

(** ** Documents by path *)

Lemma keyed_rows_equal {Row Key : Type} (key : Row -> Key) (rows : list Row)
    (a b : Row) :
  NoDup (map key rows) -> In a rows -> In b rows -> key a = key b -> a = b.
Proof.
  induction rows as [|r rows IH]; simpl; intros Hnd Ha Hb E; [contradiction|].
  inversion Hnd as [|? ? Hfresh Hnd']; subst.
  destruct Ha as [-> | Ha], Hb as [-> | Hb].
  - reflexivity.
  - elim Hfresh. rewrite E. apply in_map. exact Hb.
  - elim Hfresh. rewrite <- E. apply in_map. exact Ha.
  - apply IH; assumption.
Qed.

Lemma document_at_row (db : Database scalar) (d : document_row) :
  NoDup (map d_file_path (documents db)) -> In d (documents db) ->
  document_at (d_file_path d) db = Some d.
Proof.
  intros Hnd Hin. destruct (document_at (d_file_path d) db) as [d'|] eqn:E.
  - apply document_at_some in E. destruct E as [Hin' Hp].
    f_equal. apply (keyed_rows_equal d_file_path (documents db)); assumption.
  - apply no_document_at in E. elim E. apply in_map. exact Hin.
Qed.

Lemma find_map_same {Row : Type} (p : Row -> bool) (upd : Row -> Row)
    (rows : list Row) :
  (forall r, p (upd r) = p r) ->
  (forall r, In r rows -> p r = true -> upd r = r) ->
  find p (map upd rows) = find p rows.
Proof.
  intros Hp Hsame. induction rows as [|r rows IH]; simpl; [reflexivity|].
  rewrite Hp. destruct (p r) eqn:E.
  - f_equal. apply Hsame; [left; reflexivity | exact E].
  - apply IH. intros r' Hin. apply Hsame. right. exact Hin.
Qed.

Lemma find_after {Row : Type} (p : Row -> bool) (rows : list Row) (r : Row) :
  find p (rows ++ [r])
  = match find p rows with
    | Some x => Some x
    | None => if p r then Some r else None
    end.
Proof.
  induction rows as [|x rows IH]; simpl; [reflexivity|].
  destruct (p x); [reflexivity | exact IH].
Qed.

Lemma jsstring_eqb_false (a b : jsstring) : jsstring_eqb a b = false -> a <> b.
Proof.
  intros E ->. rewrite jsstring_eqb_refl in E. discriminate.
Qed.

(** What [getDocumentByPath] finds at the path of [meta'] once
    [upsertDocument] has run with it. *)
Lemma get_after_upsert now meta (db : Database scalar) :
  getDocumentByPath (filePath meta) (fst (upsertDocument now meta db))
  = Some {| id := snd (upsertDocument now meta db); meta := meta |}.
Proof.
  unfold getDocumentByPath, upsertDocument.
  destruct (document_at (filePath meta) db) as [d|] eqn:Hat; simpl.
  - unfold document_at in *. simpl.
    rewrite (@find_map_update _ _ (update_document now meta (d_id d)) _ d)
      by (try exact Hat; intros a; rewrite update_document_path; reflexivity).
    apply find_some in Hat. destruct Hat as [_ Hp]. apply jsstring_eqb_eq in Hp.
    simpl. unfold row_to_document, update_document. rewrite Z.eqb_refl. simpl.
    rewrite Hp. destruct meta; reflexivity.
  - unfold document_at in *. simpl. rewrite find_app_none by exact Hat.
    simpl. rewrite jsstring_eqb_refl. simpl. unfold row_to_document. simpl.
    destruct meta; reflexivity.
Qed.

Lemma upsert_existing now meta (db : Database scalar) (d : DocumentWithId) :
  getDocumentByPath (filePath meta) db = Some d ->
  snd (upsertDocument now meta db) = id d
  /\ map d_id (documents (fst (upsertDocument now meta db)))
     = map d_id (documents db)
  /\ map d_file_path (documents (fst (upsertDocument now meta db)))
     = map d_file_path (documents db)
  /\ documents_seq (fst (upsertDocument now meta db)) = documents_seq db.
Proof.
  unfold getDocumentByPath, upsertDocument.
  destruct (document_at (filePath meta) db) as [r|]; simpl; [|discriminate].
  intros E. injection E as <-. simpl.
  rewrite updated_ids, updated_paths. auto.
Qed.

(** ** The keys of [chunks] *)

Lemma after_chunk_keys (c : call scalar) (db : Database scalar) :
  consistent db ->
  (chunks_seq db <= chunks_seq (after c db))%Z
  /\ forall row, In row (chunks (after c db)) ->
       In row (chunks db) \/ (chunks_seq db < c_id row)%Z.
Proof.
  intros [Hc He Hnd Hv]. destruct c as [now meta | chunk embedding | docId];
    unfold after.
  - destruct (upsertDocument_tables now meta db) as (E1 & E2 & _).
    rewrite E1, E2. split; [lia | auto].
  - destruct (addChunk_cases chunk embedding db He)
      as [(_ & E) | [(_ & _ & E) | (_ & _ & E)]]; rewrite E; simpl;
      (split; [lia|]); auto;
      intros row Hin; apply in_app_iff in Hin;
      (destruct Hin as [Hin | [<- | []]]; [left; exact Hin | right; simpl; lia]).
  - unfold deleteDocumentChunks. simpl. split; [lia|].
    intros row Hin. apply filter_In in Hin. left. tauto.
Qed.

Lemma after_all_chunk_keys (cs : list (call scalar)) (db : Database scalar) :
  consistent db ->
  (chunks_seq db <= chunks_seq (after_all cs db))%Z
  /\ forall row, In row (chunks (after_all cs db)) ->
       In row (chunks db) \/ (chunks_seq db < c_id row)%Z.
Proof.
  revert db. induction cs as [|c cs IH]; intros db Hcons; simpl.
  - split; [lia | auto].
  - destruct (after_chunk_keys c db Hcons) as [Hseq Hrows].
    destruct (IH (after c db) (after_consistent c Hcons)) as [Hseq' Hrows'].
    split; [lia|]. intros row Hin.
    destruct (Hrows' row Hin) as [Hin' | Hlt]; [|right; lia].
    apply Hrows. exact Hin'.
Qed.

(** ** Documents stay *)

Lemma after_documents (c : call scalar) (db : Database scalar) :
  consistent db ->
  exists more,
    map (fun d => (d_id d, d_file_path d)) (documents (after c db))
    = map (fun d => (d_id d, d_file_path d)) (documents db) ++ more.
Proof.
  intros [Hc He Hnd Hv]. destruct c as [now meta | chunk embedding | docId];
    unfold after.
  - unfold upsertDocument.
    destruct (document_at (filePath meta) db) as [d|]; simpl.
    + exists []. rewrite app_nil_r, map_map. apply map_ext. intros r.
      rewrite update_document_id, update_document_path. reflexivity.
    + eexists. rewrite map_app. reflexivity.
  - exists []. rewrite app_nil_r.
    destruct (addChunk_cases chunk embedding db He)
      as [(_ & E) | [(_ & _ & E) | (_ & _ & E)]]; rewrite E; reflexivity.
  - exists []. rewrite app_nil_r. reflexivity.
Qed.

Lemma after_all_documents (cs : list (call scalar)) (db : Database scalar) :
  consistent db ->
  exists more,
    map (fun d => (d_id d, d_file_path d)) (documents (after_all cs db))
    = map (fun d => (d_id d, d_file_path d)) (documents db) ++ more.
Proof.
  revert db. induction cs as [|c cs IH]; intros db Hcons; simpl.
  - exists []. rewrite app_nil_r. reflexivity.
  - destruct (after_documents c db Hcons) as (m1 & E1).
    destruct (IH (after c db) (after_consistent c Hcons)) as (m2 & E2).
    exists (m1 ++ m2). rewrite E2, E1, app_assoc. reflexivity.
Qed.

End Store.

Lemma stats_test_reachable : reachable (after_all stats_test_calls fresh4).
Proof.
  apply reachable_after_all.
  apply reachable_open with (dimension := 4%Z). reflexivity.
Qed.

(** X7.  In a store that calls have made, no two documents share a
    path or a key, and [getDocumentByPath] at the path of a document
    that [getAllDocuments] lists gives that document. *)
Theorem documents_found_by_path (scalar : Type) (db : Database scalar) :
  reachable db ->
  NoDup (map (fun d => filePath (meta d)) (getAllDocuments db))
  /\ NoDup (map (@id) (getAllDocuments db))
  /\ forall d, In d (getAllDocuments db) ->
       getDocumentByPath (filePath (meta d)) db = Some d.
Proof.
  intros Hr. destruct (reachable_sound _ _ Hr)
    as [_ _ Hpaths Hids _ _ _ _ _].
  unfold getAllDocuments. rewrite !map_map. simpl.
  split; [exact Hpaths | split; [exact Hids|]].
  intros d Hin. apply in_map_iff in Hin. destruct Hin as (r & <- & Hin).
  unfold getDocumentByPath. simpl.
  rewrite (document_at_row _ db r Hpaths Hin). reflexivity.
Qed.

Lemma documents_found_by_path_witness :
  let db := after_all stats_test_calls fresh4 in
  NoDup (map (fun d => filePath (meta d)) (getAllDocuments db))
  /\ NoDup (map (@id) (getAllDocuments db))
  /\ forall d, In d (getAllDocuments db) ->
       getDocumentByPath (filePath (meta d)) db = Some d.
Proof.
  exact (documents_found_by_path Z (after_all stats_test_calls fresh4)
           stats_test_reachable).
Defined.

(** X8.  In a store that calls have made, the document of every chunk
    is in [documents] and the chunk of every embedding is in [chunks],
    so the joins of [search] drop no embedding; and [getStats] never
    counts more embeddings than chunks. *)
Theorem embeddings_within_chunks (scalar : Type) (db : Database scalar) :
  reachable db ->
  (forall c, In c (chunks db) ->
     exists d, In d (getAllDocuments db) /\ id d = c_document_id c)
  /\ (forall e, In e (embeddings db) ->
        exists c, In c (chunks db) /\ c_id c = e_chunk_id e)
  /\ (stat_embeddings (getStats db) <= stat_chunks (getStats db))%Z.
Proof.
  intros Hr. destruct (reachable_sound _ _ Hr)
    as [_ _ _ _ _ Hpar Hkeys Hemb _].
  split; [|split].
  - intros c Hin. rewrite Forall_forall in Hpar. specialize (Hpar c Hin).
    unfold has_document in Hpar. apply existsb_exists in Hpar.
    destruct Hpar as (r & Hr' & E). apply Z.eqb_eq in E.
    exists (row_to_document r). split; [|exact E].
    unfold getAllDocuments. apply in_map. exact Hr'.
  - intros e Hin.
    assert (Hk : In (e_chunk_id e) (map c_id (chunks db))).
    { apply Hemb. apply in_map. exact Hin. }
    apply in_map_iff in Hk. destruct Hk as (c & E & Hc). exists c. auto.
  - simpl. unfold len_list.
    pose proof (NoDup_incl_length Hkeys Hemb) as Hle.
    rewrite !length_map in Hle. lia.
Qed.

Lemma embeddings_within_chunks_witness :
  let db := after_all short_vector_calls one_document in
  (forall c, In c (chunks db) ->
     exists d, In d (getAllDocuments db) /\ id d = c_document_id c)
  /\ (forall e, In e (embeddings db) ->
        exists c, In c (chunks db) /\ c_id c = e_chunk_id e)
  /\ (stat_embeddings (getStats db) <= stat_chunks (getStats db))%Z.
Proof.
  apply (embeddings_within_chunks Z (after_all short_vector_calls one_document)).
  apply reachable_after_all. apply reachable_call.
  apply reachable_open with (dimension := 4%Z). reflexivity.
Defined.






(** X12.  Two [deleteDocumentChunks] give the same store in either
    order. *)
Theorem deleteDocumentChunks_commute (scalar : Type) (a b : Z)
    (db : Database scalar) :
  deleteDocumentChunks a (deleteDocumentChunks b db)
  = deleteDocumentChunks b (deleteDocumentChunks a db).
Proof.
  destruct (Z.eq_dec a b) as [-> | Hne]; [reflexivity|].
  assert (Hids : forall x y : Z, x <> y ->
            map c_id (filter (of_document x)
                        (filter (fun c => negb (of_document y c)) (chunks db)))
            = map c_id (filter (of_document x) (chunks db))).
  { intros x y Hxy. f_equal. rewrite filter_filter. apply filter_ext.
    intros c. unfold of_document.
    destruct (c_document_id c =? x)%Z eqn:Ex, (c_document_id c =? y)%Z eqn:Ey;
      try reflexivity.
    apply Z.eqb_eq in Ex, Ey. congruence. }
  unfold deleteDocumentChunks, with_chunks, with_embeddings. simpl.
  rewrite !delete_embeddings_filter.
  rewrite (Hids a b Hne), (Hids b a) by congruence.
  f_equal.
  - rewrite !filter_filter. apply filter_ext. intros c. apply andb_comm.
  - rewrite !filter_filter. apply filter_ext. intros e. apply andb_comm.
Qed.

(** X13.  The keys of [chunks] are never handed out again: whatever
    calls follow, the sequence does not go back, and a chunk row of
    the later store is a row of the earlier one or has a key beyond
    every key handed out before. *)
Theorem chunk_keys_never_reused (scalar : Type) (db : Database scalar)
    (cs : list (call scalar)) :
  reachable db ->
  Forall (fun c => (c_id c <= chunks_seq db)%Z) (chunks db)
  /\ (chunks_seq db <= chunks_seq (after_all cs db))%Z
  /\ (forall row, In row (chunks (after_all cs db)) ->
        In row (chunks db) \/ (chunks_seq db < c_id row)%Z)
  /\ StronglySorted Z.lt (map c_id (chunks (after_all cs db))).
Proof.
  intros Hr. pose proof (reachable_consistent Hr) as Hcons.
  destruct (after_all_chunk_keys _ cs db Hcons) as [Hseq Hrows].
  split; [apply (chunk_ids_bounded Hcons) | split; [exact Hseq | split]].
  - exact Hrows.
  - apply (sound_ordered (reachable_sound _ _ (reachable_after_all cs Hr))).
Qed.

Lemma chunk_keys_never_reused_witness :
  let db := after_all stats_test_calls fresh4 in
  let cs := [DeleteDocumentChunks 1%Z;
             AddChunk (test_chunk 1%Z "C4" 0%Z) [0; 0; 0; 1]%Z] in
  Forall (fun c => (c_id c <= chunks_seq db)%Z) (chunks db)
  /\ (chunks_seq db <= chunks_seq (after_all cs db))%Z
  /\ (forall row, In row (chunks (after_all cs db)) ->
        In row (chunks db) \/ (chunks_seq db < c_id row)%Z)
  /\ StronglySorted Z.lt (map c_id (chunks (after_all cs db))).
Proof.
  apply (chunk_keys_never_reused Z (after_all stats_test_calls fresh4)).
  exact stats_test_reachable.
Defined.

(** X14.  No call removes a document or changes its key or its path:
    the keys and paths of the later store begin with those of the
    earlier one, in the same order. *)
Theorem documents_never_removed (scalar : Type) (db : Database scalar)
    (cs : list (call scalar)) :
  reachable db ->
  exists more,
    map (fun d => (id d, filePath (meta d))) (getAllDocuments (after_all cs db))
    = map (fun d => (id d, filePath (meta d))) (getAllDocuments db) ++ more.
Proof.
  intros Hr.
  destruct (after_all_documents _ cs db (reachable_consistent Hr)) as (more & E).
  exists more. unfold getAllDocuments. rewrite !map_map. simpl. exact E.
Qed.

Lemma documents_never_removed_witness :
  exists more,
    map (fun d => (id d, filePath (meta d)))
        (getAllDocuments (after_all stats_test_calls one_document))
    = map (fun d => (id d, filePath (meta d))) (getAllDocuments one_document)
      ++ more.
Proof.
  apply (documents_never_removed Z one_document stats_test_calls).
  apply reachable_call. apply reachable_open with (dimension := 4%Z).
  reflexivity.
Defined.

(** X15.  In a store that calls have made, [addChunk] for a document
    that is not there throws and writes nothing, whatever the
    vector. *)
Theorem addChunk_unknown_document (scalar : Type) (db : Database scalar)
    (chunk : ChunkData) (embedding : Float32Array scalar) :
  reachable db -> has_document (documentId chunk) db = false ->
  addChunk chunk embedding db = (db, Threw FOREIGN_KEY_constraint_failed).
Proof.
  intros Hr Hnone. destruct (reachable_sound _ _ Hr) as [Hpragma _ _ _ _ _ _ _ _].
  unfold addChunk, insert_chunk, foreign_key_violated.
  rewrite Hpragma, Hnone. reflexivity.
Qed.

Lemma addChunk_unknown_document_witness :
  addChunk (test_chunk 7%Z "Chunk 1" 0%Z) [1; 0; 0; 0]%Z one_document
  = (one_document, Threw FOREIGN_KEY_constraint_failed).
Proof.
  apply (addChunk_unknown_document Z one_document).
  - apply reachable_call. apply reachable_open with (dimension := 4%Z).
    reflexivity.
  - reflexivity.
Defined.

End VectorDbMore.

(* ================================================================== *)
(** * The loops over the files *)
(* ================================================================== *)

Module IngestFacts.
Import JsString NodePath VectorDb StoreShape Update Ingest.
Import VectorDbFacts VectorDbMore.

Section Run.

Variable scalar : Type.
Variable cwd : jsstring.
Variable read : jsstring -> option (jsstring * Z).
Variable md5 : jsstring -> jsstring.
Variable embedBatch :
  jsstring -> list jsstring -> option (list (Float32Array scalar)).
Variable unixepoch : jsstring -> Z.

(** ** The documents are not touched by the storing of chunks *)

Lemma insert_chunk_documents (data : ChunkData) (db : Database scalar) :
  documents (fst (insert_chunk data db)) = documents db.
Proof.
  unfold insert_chunk. destruct (foreign_key_violated data db); reflexivity.
Qed.

Lemma addChunk_documents (data : ChunkData) (vector : Float32Array scalar)
    (db : Database scalar) :
  documents (fst (addChunk data vector db)) = documents db.
Proof.
  unfold addChunk, insert_chunk, insert_embedding.
  destruct (foreign_key_violated data db); simpl; [reflexivity|].
  destruct (negb (len_list vector =? embeddingDimension db)%Z); simpl;
    [reflexivity|].
  match goal with |- context [if ?b then _ else _] => destruct b end;
    reflexivity.
Qed.

Lemma addChunk_at_documents (data : ChunkData)
    (embedding : option (Float32Array scalar)) (db : Database scalar) :
  documents (fst (addChunk_at data embedding db)) = documents db.
Proof.
  unfold addChunk_at. destruct embedding as [vector|].
  - pose proof (addChunk_documents data vector db) as H.
    destruct (addChunk data vector db) as [db' [k | e]]; exact H.
  - apply insert_chunk_documents.
Qed.

Lemma storeChunks_documents (docId : Z) (embeddings : list (Float32Array scalar))
    (rest : list Chunker.Chunk) (i : nat) (db : Database scalar) :
  documents (fst (storeChunks docId embeddings i rest db)) = documents db.
Proof.
  revert i db. induction rest as [|chunk rest IH]; intros i db; simpl.
  - reflexivity.
  - pose proof (addChunk_at_documents (chunk_data docId chunk)
                  (nth_error embeddings i) db) as H.
    destruct (addChunk_at _ _ db) as [db' [|]]; simpl in H.
    + exact H.
    + rewrite IH. exact H.
Qed.

Lemma embed_and_store_documents (file : jsstring) (chunks : list Chunker.Chunk)
    (docId : Z) (db : Database scalar) :
  documents (fst (embed_and_store embedBatch file chunks docId db))
  = documents db.
Proof.
  unfold embed_and_store. destruct chunks as [|c chunks]; [reflexivity|].
  destruct (embedBatch file _) as [embeddings|]; [|reflexivity].
  apply storeChunks_documents.
Qed.

Lemma documentNeedsUpdate_documents (path hash : jsstring)
    (db db' : Database scalar) :
  documents db' = documents db ->
  documentNeedsUpdate path hash db' = documentNeedsUpdate path hash db.
Proof.
  intros E. unfold documentNeedsUpdate, document_at. rewrite E. reflexivity.
Qed.

Lemma getDocumentByPath_documents (path : jsstring) (db db' : Database scalar) :
  documents db' = documents db ->
  getDocumentByPath path db' = getDocumentByPath path db.
Proof.
  intros E. unfold getDocumentByPath, document_at. rewrite E. reflexivity.
Qed.

Lemma fresh_after_upsert now meta (db : Database scalar) :
  documentNeedsUpdate (filePath meta) (fileHash meta)
    (fst (upsertDocument now meta db)) = false.
Proof.
  destruct (document_at_upsert now meta db) as (row & Hrow & Hhash).
  unfold documentNeedsUpdate. rewrite Hrow, Hhash, jsstring_eqb_refl.
  reflexivity.
Qed.

(** ** A file that is up to date *)

Lemma update_file_skips (db : Database scalar) (n : Tally)
    (file content : jsstring) (mtimeMs : Z) :
  read (join cwd file) = Some (content, mtimeMs) ->
  documentNeedsUpdate file (md5 content) db = false ->
  update_file cwd read md5 embedBatch unixepoch false (db, n) file
  = (db, skipped_up n).
Proof.
  intros Hread Hfresh. unfold update_file. rewrite Hread, Hfresh. reflexivity.
Qed.

Lemma update_file_fresh (force : bool) (st : Database scalar * Tally)
    (file content : jsstring) (mtimeMs : Z) :
  read (join cwd file) = Some (content, mtimeMs) ->
  documentNeedsUpdate file (md5 content)
    (fst (update_file cwd read md5 embedBatch unixepoch force st file)) = false.
Proof.
  intros Hread. destruct st as [db n]. unfold update_file. rewrite Hread.
  destruct (force || documentNeedsUpdate file (md5 content) db) eqn:Hneed;
    cbn [negb].
  - set (db1n1 := match getDocumentByPath file db with
                  | Some doc => (deleteDocumentChunks (id doc) db, updated_up n)
                  | None => (db, added_up n)
                  end).
    destruct db1n1 as [db1 n1].
    pose proof (fresh_after_upsert (unixepoch file)
                  (metadata_of md5 file content mtimeMs) db1) as Hup.
    destruct (upsertDocument (unixepoch file)
                (metadata_of md5 file content mtimeMs) db1) as [db2 docId].
    simpl in Hup.
    pose proof (embed_and_store_documents file
                  (Chunker.chunkMarkdown content Chunker.no_options) docId db2)
      as Hdocs.
    destruct (embed_and_store embedBatch file _ docId db2) as [db3 [|]];
      simpl in *; rewrite (documentNeedsUpdate_documents _ _ _ _ Hdocs); exact Hup.
  - apply orb_false_iff in Hneed. simpl. tauto.
Qed.

(** ** The loops do what calls of the store do *)

Lemma after_all_app (cs cs' : list (call scalar)) (db : Database scalar) :
  after_all (cs ++ cs') db = after_all cs' (after_all cs db).
Proof. unfold after_all. apply fold_left_app. Qed.

Lemma insert_chunk_call (data : ChunkData) (db : Database scalar) :
  reachable db ->
  fst (insert_chunk data db) = after (AddChunk data []) db.
Proof.
  intros Hr. pose proof (reachable_consistent Hr) as Hcons.
  pose proof (sound_dimension (reachable_sound _ _ Hr)) as Hdim.
  unfold after.
  destruct (addChunk_cases data [] db (embedding_ids_bounded Hcons))
    as [(Hfk & E) | [(Hfk & _ & E) | (_ & Hlen & _)]].
  - rewrite E. unfold insert_chunk. rewrite Hfk. reflexivity.
  - rewrite E. unfold insert_chunk. rewrite Hfk. reflexivity.
  - unfold len_list in Hlen. simpl in Hlen. lia.
Qed.

Lemma addChunk_at_call (data : ChunkData)
    (embedding : option (Float32Array scalar)) (db : Database scalar) :
  reachable db ->
  exists c, fst (addChunk_at data embedding db) = after c db.
Proof.
  intros Hr. unfold addChunk_at. destruct embedding as [vector|].
  - exists (AddChunk data vector). unfold after.
    destruct (addChunk data vector db) as [db' [k | e]]; reflexivity.
  - exists (AddChunk data []). apply insert_chunk_call. exact Hr.
Qed.

Lemma storeChunks_calls (docId : Z) (embeddings : list (Float32Array scalar))
    (rest : list Chunker.Chunk) (i : nat) (db : Database scalar) :
  reachable db ->
  exists cs, fst (storeChunks docId embeddings i rest db) = after_all cs db.
Proof.
  revert i db. induction rest as [|chunk rest IH]; intros i db Hr; simpl.
  - exists []. reflexivity.
  - destruct (addChunk_at_call (chunk_data docId chunk)
                (nth_error embeddings i) db Hr) as (c & Ec).
    destruct (addChunk_at _ _ db) as [db' [|]]; simpl in Ec.
    + exists [c]. simpl. exact Ec.
    + subst db'. destruct (IH (S i) (after c db) (reachable_call c Hr))
        as (cs & Ecs).
      exists (c :: cs). simpl. exact Ecs.
Qed.

Lemma embed_and_store_calls (file : jsstring) (chunks : list Chunker.Chunk)
    (docId : Z) (db : Database scalar) :
  reachable db ->
  exists cs,
    fst (embed_and_store embedBatch file chunks docId db) = after_all cs db.
Proof.
  intros Hr. unfold embed_and_store. destruct chunks as [|c chunks].
  - exists []. reflexivity.
  - destruct (embedBatch file _) as [embeddings|].
    + apply storeChunks_calls. exact Hr.
    + exists []. reflexivity.
Qed.

Lemma update_file_calls (force : bool) (st : Database scalar * Tally)
    (file : jsstring) :
  reachable (fst st) ->
  exists cs,
    fst (update_file cwd read md5 embedBatch unixepoch force st file)
    = after_all cs (fst st).
Proof.
  destruct st as [db n]. simpl. intros Hr. unfold update_file.
  destruct (read (join cwd file)) as [[content mtimeMs]|];
    [|exists []; reflexivity].
  destruct (negb (force || documentNeedsUpdate file (md5 content) db));
    [exists []; reflexivity|].
  assert (H1 : exists cs1 n1,
            match getDocumentByPath file db with
            | Some doc => (deleteDocumentChunks (id doc) db, updated_up n)
            | None => (db, added_up n)
            end = (after_all cs1 db, n1)).
  { destruct (getDocumentByPath file db) as [doc|].
    - exists [DeleteDocumentChunks (id doc)], (updated_up n). reflexivity.
    - exists [], (added_up n). reflexivity. }
  destruct H1 as (cs1 & n1 & E1). rewrite E1.
  set (meta := metadata_of md5 file content mtimeMs).
  pose proof (reachable_after_all cs1 Hr) as Hr1.
  pose proof (reachable_call (UpsertDocument (unixepoch file) meta) Hr1) as Hr2.
  unfold after in Hr2.
  destruct (upsertDocument (unixepoch file) meta (after_all cs1 db))
    as [db2 docId] eqn:E2.
  simpl in Hr2.
  destruct (embed_and_store_calls file
              (Chunker.chunkMarkdown content Chunker.no_options) docId db2 Hr2)
    as (cs3 & E3).
  exists (cs1 ++ UpsertDocument (unixepoch file) meta :: cs3).
  rewrite after_all_app.
  change (after_all (UpsertDocument (unixepoch file) meta :: cs3)
            (after_all cs1 db))
    with (after_all cs3
            (fst (upsertDocument (unixepoch file) meta (after_all cs1 db)))).
  rewrite E2.
  destruct (embed_and_store embedBatch file _ docId db2) as [db3 [|]];
    simpl in *; exact E3.
Qed.

Lemma update_files_calls (force : bool) (files : list jsstring)
    (st : Database scalar * Tally) :
  reachable (fst st) ->
  exists cs,
    fst (update_files cwd read md5 embedBatch unixepoch force files st)
    = after_all cs (fst st).
Proof.
  unfold update_files. revert st.
  induction files as [|file files IH]; intros st Hr; simpl.
  - exists []. reflexivity.
  - destruct (update_file_calls force st file Hr) as (cs & E).
    destruct (IH (update_file cwd read md5 embedBatch unixepoch force st file))
      as (cs' & E').
    { rewrite E. apply reachable_after_all. exact Hr. }
    exists (cs ++ cs'). rewrite after_all_app, <- E. exact E'.
Qed.

Lemma deleteRemoved_calls (files : list jsstring) (db : Database scalar) :
  fst (deleteRemoved files db)
  = after_all (map (fun doc => DeleteDocumentChunks (id doc)) (toDelete files db))
              db.
Proof.
  unfold deleteRemoved. rewrite deleteRemoved_fold.
  generalize (toDelete files db). intros l. revert db.
  induction l as [|doc l IH]; intros db; simpl; [reflexivity|].
  apply IH.
Qed.

Lemma init_file_calls (st : Database scalar * InitTally) (file : jsstring) :
  reachable (fst st) ->
  exists cs,
    fst (init_file cwd read md5 embedBatch unixepoch st file)
    = after_all cs (fst st).
Proof.
  destruct st as [db n]. simpl. intros Hr. unfold init_file.
  destruct (read (join cwd file)) as [[content mtimeMs]|];
    [|exists []; reflexivity].
  set (meta := metadata_of md5 file content mtimeMs).
  pose proof (reachable_call (UpsertDocument (unixepoch file) meta) Hr) as Hr2.
  unfold after in Hr2.
  destruct (upsertDocument (unixepoch file) meta db) as [db2 docId] eqn:E2.
  simpl in Hr2.
  destruct (embed_and_store_calls file
              (Chunker.chunkMarkdown content Chunker.no_options) docId db2 Hr2)
    as (cs3 & E3).
  exists (UpsertDocument (unixepoch file) meta :: cs3).
  change (after_all (UpsertDocument (unixepoch file) meta :: cs3) db)
    with (after_all cs3 (fst (upsertDocument (unixepoch file) meta db))).
  rewrite E2.
  destruct (embed_and_store embedBatch file _ docId db2) as [db3 [|]];
    simpl in *; [exact E3|].
  destruct (Chunker.chunkMarkdown content Chunker.no_options); exact E3.
Qed.

Lemma init_fold_calls (files : list jsstring) (st : Database scalar * InitTally) :
  reachable (fst st) ->
  exists cs,
    fst (fold_left (init_file cwd read md5 embedBatch unixepoch) files st)
    = after_all cs (fst st).
Proof.
  revert st. induction files as [|file files IH]; intros st Hr; simpl.
  - exists []. reflexivity.
  - destruct (init_file_calls st file Hr) as (cs & E).
    destruct (IH (init_file cwd read md5 embedBatch unixepoch st file))
      as (cs' & E').
    { rewrite E. apply reachable_after_all. exact Hr. }
    exists (cs ++ cs'). rewrite after_all_app, <- E. exact E'.
Qed.

(** ** The body of the loop of [updateCommand], step by step *)

Lemma update_file_steps (force : bool) (db : Database scalar) (n : Tally)
    (file content : jsstring) (mtimeMs : Z) :
  read (join cwd file) = Some (content, mtimeMs) ->
  force || documentNeedsUpdate file (md5 content) db = true ->
  let meta := metadata_of md5 file content mtimeMs in
  let db1 := match getDocumentByPath file db with
             | Some doc => deleteDocumentChunks (id doc) db
             | None => db
             end in
  let n1 := match getDocumentByPath file db with
            | Some _ => updated_up n
            | None => added_up n
            end in
  let up := upsertDocument (unixepoch file) meta db1 in
  let stored := embed_and_store embedBatch file
                  (Chunker.chunkMarkdown content Chunker.no_options)
                  (snd up) (fst up) in
  update_file cwd read md5 embedBatch unixepoch force (db, n) file
  = (fst stored, if snd stored then errors_up n1 else n1).
Proof.
  intros Hread Hneed meta db1 n1 up stored.
  subst stored up n1 db1 meta. unfold update_file. rewrite Hread, Hneed.
  cbn [negb].
  destruct (getDocumentByPath file db) as [doc|];
    destruct (upsertDocument _ _ _) as [db2 docId]; cbn [fst snd];
    destruct (embed_and_store _ _ _ _ _) as [db3 [|]]; reflexivity.
Qed.

Lemma found_document_present (path : jsstring) (db : Database scalar)
    (doc : DocumentWithId) :
  getDocumentByPath path db = Some doc -> has_document (id doc) db = true.
Proof.
  unfold getDocumentByPath. destruct (document_at path db) as [row|] eqn:E;
    simpl; [|discriminate].
  intros H. injection H as <-. simpl.
  apply document_at_some in E. destruct E as [Hin _].
  unfold has_document. apply existsb_exists. exists row.
  split; [exact Hin | apply Z.eqb_refl].
Qed.

Lemma chunks_of_other (docId other : Z) (db : Database scalar) :
  other <> docId ->
  chunks_of other (deleteDocumentChunks docId db) = chunks_of other db.
Proof.
  intros Hne. unfold chunks_of, deleteDocumentChunks. simpl.
  rewrite filter_filter. apply filter_ext. intros c. unfold of_document.
  destruct (c_document_id c =? docId)%Z eqn:E1,
           (c_document_id c =? other)%Z eqn:E2; try reflexivity.
  apply Z.eqb_eq in E1, E2. congruence.
Qed.

Lemma chunks_of_deleted (docId : Z) (db : Database scalar) :
  chunks_of docId (deleteDocumentChunks docId db) = [].
Proof.
  unfold chunks_of, deleteDocumentChunks. simpl.
  rewrite filter_filter. apply filter_none. intros c _.
  destruct (of_document docId c); reflexivity.
Qed.

Lemma chunks_of_next_document (db : Database scalar) :
  sound db -> chunks_of (documents_seq db + 1) db = [].
Proof.
  intros Hs. unfold chunks_of. apply filter_none. intros c Hin.
  pose proof (sound_parents Hs) as Hpar. rewrite Forall_forall in Hpar.
  specialize (Hpar c Hin). unfold has_document in Hpar.
  apply existsb_exists in Hpar. destruct Hpar as (d & Hd & E).
  apply Z.eqb_eq in E.
  pose proof (sound_documents_seq Hs) as Hseq. rewrite Forall_forall in Hseq.
  specialize (Hseq d Hd). unfold of_document. apply Z.eqb_neq. lia.
Qed.

(** The document of a file once its old chunks are deleted and
    [upsertDocument] has run. *)
Lemma document_replaced (now : Z) (meta : DocumentMetadata)
    (db : Database scalar) :
  reachable db ->
  let db1 := match getDocumentByPath (filePath meta) db with
             | Some doc => deleteDocumentChunks (id doc) db
             | None => db
             end in
  let db2 := fst (upsertDocument now meta db1) in
  let docId := snd (upsertDocument now meta db1) in
  reachable db2
  /\ has_document docId db2 = true
  /\ chunks_of docId db2 = []
  /\ (forall other, other <> docId -> chunks_of other db2 = chunks_of other db)
  /\ embeddingDimension db2 = embeddingDimension db
  /\ (paired db -> paired db2).
Proof.
  intros Hr db1 db2 docId.
  assert (Hr1 : reachable db1).
  { subst db1. destruct (getDocumentByPath (filePath meta) db) as [doc|].
    - apply (reachable_call (DeleteDocumentChunks (id doc)) Hr).
    - exact Hr. }
  assert (Hr2 : reachable db2).
  { apply (reachable_call (UpsertDocument now meta) Hr1). }
  destruct (upsertDocument_tables now meta db1) as (Ec & _ & _ & Ed).
  fold db2 in Ec, Ed.
  split; [exact Hr2 | split; [|split; [|split; [|split]]]].
  - apply (found_document_present (filePath meta) db2
             {| id := docId; meta := meta |}).
    apply get_after_upsert.
  - unfold chunks_of. rewrite Ec. subst docId db1.
    destruct (getDocumentByPath (filePath meta) db) as [doc|] eqn:Hget.
    + assert (Hget' : getDocumentByPath (filePath meta)
                        (deleteDocumentChunks (id doc) db) = Some doc).
      { rewrite <- Hget. apply getDocumentByPath_documents. reflexivity. }
      destruct (upsert_existing _ now meta _ _ Hget') as (-> & _).
      apply chunks_of_deleted.
    + unfold upsertDocument. unfold getDocumentByPath in Hget.
      destruct (document_at (filePath meta) db); [discriminate|]. simpl.
      apply chunks_of_next_document. apply reachable_sound. exact Hr.
  - intros other Hne. unfold chunks_of. rewrite Ec. subst docId db1.
    destruct (getDocumentByPath (filePath meta) db) as [doc|] eqn:Hget;
      [|reflexivity].
    assert (Hget' : getDocumentByPath (filePath meta)
                      (deleteDocumentChunks (id doc) db) = Some doc).
    { rewrite <- Hget. apply getDocumentByPath_documents. reflexivity. }
    destruct (upsert_existing _ now meta _ _ Hget') as (E & _).
    rewrite E in Hne. apply chunks_of_other. exact Hne.
  - rewrite Ed. subst db1.
    destruct (getDocumentByPath (filePath meta) db); reflexivity.
  - intros Hp.
    assert (Hp1 : paired db1).
    { subst db1. destruct (getDocumentByPath (filePath meta) db) as [doc|].
      - apply (after_paired (DeleteDocumentChunks (id doc))
                 (reachable_consistent Hr) I Hp).
      - exact Hp. }
    apply (after_paired (UpsertDocument now meta)
             (reachable_consistent Hr1) I Hp1).
Qed.

(** ** Storing the chunks when every vector is there and has the
    declared length *)

Lemma skipn_head {A : Type} (i : nat) (l : list A) (a : A) (rest : list A) :
  skipn i l = a :: rest -> nth_error l i = Some a /\ skipn (S i) l = rest.
Proof.
  revert l. induction i as [|i IH]; intros l E.
  - simpl in E. subst l. auto.
  - destruct l as [|x l]; [discriminate|]. simpl in E. apply IH in E.
    exact E.
Qed.

Lemma storeChunks_sized (docId : Z) (es : list (Float32Array scalar))
    (rest : list Chunker.Chunk) (i : nat) (db : Database scalar) :
  consistent db -> has_document docId db = true ->
  (length rest <= length (skipn i es))%nat ->
  Forall (fun v => len_list v = embeddingDimension db)
         (firstn (length rest) (skipn i es)) ->
  exists rows erows,
    snd (storeChunks docId es i rest db) = false
    /\ chunks (fst (storeChunks docId es i rest db)) = chunks db ++ rows
    /\ embeddings (fst (storeChunks docId es i rest db)) = embeddings db ++ erows
    /\ map row_data rows = map (chunk_data docId) rest
    /\ map (@e_chunk_id scalar) erows = map c_id rows
    /\ map (@e_embedding scalar) erows = firstn (length rest) (skipn i es)
    /\ Forall (fun r => (chunks_seq db < c_id r)%Z) rows.
Proof.
  revert i db. induction rest as [|chunk rest IH];
    intros i db Hcons Hdoc Hlen Hsized.
  - exists [], []. simpl. rewrite !app_nil_r. repeat split; constructor.
  - simpl in Hlen, Hsized.
    destruct (skipn i es) as [|v tail] eqn:Eskip; [simpl in Hlen; lia|].
    destruct (skipn_head i es v tail Eskip) as [Hnth Etail].
    simpl in Hlen. apply Forall_cons_iff in Hsized.
    destruct Hsized as [Hv Hsized'].
    cbn [storeChunks]. rewrite Hnth. unfold addChunk_at.
    destruct (addChunk_cases (chunk_data docId chunk) v db
                (embedding_ids_bounded Hcons))
      as [(Hfk & _) | [(_ & Hne & _) | (_ & _ & E)]].
    + unfold foreign_key_violated in Hfk. simpl in Hfk.
      rewrite Hdoc, andb_false_r in Hfk. discriminate.
    + contradiction.
    + rewrite E.
      set (r := new_chunk (chunk_data docId chunk) (chunks_seq db + 1)).
      set (e := {| e_chunk_id := (chunks_seq db + 1)%Z; e_embedding := v |}).
      set (db' := with_embeddings
                    (with_chunks db (chunks db ++ [r]) (chunks_seq db + 1))
                    (embeddings db ++ [e])).
      assert (Hcons' : consistent db').
      { pose proof (after_consistent (AddChunk (chunk_data docId chunk) v) Hcons)
          as H.
        unfold after in H. rewrite E in H. exact H. }
      destruct (IH (S i) db' Hcons' Hdoc) as (rows & erows & H1 & H2 & H3 & H4 & H5 & H6 & H7).
      { rewrite Etail. lia. }
      { rewrite Etail. exact Hsized'. }
      exists (r :: rows), (e :: erows).
      rewrite H1, H2, H3. simpl. rewrite <- !app_assoc. simpl.
      rewrite H4, H5, H6, Etail.
      repeat split; try reflexivity.
      constructor; [simpl; lia|].
      eapply Forall_impl; [|exact H7]. simpl. intros x Hx. lia.
Qed.




Lemma embeddings_of_none (docId : Z) (db : Database scalar) :
  chunks_of docId db = [] -> embeddings_of docId db = [].
Proof.
  intros Hnone. unfold embeddings_of, chunk_ids_of.
  unfold chunks_of in Hnone. rewrite Hnone. simpl.
  apply filter_none. reflexivity.
Qed.


(** ** New documents, one after the other *)

Lemma not_found_at (path : jsstring) (db : Database scalar) :
  ~ In path (map d_file_path (documents db)) -> document_at path db = None.
Proof.
  unfold document_at. induction (documents db) as [|d l IH]; simpl; intros H;
    [reflexivity|].
  destruct (jsstring_eqb (d_file_path d) path) eqn:E.
  - apply jsstring_eqb_eq in E. tauto.
  - apply IH. tauto.
Qed.

Lemma upsert_new_path now meta (db : Database scalar) :
  ~ In (filePath meta) (map d_file_path (documents db)) ->
  map d_file_path (documents (fst (upsertDocument now meta db)))
  = map d_file_path (documents db) ++ [filePath meta].
Proof.
  intros Hnew. unfold upsertDocument. rewrite (not_found_at _ _ Hnew). simpl.
  rewrite map_app. reflexivity.
Qed.

Lemma init_file_paths (st : Database scalar * InitTally) (file : jsstring) :
  ~ In file (map d_file_path (documents (fst st))) ->
  map d_file_path
      (documents (fst (init_file cwd read md5 embedBatch unixepoch st file)))
  = map d_file_path (documents (fst st))
    ++ (if readable cwd read file then [file] else []).
Proof.
  destruct st as [db n]. simpl. intros Hnew. unfold init_file, readable.
  destruct (read (join cwd file)) as [[content mtimeMs]|];
    [|simpl; rewrite app_nil_r; reflexivity].
  pose proof (upsert_new_path (unixepoch file)
                (metadata_of md5 file content mtimeMs) db Hnew) as Hup.
  destruct (upsertDocument (unixepoch file)
              (metadata_of md5 file content mtimeMs) db) as [db2 docId].
  simpl in Hup.
  pose proof (embed_and_store_documents file
                (Chunker.chunkMarkdown content Chunker.no_options) docId db2)
    as Hdocs.
  destruct (embed_and_store embedBatch file _ docId db2) as [db3 [|]];
    simpl in Hdocs.
  - simpl. rewrite Hdocs. exact Hup.
  - destruct (Chunker.chunkMarkdown content Chunker.no_options); simpl;
      rewrite Hdocs; exact Hup.
Qed.

Lemma init_fold_paths (files : list jsstring) (st : Database scalar * InitTally) :
  NoDup files ->
  (forall file, In file files ->
     ~ In file (map d_file_path (documents (fst st)))) ->
  map d_file_path
      (documents
         (fst (fold_left (init_file cwd read md5 embedBatch unixepoch) files st)))
  = map d_file_path (documents (fst st)) ++ filter (readable cwd read) files.
Proof.
  revert st. induction files as [|file files IH]; intros st Hnd Hnew; simpl.
  - rewrite app_nil_r. reflexivity.
  - inversion Hnd as [|? ? Hfresh Hnd']; subst.
    pose proof (init_file_paths st file (Hnew file (or_introl eq_refl))) as Hstep.
    rewrite IH; [| exact Hnd' |].
    + rewrite Hstep. destruct (readable cwd read file); simpl.
      * rewrite <- app_assoc. reflexivity.
      * rewrite app_nil_r. reflexivity.
    + intros f Hf. rewrite Hstep. rewrite in_app_iff. intros [Hin | Hin].
      * apply (Hnew f (or_intror Hf)). exact Hin.
      * destruct (readable cwd read file); [|exact Hin].
        destruct Hin as [<- | []]. contradiction.
Qed.

(** X16.  A file that can be read and has been through the loop of
    [updateCommand] once, with or without [--force], is skipped by the
    loop the next time when [--force] is not given: the store stays as
    it is and only [skipped] grows.  This holds whether or not the
    chunks of the file were stored the first time. *)
Theorem update_file_then_skipped (force : bool) (st : Database scalar * Tally)
    (file content : jsstring) (mtimeMs : Z) :
  read (join cwd file) = Some (content, mtimeMs) ->
  let st' := update_file cwd read md5 embedBatch unixepoch force st file in
  update_file cwd read md5 embedBatch unixepoch false st' file
  = (fst st', skipped_up (snd st')).
Proof.
  intros Hread st'.
  pose proof (update_file_fresh force st file content mtimeMs Hread) as Hfresh.
  fold st' in Hfresh. destruct st' as [db' n'].
  apply (update_file_skips db' n' file content mtimeMs Hread Hfresh).
Qed.


(** X18.  The loop of [updateCommand] on a file that is new or has
    changed and has chunks, when [embedBatch] rejects: an error is
    counted, the document of the file holds the new hash and has no
    chunk, and [documentNeedsUpdate] no longer reports the file. *)
Theorem update_file_embedding_rejected (force : bool) (db : Database scalar)
    (n : Tally) (file content : jsstring) (mtimeMs : Z) :
  let chunks := Chunker.chunkMarkdown content Chunker.no_options in
  reachable db ->
  read (join cwd file) = Some (content, mtimeMs) ->
  force || documentNeedsUpdate file (md5 content) db = true ->
  chunks <> [] ->
  embedBatch file (map Chunker.content chunks) = None ->
  let st' := update_file cwd read md5 embedBatch unixepoch force (db, n) file in
  exists docId,
    getDocumentByPath file (fst st')
    = Some {| id := docId; meta := metadata_of md5 file content mtimeMs |}
    /\ chunks_of docId (fst st') = []
    /\ documentNeedsUpdate file (md5 content) (fst st') = false
    /\ errors (snd st') = (errors n + 1)%Z.
Proof.
  intros chunks Hr Hread Hneed Hsome Hnone st'.
  pose proof (update_file_fresh force (db, n) file content mtimeMs Hread)
    as Hfresh.
  fold st' in Hfresh. subst st'. revert Hfresh.
  rewrite (update_file_steps force db n file content mtimeMs Hread Hneed).
  cbv zeta. fold chunks.
  set (meta := metadata_of md5 file content mtimeMs).
  destruct (document_replaced (unixepoch file) meta db Hr)
    as (_ & _ & Hempty & _).
  change (filePath meta) with file in *.
  set (db1 := match getDocumentByPath file db with
              | Some doc => deleteDocumentChunks (id doc) db
              | None => db
              end) in *.
  set (up := upsertDocument (unixepoch file) meta db1) in *.
  pose proof (get_after_upsert _ (unixepoch file) meta db1) as Hget.
  fold up in Hget. change (filePath meta) with file in Hget.
  unfold embed_and_store. clearbody chunks.
  destruct chunks as [|c chunks]; [congruence|].
  rewrite Hnone. cbn [fst snd]. intros Hfresh. exists (snd up).
  split; [exact Hget | split; [exact Hempty | split; [exact Hfresh|]]].
  destruct (getDocumentByPath file db); reflexivity.
Qed.

(** X19.  Whatever the files and the provider do, the two loops of
    [updateCommand] and the loop of [initCommand] take a store that
    calls have made to a store that calls of [upsertDocument],
    [addChunk] and [deleteDocumentChunks] make of it. *)
Theorem loops_by_calls (force : bool) (files : list jsstring)
    (db : Database scalar) :
  reachable db ->
  (exists cs,
     fst (update_store cwd read md5 embedBatch unixepoch force files db)
     = after_all cs db)
  /\ (exists cs,
        fst (init_files cwd read md5 embedBatch unixepoch files db)
        = after_all cs db).
Proof.
  intros Hr. split.
  - unfold update_store.
    destruct (update_files_calls force files
                (fst (deleteRemoved files db),
                 {| added := 0; updated := 0; skipped := 0; errors := 0 |}))
      as (cs & E).
    { simpl. rewrite deleteRemoved_calls. apply reachable_after_all. exact Hr. }
    eexists. rewrite E. cbn [fst].
    rewrite deleteRemoved_calls, <- after_all_app. reflexivity.
  - unfold init_files. apply (init_fold_calls files
      (db, {| totalChunks := 0; processedFiles := 0; init_errors := 0 |}) Hr).
Qed.

(** X20.  After the loop of [initCommand] over files that are all
    different, on a store that has just been opened, the documents
    are the files that could be read, in the order of the loop. *)
Theorem init_files_documents (dimension : Z) (files : list jsstring)
    (db : Database scalar) :
  open scalar dimension = Some db -> NoDup files ->
  map (fun d => filePath (meta d))
      (getAllDocuments
         (fst (init_files cwd read md5 embedBatch unixepoch files db)))
  = filter (readable cwd read) files.
Proof.
  intros Hopen Hnd. unfold getAllDocuments. rewrite map_map. simpl.
  assert (Hnone : documents db = []).
  { unfold open in Hopen. destruct (0 <? dimension)%Z; [|discriminate].
    injection Hopen as <-. reflexivity. }
  unfold init_files. rewrite init_fold_paths; [|exact Hnd|].
  - simpl. rewrite Hnone. reflexivity.
  - simpl. rewrite Hnone. intros file _ [].
Qed.

(** ** Chunks are added to the document of the file only *)

Lemma insert_chunk_rows (data : ChunkData) (db : Database scalar) :
  exists rows,
    chunks (fst (insert_chunk data db)) = chunks db ++ rows
    /\ Forall (fun r => c_document_id r = documentId data) rows.
Proof.
  unfold insert_chunk. destruct (foreign_key_violated data db); simpl.
  - exists []. rewrite app_nil_r. auto.
  - eexists [_]. split; [reflexivity|]. repeat constructor.
Qed.

Lemma addChunk_rows (data : ChunkData) (vector : Float32Array scalar)
    (db : Database scalar) :
  exists rows,
    chunks (fst (addChunk data vector db)) = chunks db ++ rows
    /\ Forall (fun r => c_document_id r = documentId data) rows.
Proof.
  unfold addChunk, insert_chunk, insert_embedding.
  destruct (foreign_key_violated data db); simpl.
  - exists []. rewrite app_nil_r. auto.
  - exists [new_chunk data (chunks_seq db + 1)].
    split; [|repeat constructor].
    destruct (negb (len_list vector =? embeddingDimension db)%Z); simpl;
      [reflexivity|].
    match goal with |- context [if ?b then _ else _] => destruct b end;
      reflexivity.
Qed.

Lemma addChunk_at_rows (data : ChunkData)
    (embedding : option (Float32Array scalar)) (db : Database scalar) :
  exists rows,
    chunks (fst (addChunk_at data embedding db)) = chunks db ++ rows
    /\ Forall (fun r => c_document_id r = documentId data) rows.
Proof.
  unfold addChunk_at. destruct embedding as [vector|].
  - destruct (addChunk_rows data vector db) as (rows & E & H).
    exists rows. split; [|exact H].
    destruct (addChunk data vector db) as [db' [k | e]]; exact E.
  - apply insert_chunk_rows.
Qed.

Lemma storeChunks_rows (docId : Z) (embeddings : list (Float32Array scalar))
    (rest : list Chunker.Chunk) (i : nat) (db : Database scalar) :
  exists rows,
    chunks (fst (storeChunks docId embeddings i rest db)) = chunks db ++ rows
    /\ Forall (fun r => c_document_id r = docId) rows.
Proof.
  revert i db. induction rest as [|chunk rest IH]; intros i db; simpl.
  - exists []. rewrite app_nil_r. auto.
  - destruct (addChunk_at_rows (chunk_data docId chunk)
                (nth_error embeddings i) db) as (rows & E & H).
    simpl in H.
    destruct (addChunk_at _ _ db) as [db' [|]]; simpl in E.
    + exists rows. auto.
    + destruct (IH (S i) db') as (rows' & E' & H').
      exists (rows ++ rows'). rewrite E', E, app_assoc.
      split; [reflexivity | apply Forall_app; auto].
Qed.

Lemma embed_and_store_rows (file : jsstring) (chunks' : list Chunker.Chunk)
    (docId : Z) (db : Database scalar) :
  exists rows,
    chunks (fst (embed_and_store embedBatch file chunks' docId db))
    = chunks db ++ rows
    /\ Forall (fun r => c_document_id r = docId) rows.
Proof.
  unfold embed_and_store. destruct chunks' as [|c chunks'].
  - exists []. rewrite app_nil_r. auto.
  - destruct (embedBatch file _) as [embeddings|].
    + apply storeChunks_rows.
    + exists []. rewrite app_nil_r. auto.
Qed.

Lemma rows_of_another (docId other : Z) (rows : list chunk_row) :
  other <> docId ->
  Forall (fun r => c_document_id r = docId) rows ->
  filter (of_document other) rows = [].
Proof.
  intros Hne H. apply filter_none. intros r Hin.
  rewrite Forall_forall in H. unfold of_document. rewrite (H r Hin).
  apply Z.eqb_neq. congruence.
Qed.

(** ** The keys and paths of the documents *)

Lemma upsert_keys now meta (db : Database scalar) :
  exists more,
    document_keys (fst (upsertDocument now meta db)) = document_keys db ++ more
    /\ Forall (fun k => snd k = filePath meta) more.
Proof.
  unfold document_keys, upsertDocument.
  destruct (document_at (filePath meta) db) as [d|]; simpl.
  - exists []. rewrite app_nil_r. split; [|constructor].
    rewrite map_map. apply map_ext. intros r.
    rewrite update_document_id, update_document_path. reflexivity.
  - eexists [_]. rewrite map_app. split; [reflexivity|].
    repeat constructor.
Qed.

Lemma key_of_row (db : Database scalar) (i : Z) (path : jsstring) :
  In (i, path) (document_keys db) ->
  exists d, In d (documents db) /\ d_id d = i /\ d_file_path d = path.
Proof.
  unfold document_keys. intros H. apply in_map_iff in H.
  destruct H as (d & E & Hin). injection E as <- <-. exists d. auto.
Qed.

Lemma upsert_another_key now meta (db : Database scalar) (i : Z)
    (path : jsstring) :
  sound db -> In (i, path) (document_keys db) -> path <> filePath meta ->
  i <> snd (upsertDocument now meta db).
Proof.
  intros Hs Hin Hne. destruct (key_of_row db i path Hin) as (d & Hd & <- & <-).
  unfold upsertDocument.
  destruct (document_at (filePath meta) db) as [r|] eqn:Hat; simpl.
  - apply document_at_some in Hat. destruct Hat as [Hr Hp].
    intros E. apply Hne. rewrite <- Hp. f_equal.
    apply (keyed_rows_equal d_id (documents db) d r
             (sound_document_ids Hs) Hd Hr E).
  - pose proof (sound_documents_seq Hs) as Hseq.
    rewrite Forall_forall in Hseq. specialize (Hseq d Hd). lia.
Qed.

Lemma document_at_other now meta (db : Database scalar) (path : jsstring) :
  sound db -> path <> filePath meta ->
  document_at path (fst (upsertDocument now meta db)) = document_at path db.
Proof.
  intros Hs Hne. unfold upsertDocument.
  destruct (document_at (filePath meta) db) as [d|] eqn:Hat; simpl.
  - apply document_at_some in Hat. destruct Hat as [Hd Hp].
    unfold document_at. simpl. apply find_map_same.
    + intros r. rewrite update_document_path. reflexivity.
    + intros r Hin Hrp. apply jsstring_eqb_eq in Hrp.
      unfold update_document. destruct (d_id r =? d_id d)%Z eqn:E; [|reflexivity].
      apply Z.eqb_eq in E.
      assert (r = d)
        by (apply (keyed_rows_equal d_id (documents db) r d
                     (sound_document_ids Hs) Hin Hd E)).
      subst r. congruence.
  - unfold document_at. simpl. rewrite find_after.
    destruct (find _ (documents db)); [reflexivity|]. simpl.
    rewrite jsstring_eqb_neq by congruence. reflexivity.
Qed.

(** ** What the loop does to the other documents *)

Lemma old_document_reachable (db : Database scalar) (path : jsstring) :
  reachable db ->
  reachable match getDocumentByPath path db with
            | Some doc => deleteDocumentChunks (id doc) db
            | None => db
            end.
Proof.
  intros Hr. destruct (getDocumentByPath path db) as [doc|].
  - apply (reachable_call (DeleteDocumentChunks (id doc)) Hr).
  - exact Hr.
Qed.

Lemma old_document_documents (db : Database scalar) (path : jsstring) :
  documents match getDocumentByPath path db with
            | Some doc => deleteDocumentChunks (id doc) db
            | None => db
            end = documents db.
Proof. destruct (getDocumentByPath path db); reflexivity. Qed.

Lemma update_file_other_chunks (force : bool) (db : Database scalar) (n : Tally)
    (file : jsstring) (i : Z) (path : jsstring) :
  reachable db -> In (i, path) (document_keys db) -> path <> file ->
  chunks_of i (fst (update_file cwd read md5 embedBatch unixepoch force (db, n) file))
  = chunks_of i db.
Proof.
  intros Hr Hin Hne.
  destruct (read (join cwd file)) as [[content mtimeMs]|] eqn:Hread;
    [|unfold update_file; rewrite Hread; reflexivity].
  destruct (force || documentNeedsUpdate file (md5 content) db) eqn:Hneed;
    [|unfold update_file; rewrite Hread, Hneed; reflexivity].
  rewrite (update_file_steps force db n file content mtimeMs Hread Hneed).
  cbv zeta. cbn [fst].
  set (meta := metadata_of md5 file content mtimeMs).
  destruct (document_replaced (unixepoch file) meta db Hr)
    as (_ & _ & _ & Hothers & _).
  change (filePath meta) with file in *.
  pose proof (old_document_reachable db file Hr) as Hr1.
  pose proof (old_document_documents db file) as Hd1.
  set (db1 := match getDocumentByPath file db with
              | Some doc => deleteDocumentChunks (id doc) db
              | None => db
              end) in *.
  assert (Hi : i <> snd (upsertDocument (unixepoch file) meta db1)).
  { apply (upsert_another_key (unixepoch file) meta db1 i path).
    - apply reachable_sound. exact Hr1.
    - unfold document_keys. rewrite Hd1. exact Hin.
    - exact Hne. }
  set (up := upsertDocument (unixepoch file) meta db1) in *.
  destruct (embed_and_store_rows file
              (Chunker.chunkMarkdown content Chunker.no_options)
              (snd up) (fst up)) as (rows & E & Hrows).
  unfold chunks_of at 1. rewrite E, filter_app.
  rewrite (rows_of_another (snd up) i rows Hi Hrows), app_nil_r.
  apply Hothers. exact Hi.
Qed.

Lemma update_file_keys (force : bool) (db : Database scalar) (n : Tally)
    (file : jsstring) :
  exists more,
    document_keys
      (fst (update_file cwd read md5 embedBatch unixepoch force (db, n) file))
    = document_keys db ++ more
    /\ Forall (fun k => snd k = file) more.
Proof.
  destruct (read (join cwd file)) as [[content mtimeMs]|] eqn:Hread;
    [|unfold update_file; rewrite Hread; exists []; rewrite app_nil_r; auto].
  destruct (force || documentNeedsUpdate file (md5 content) db) eqn:Hneed;
    [|unfold update_file; rewrite Hread, Hneed; exists [];
      rewrite app_nil_r; auto].
  rewrite (update_file_steps force db n file content mtimeMs Hread Hneed).
  cbv zeta. cbn [fst].
  set (meta := metadata_of md5 file content mtimeMs).
  pose proof (old_document_documents db file) as Hd1.
  set (db1 := match getDocumentByPath file db with
              | Some doc => deleteDocumentChunks (id doc) db
              | None => db
              end) in *.
  destruct (upsert_keys (unixepoch file) meta db1) as (more & E & Hmore).
  exists more. split; [|exact Hmore].
  unfold document_keys in *. rewrite embed_and_store_documents, E, Hd1.
  reflexivity.
Qed.

Lemma update_file_other_document (force : bool) (db : Database scalar)
    (n : Tally) (file path : jsstring) :
  reachable db -> path <> file ->
  document_at path
    (fst (update_file cwd read md5 embedBatch unixepoch force (db, n) file))
  = document_at path db.
Proof.
  intros Hr Hne.
  destruct (read (join cwd file)) as [[content mtimeMs]|] eqn:Hread;
    [|unfold update_file; rewrite Hread; reflexivity].
  destruct (force || documentNeedsUpdate file (md5 content) db) eqn:Hneed;
    [|unfold update_file; rewrite Hread, Hneed; reflexivity].
  rewrite (update_file_steps force db n file content mtimeMs Hread Hneed).
  cbv zeta. cbn [fst].
  set (meta := metadata_of md5 file content mtimeMs).
  pose proof (old_document_reachable db file Hr) as Hr1.
  pose proof (old_document_documents db file) as Hd1.
  set (db1 := match getDocumentByPath file db with
              | Some doc => deleteDocumentChunks (id doc) db
              | None => db
              end) in *.
  unfold document_at at 1. rewrite embed_and_store_documents.
  change (document_at path (fst (upsertDocument (unixepoch file) meta db1))
          = document_at path db).
  rewrite (document_at_other (unixepoch file) meta db1 path
             (reachable_sound _ _ Hr1) Hne).
  unfold document_at. rewrite Hd1. reflexivity.
Qed.

Lemma update_file_reachable (force : bool) (st : Database scalar * Tally)
    (file : jsstring) :
  reachable (fst st) ->
  reachable (fst (update_file cwd read md5 embedBatch unixepoch force st file)).
Proof.
  intros Hr. destruct (update_file_calls force st file Hr) as (cs & E).
  rewrite E. apply reachable_after_all. exact Hr.
Qed.

(** ** The documents whose file is gone *)

Lemma listed_file (path : jsstring) (files : list jsstring) :
  existsb (jsstring_eqb path) files = true <-> In path files.
Proof.
  rewrite existsb_exists. split.
  - intros (f & Hin & E). apply jsstring_eqb_eq in E. subst f. exact Hin.
  - intros Hin. exists path. split; [exact Hin | apply jsstring_eqb_refl].
Qed.

Lemma deleteRemoved_purged (files : list jsstring) (db : Database scalar)
    (i : Z) (path : jsstring) :
  In (i, path) (document_keys db) -> ~ In path files ->
  chunks_of i (fst (deleteRemoved files db)) = [].
Proof.
  intros Hin Hgone. destruct (key_of_row db i path Hin) as (d & Hd & <- & <-).
  unfold chunks_of, deleteRemoved. rewrite deleteRemoved_fold, delete_all_chunks.
  rewrite filter_filter. apply filter_none. intros c _.
  destruct (of_document (d_id d) c) eqn:Hof; [|apply andb_false_r].
  unfold of_document in Hof. apply Z.eqb_eq in Hof.
  assert (Hm : mem (c_document_id c) (map (@id) (toDelete files db)) = true).
  { apply mem_In. rewrite Hof. apply in_map_iff.
    exists (row_to_document d). split; [reflexivity|].
    unfold toDelete. apply filter_In. split.
    - unfold getAllDocuments. apply in_map. exact Hd.
    - simpl. destruct (existsb _ files) eqn:E; [|reflexivity].
      apply listed_file in E. contradiction. }
  rewrite Hm. reflexivity.
Qed.

Lemma update_files_purged (force : bool) (files processed : list jsstring)
    (st : Database scalar * Tally) :
  reachable (fst st) -> incl processed files ->
  (forall i path, In (i, path) (document_keys (fst st)) -> ~ In path files ->
     chunks_of i (fst st) = []) ->
  forall i path,
    In (i, path)
       (document_keys
          (fst (update_files cwd read md5 embedBatch unixepoch force processed st))) ->
    ~ In path files ->
    chunks_of i
      (fst (update_files cwd read md5 embedBatch unixepoch force processed st))
    = [].
Proof.
  unfold update_files. revert st.
  induction processed as [|file processed IH]; intros st Hr Hincl Hinv; simpl.
  - exact Hinv.
  - apply IH.
    + apply update_file_reachable. exact Hr.
    + intros f Hf. apply Hincl. right. exact Hf.
    + destruct st as [db n]. simpl in Hr, Hinv. intros i path Hin Hgone.
      destruct (update_file_keys force db n file) as (more & E & Hmore).
      rewrite E in Hin. apply in_app_iff in Hin. destruct Hin as [Hin | Hin].
      * rewrite (update_file_other_chunks force db n file i path Hr Hin).
        -- apply (Hinv i path Hin Hgone).
        -- intros ->. apply Hgone. apply Hincl. left. reflexivity.
      * rewrite Forall_forall in Hmore. specialize (Hmore _ Hin).
        simpl in Hmore. subst path. elim Hgone. apply Hincl. left. reflexivity.
Qed.

Lemma update_store_purged (force : bool) (files : list jsstring)
    (db : Database scalar) (i : Z) (path : jsstring) :
  reachable db ->
  In (i, path)
     (document_keys
        (fst (update_store cwd read md5 embedBatch unixepoch force files db))) ->
  ~ In path files ->
  chunks_of i (fst (update_store cwd read md5 embedBatch unixepoch force files db))
  = [].
Proof.
  intros Hr. unfold update_store. apply update_files_purged.
  - simpl. rewrite deleteRemoved_calls. apply reachable_after_all. exact Hr.
  - apply incl_refl.
  - simpl. intros j p Hin Hgone. apply (deleteRemoved_purged files db j p).
    + unfold document_keys in *. unfold deleteRemoved in Hin.
      rewrite deleteRemoved_fold, delete_all_documents in Hin. exact Hin.
    + exact Hgone.
Qed.

(** ** A second pass *)

Lemma none_of_document (docId : Z) (rows : list chunk_row) :
  filter (of_document docId) rows = [] ->
  filter (fun c => negb (of_document docId c)) rows = rows.
Proof.
  induction rows as [|r rows IH]; simpl; [reflexivity|].
  destruct (of_document docId r); simpl; [discriminate|].
  intros H. rewrite IH by exact H. reflexivity.
Qed.

Lemma deleteDocumentChunks_none (docId : Z) (db : Database scalar) :
  chunks_of docId db = [] -> deleteDocumentChunks docId db = db.
Proof.
  unfold chunks_of, deleteDocumentChunks. intros Hnone.
  unfold with_chunks, with_embeddings. simpl.
  rewrite Hnone, (none_of_document docId (chunks db) Hnone). simpl.
  destruct db; reflexivity.
Qed.

Lemma deleteRemoved_settled (files : list jsstring) (db : Database scalar) :
  (forall doc, In doc (toDelete files db) -> chunks_of (id doc) db = []) ->
  fst (deleteRemoved files db) = db.
Proof.
  unfold deleteRemoved. rewrite deleteRemoved_fold.
  generalize (toDelete files db). intros l.
  induction l as [|doc l IH]; intros Hnone; simpl; [reflexivity|].
  rewrite deleteDocumentChunks_none by (apply Hnone; left; reflexivity).
  apply IH. intros d Hd. apply Hnone. right. exact Hd.
Qed.

Lemma update_files_fresh (force : bool) (files : list jsstring)
    (st : Database scalar * Tally) (file content : jsstring) (mtimeMs : Z) :
  reachable (fst st) ->
  read (join cwd file) = Some (content, mtimeMs) ->
  In file files \/ documentNeedsUpdate file (md5 content) (fst st) = false ->
  documentNeedsUpdate file (md5 content)
    (fst (update_files cwd read md5 embedBatch unixepoch force files st)) = false.
Proof.
  unfold update_files. intros Hr Hread. revert st Hr.
  induction files as [|g files IH]; intros st Hr Hcase; simpl.
  - destruct Hcase as [[] | H]. exact H.
  - apply IH; [apply update_file_reachable; exact Hr|].
    destruct (jsstring_eqb g file) eqn:Eg.
    + apply jsstring_eqb_eq in Eg. subst g. right.
      apply (update_file_fresh force st file content mtimeMs Hread).
    + apply jsstring_eqb_false in Eg.
      destruct Hcase as [[Hg | Hin] | Hfresh];
        [congruence | left; exact Hin | right].
      destruct st as [db n]. simpl in Hr, Hfresh.
      unfold documentNeedsUpdate in *.
      rewrite (update_file_other_document force db n g file Hr)
        by congruence.
      exact Hfresh.
Qed.

Lemma update_files_settled (files : list jsstring) (db : Database scalar)
    (n : Tally) :
  (forall file content mtimeMs,
     In file files -> read (join cwd file) = Some (content, mtimeMs) ->
     documentNeedsUpdate file (md5 content) db = false) ->
  fst (update_files cwd read md5 embedBatch unixepoch false files (db, n)) = db.
Proof.
  unfold update_files. revert n.
  induction files as [|file files IH]; intros n Hfresh; cbn [fold_left];
    [reflexivity|].
  assert (Hstep : exists n',
            update_file cwd read md5 embedBatch unixepoch false (db, n) file
            = (db, n')).
  { destruct (read (join cwd file)) as [[content mtimeMs]|] eqn:Hread.
    - exists (skipped_up n).
      apply (update_file_skips db n file content mtimeMs Hread).
      apply (Hfresh file content mtimeMs (or_introl eq_refl) Hread).
    - exists (errors_up n). unfold update_file. rewrite Hread. reflexivity. }
  destruct Hstep as (n' & ->). apply IH.
  intros f content mtimeMs Hin. apply Hfresh. right. exact Hin.
Qed.

(** ** The counters *)

Lemma update_file_tally (force : bool) (db : Database scalar) (n : Tally)
    (file : jsstring) :
  let n' := snd (update_file cwd read md5 embedBatch unixepoch force (db, n) file) in
  if readable cwd read file then
    (added n' + updated n' + skipped n' = added n + updated n + skipped n + 1
     /\ errors n <= errors n'
     /\ errors n' - (added n' + updated n') <= errors n - (added n + updated n))%Z
  else
    (added n' = added n /\ updated n' = updated n /\ skipped n' = skipped n
     /\ errors n' = errors n + 1)%Z.
Proof.
  unfold readable.
  destruct (read (join cwd file)) as [[content mtimeMs]|] eqn:Hread;
    [|unfold update_file; rewrite Hread; simpl; auto].
  destruct (force || documentNeedsUpdate file (md5 content) db) eqn:Hneed;
    [|unfold update_file; rewrite Hread, Hneed; simpl; lia].
  rewrite (update_file_steps force db n file content mtimeMs Hread Hneed).
  cbv zeta. cbn [snd].
  destruct (snd (embed_and_store _ _ _ _ _));
    destruct (getDocumentByPath file db); simpl; lia.
Qed.

Lemma update_files_tally (force : bool) (files : list jsstring)
    (st : Database scalar * Tally) :
  let n := snd st in
  let n' := snd (update_files cwd read md5 embedBatch unixepoch force files st) in
  let read_ok := Z.of_nat (length (filter (readable cwd read) files)) in
  let read_failed :=
    Z.of_nat (length (filter (fun f => negb (readable cwd read f)) files)) in
  (added n' + updated n' + skipped n'
   = added n + updated n + skipped n + read_ok
   /\ errors n + read_failed <= errors n'
   /\ errors n' - (added n' + updated n')
      <= errors n + read_failed - (added n + updated n))%Z.
Proof.
  unfold update_files. revert st.
  induction files as [|file files IH]; intros [db n]; cbn [fold_left].
  - simpl. lia.
  - pose proof (update_file_tally force db n file) as Hstep.
    destruct (update_file cwd read md5 embedBatch unixepoch force (db, n) file)
      as [db1 n1] eqn:E1.
    specialize (IH (db1, n1)). cbv zeta in IH, Hstep. cbn [snd] in *.
    cbn [filter]. destruct (readable cwd read file); cbn [negb length];
      rewrite ?Nat2Z.inj_succ; lia.
Qed.

(** X21.  After the two loops of [updateCommand], a document whose
    file is no longer among the files found has no chunk and no
    embedding left, and is still listed with its key and its path. *)
Theorem update_store_purges_removed (force : bool) (files : list jsstring)
    (db : Database scalar) (doc : DocumentWithId) :
  reachable db -> In doc (getAllDocuments db) ->
  ~ In (filePath (meta doc)) files ->
  let db' := fst (update_store cwd read md5 embedBatch unixepoch force files db) in
  chunks_of (id doc) db' = []
  /\ embeddings_of (id doc) db' = []
  /\ In (id doc, filePath (meta doc)) (document_keys db').
Proof.
  intros Hr Hdoc Hgone db'.
  assert (Hkey : In (id doc, filePath (meta doc)) (document_keys db)).
  { unfold getAllDocuments in Hdoc. apply in_map_iff in Hdoc.
    destruct Hdoc as (d & <- & Hd). unfold document_keys. simpl.
    apply (in_map (fun d => (d_id d, d_file_path d)) _ _ Hd). }
  assert (Hkey' : In (id doc, filePath (meta doc)) (document_keys db')).
  { subst db'. unfold update_store.
    destruct (update_files_calls force files
                (fst (deleteRemoved files db),
                 {| added := 0; updated := 0; skipped := 0; errors := 0 |}))
      as (cs & E).
    { simpl. rewrite deleteRemoved_calls. apply reachable_after_all. exact Hr. }
    rewrite E. cbn [fst]. rewrite deleteRemoved_calls, <- after_all_app.
    destruct (after_all_documents _
                (map (fun d => DeleteDocumentChunks (id d)) (toDelete files db)
                 ++ cs) db (reachable_consistent Hr)) as (more & Emore).
    unfold document_keys. rewrite Emore. apply in_app_iff. left. exact Hkey. }
  assert (Hnone : chunks_of (id doc) db' = []).
  { apply (update_store_purged force files db (id doc) (filePath (meta doc))
             Hr Hkey' Hgone). }
  split; [exact Hnone | split; [|exact Hkey']].
  apply embeddings_of_none. exact Hnone.
Qed.

(** X22.  The two loops of [updateCommand] settle: when the files on
    disk are as they were, a second run without [--force] leaves the
    store exactly as the first run left it, whatever failed during
    the first run. *)
Theorem update_store_settles (force : bool) (files : list jsstring)
    (db : Database scalar) :
  reachable db ->
  let db' := fst (update_store cwd read md5 embedBatch unixepoch force files db) in
  fst (update_store cwd read md5 embedBatch unixepoch false files db') = db'.
Proof.
  intros Hr db'.
  assert (Hr0 : reachable (fst (deleteRemoved files db))).
  { rewrite deleteRemoved_calls. apply reachable_after_all. exact Hr. }
  assert (Hdel : fst (deleteRemoved files db') = db').
  { apply deleteRemoved_settled. intros doc Hin.
    unfold toDelete in Hin. apply filter_In in Hin. destruct Hin as [Hin Hgone].
    apply negb_true_iff in Hgone.
    unfold getAllDocuments in Hin. apply in_map_iff in Hin.
    destruct Hin as (d & <- & Hd). simpl in *.
    apply (update_store_purged force files db (d_id d) (d_file_path d) Hr).
    - apply (in_map (fun d => (d_id d, d_file_path d)) _ _ Hd).
    - intros Hlisted. apply listed_file in Hlisted. congruence. }
  unfold update_store at 1. rewrite Hdel.
  apply update_files_settled. intros file content mtimeMs Hin Hread.
  subst db'. unfold update_store.
  apply (update_files_fresh force files
           (fst (deleteRemoved files db),
            {| added := 0; updated := 0; skipped := 0; errors := 0 |})
           file content mtimeMs Hr0 Hread).
  left. exact Hin.
Qed.

(** ** The pairing of chunks and embeddings along the loops *)

Lemma after_all_dimension (cs : list (call scalar)) (db : Database scalar) :
  reachable db ->
  embeddingDimension (after_all cs db) = embeddingDimension db.
Proof.
  revert db. induction cs as [|c cs IH]; intros db Hr; simpl; [reflexivity|].
  rewrite (IH (after c db) (reachable_call c Hr)).
  apply after_dimension. apply reachable_consistent. exact Hr.
Qed.

Lemma storeChunks_paired (docId : Z) (es : list (Float32Array scalar))
    (rest : list Chunker.Chunk) (db : Database scalar) :
  reachable db -> has_document docId db = true ->
  (length rest <= length es)%nat ->
  Forall (fun v => len_list v = embeddingDimension db)
         (firstn (length rest) es) ->
  paired db -> paired (fst (storeChunks docId es 0 rest db)).
Proof.
  intros Hr Hdoc Hlen Hsized [Hkeys _].
  destruct (storeChunks_sized docId es rest 0 db
              (reachable_consistent Hr) Hdoc Hlen Hsized)
    as (rows & erows & _ & H2 & H3 & _ & H5 & _).
  destruct (storeChunks_calls docId es rest 0 db Hr) as (cs & Ecs).
  split.
  - rewrite H2, H3, !map_app, Hkeys, H5. reflexivity.
  - rewrite Ecs.
    apply (chunk_ids_distinct
             (reachable_consistent (reachable_after_all cs Hr))).
Qed.

Lemma update_file_paired (force : bool) (db : Database scalar) (n : Tally)
    (file : jsstring) :
  reachable db -> paired db ->
  (forall texts es, embedBatch file texts = Some es ->
     (length texts <= length es)%nat
     /\ Forall (fun v => len_list v = embeddingDimension db)
               (firstn (length texts) es)) ->
  paired (fst (update_file cwd read md5 embedBatch unixepoch force (db, n) file)).
Proof.
  intros Hr Hp Hprovider.
  destruct (read (join cwd file)) as [[content mtimeMs]|] eqn:Hread;
    [|unfold update_file; rewrite Hread; exact Hp].
  destruct (force || documentNeedsUpdate file (md5 content) db) eqn:Hneed;
    [|unfold update_file; rewrite Hread, Hneed; exact Hp].
  rewrite (update_file_steps force db n file content mtimeMs Hread Hneed).
  cbv zeta. cbn [fst].
  set (meta := metadata_of md5 file content mtimeMs).
  destruct (document_replaced (unixepoch file) meta db Hr)
    as (Hr2 & Hdoc & _ & _ & Hdim & Hpaired).
  change (filePath meta) with file in *.
  set (db1 := match getDocumentByPath file db with
              | Some doc => deleteDocumentChunks (id doc) db
              | None => db
              end) in *.
  set (up := upsertDocument (unixepoch file) meta db1) in *.
  unfold embed_and_store.
  destruct (Chunker.chunkMarkdown content Chunker.no_options) as [|c chunks];
    [exact (Hpaired Hp)|].
  destruct (embedBatch file _) as [es|] eqn:Hes; [|exact (Hpaired Hp)].
  destruct (Hprovider _ es Hes) as [Hlen Hsized].
  rewrite length_map in Hlen, Hsized.
  apply storeChunks_paired; try assumption.
  - rewrite Hdim. exact Hsized.
  - exact (Hpaired Hp).
Qed.

Lemma update_files_paired (force : bool) (files : list jsstring)
    (st : Database scalar * Tally) :
  reachable (fst st) -> paired (fst st) ->
  (forall file texts es, embedBatch file texts = Some es ->
     (length texts <= length es)%nat
     /\ Forall (fun v => len_list v = embeddingDimension (fst st))
               (firstn (length texts) es)) ->
  paired (fst (update_files cwd read md5 embedBatch unixepoch force files st)).
Proof.
  unfold update_files. revert st.
  induction files as [|file files IH]; intros st Hr Hp Hprovider;
    cbn [fold_left]; [exact Hp|].
  destruct (update_file_calls force st file Hr) as (cs & Ecs).
  apply IH.
  - apply update_file_reachable. exact Hr.
  - destruct st as [db n]. apply update_file_paired; [exact Hr | exact Hp|].
    intros texts es. apply Hprovider.
  - rewrite Ecs, after_all_dimension by exact Hr. exact Hprovider.
Qed.

(** X26.  The summary of [updateCommand]: every file that can be
    read is counted once as added, updated or skipped; every file
    that cannot be read is counted as an error; and a file counted
    as added or updated is counted as an error as well when
    embedding or storing its chunks failed, and in no other case. *)
Theorem update_store_tally (force : bool) (files : list jsstring)
    (db : Database scalar) :
  let n := snd (update_store cwd read md5 embedBatch unixepoch force files db) in
  let read_ok := Z.of_nat (length (filter (readable cwd read) files)) in
  let read_failed :=
    Z.of_nat (length (filter (fun f => negb (readable cwd read f)) files)) in
  (added n + updated n + skipped n = read_ok
   /\ read_failed <= errors n <= read_failed + added n + updated n)%Z.
Proof.
  intros n read_ok read_failed. subst n. unfold update_store.
  pose proof (update_files_tally force files
                (fst (deleteRemoved files db),
                 {| added := 0; updated := 0; skipped := 0; errors := 0 |}))
    as H.
  cbv zeta in H. cbn [snd added updated skipped errors] in H.
  subst read_ok read_failed. lia.
Qed.

(** X29.  For a file that has no document yet, the loop of
    [updateCommand] with [--force] and the loop of [initCommand] do
    the same to the store. *)
Theorem init_file_as_update (db : Database scalar) (n : InitTally)
    (m : Tally) (file : jsstring) :
  getDocumentByPath file db = None ->
  fst (init_file cwd read md5 embedBatch unixepoch (db, n) file)
  = fst (update_file cwd read md5 embedBatch unixepoch true (db, m) file).
Proof.
  intros Hnew. unfold init_file, update_file. rewrite Hnew.
  destruct (read (join cwd file)) as [[content mtimeMs]|]; [|reflexivity].
  cbn [orb negb].
  destruct (upsertDocument (unixepoch file)
              (metadata_of md5 file content mtimeMs) db) as [db2 docId].
  destruct (embed_and_store embedBatch file _ docId db2) as [db3 [|]];
    [reflexivity|].
  destruct (Chunker.chunkMarkdown content Chunker.no_options); reflexivity.
Qed.

(** X30.  When the provider, each time it answers, gives at least as
    many vectors as texts and the first of them have the declared
    length, the two loops of [updateCommand] keep chunks and
    embeddings paired, whatever files cannot be read and whatever
    calls of [embedBatch] reject; [getStats] then counts as many
    embeddings as chunks. *)
Theorem update_store_paired (force : bool) (files : list jsstring)
    (db : Database scalar) :
  reachable db -> paired db ->
  (forall file texts es, embedBatch file texts = Some es ->
     (length texts <= length es)%nat
     /\ Forall (fun v => len_list v = embeddingDimension db)
               (firstn (length texts) es)) ->
  let db' := fst (update_store cwd read md5 embedBatch unixepoch force files db) in
  paired db'
  /\ stat_chunks (getStats db') = stat_embeddings (getStats db').
Proof.
  intros Hr Hp Hprovider db'.
  assert (Hp' : paired db').
  { subst db'. unfold update_store. apply update_files_paired.
    - simpl. rewrite deleteRemoved_calls. apply reachable_after_all. exact Hr.
    - simpl. rewrite deleteRemoved_calls.
      apply (after_all_paired (reachable_consistent Hr) Hp).
      apply Forall_forall. intros c Hc. apply in_map_iff in Hc.
      destruct Hc as (doc & <- & _). exact I.
    - simpl. rewrite deleteRemoved_calls, after_all_dimension by exact Hr.
      exact Hprovider. }
  split; [exact Hp' | apply paired_counts; exact Hp'].
Qed.

End Run.

Lemma update_file_then_skipped_witness :
  let run := update_file (js "/docs") two_files (fun s => s) same_vector
               (fun _ => 0%Z) in
  let st' := run true (fresh4, no_tally) (js "b.md") in
  run false st' (js "b.md") = (fst st', skipped_up (snd st')).
Proof.
  apply (update_file_then_skipped Z (js "/docs") two_files (fun s => s)
           same_vector (fun _ => 0%Z) true (fresh4, no_tally) (js "b.md")
           (js "two") 20%Z).
  reflexivity.
Defined.

Lemma fresh4_reachable : reachable fresh4.
Proof. apply reachable_open with (dimension := 4%Z). reflexivity. Qed.


Lemma update_file_embedding_rejected_witness :
  let st' := update_file (js "/docs") two_files (fun s => s) same_vector
               (fun _ => 0%Z) false (fresh4, no_tally) (js "b.md") in
  exists docId,
    getDocumentByPath (js "b.md") (fst st')
    = Some {| id := docId;
              meta := metadata_of (fun s => s) (js "b.md") (js "two") 20%Z |}
    /\ chunks_of docId (fst st') = []
    /\ documentNeedsUpdate (js "b.md") (js "two") (fst st') = false
    /\ errors (snd st') = (errors no_tally + 1)%Z.
Proof.
  apply (update_file_embedding_rejected Z (js "/docs") two_files (fun s => s)
           same_vector (fun _ => 0%Z) false fresh4 no_tally (js "b.md")
           (js "two") 20%Z).
  - exact fresh4_reachable.
  - reflexivity.
  - reflexivity.
  - vm_compute. discriminate.
  - reflexivity.
Defined.

Lemma loops_by_calls_witness :
  (exists cs,
     fst (update_store (js "/docs") two_files (fun s => s) same_vector
            (fun _ => 0%Z) true [js "a.md"; js "b.md"] fresh4)
     = after_all cs fresh4)
  /\ (exists cs,
        fst (init_files (js "/docs") two_files (fun s => s) same_vector
               (fun _ => 0%Z) [js "a.md"; js "b.md"] fresh4)
        = after_all cs fresh4).
Proof.
  apply (loops_by_calls Z (js "/docs") two_files (fun s => s) same_vector
           (fun _ => 0%Z) true [js "a.md"; js "b.md"] fresh4).
  exact fresh4_reachable.
Defined.

Lemma init_files_documents_witness :
  map (fun d => filePath (meta d))
      (getAllDocuments
         (fst (init_files (js "/docs") two_files (fun s => s) same_vector
                 (fun _ => 0%Z) [js "a.md"; js "gone.md"; js "b.md"] fresh4)))
  = filter (readable (js "/docs") two_files)
           [js "a.md"; js "gone.md"; js "b.md"].
Proof.
  apply (init_files_documents Z (js "/docs") two_files (fun s => s) same_vector
           (fun _ => 0%Z) 4%Z [js "a.md"; js "gone.md"; js "b.md"] fresh4).
  - reflexivity.
  - repeat (constructor; [simpl; intuition discriminate|]). constructor.
Defined.

Lemma update_store_purges_removed_witness :
  let db := after_all stats_test_calls fresh4 in
  let doc := {| id := 2%Z; meta := test_document "b.md" "b" |} in
  let db' := fst (update_store (js "/docs") two_files (fun s => s) same_vector
                    (fun _ => 0%Z) false [js "a.md"] db) in
  chunks_of (id doc) db' = []
  /\ embeddings_of (id doc) db' = []
  /\ In (id doc, filePath (meta doc)) (document_keys db').
Proof.
  apply (update_store_purges_removed Z (js "/docs") two_files (fun s => s)
           same_vector (fun _ => 0%Z) false [js "a.md"]
           (after_all stats_test_calls fresh4)
           {| id := 2%Z; meta := test_document "b.md" "b" |}).
  - exact stats_test_reachable.
  - vm_compute. right. left. reflexivity.
  - simpl. intros [H | []]. discriminate.
Defined.

Lemma update_store_settles_witness :
  let db' := fst (update_store (js "/docs") two_files (fun s => s) same_vector
                    (fun _ => 0%Z) true [js "a.md"; js "b.md"; js "gone.md"]
                    fresh4) in
  fst (update_store (js "/docs") two_files (fun s => s) same_vector
         (fun _ => 0%Z) false [js "a.md"; js "b.md"; js "gone.md"] db')
  = db'.
Proof.
  apply (update_store_settles Z (js "/docs") two_files (fun s => s)
           same_vector (fun _ => 0%Z) true
           [js "a.md"; js "b.md"; js "gone.md"] fresh4).
  exact fresh4_reachable.
Defined.

Lemma init_file_as_update_witness :
  fst (init_file (js "/docs") two_files (fun s => s) same_vector
         (fun _ => 0%Z)
         (fresh4, {| totalChunks := 0; processedFiles := 0; init_errors := 0 |})
         (js "a.md"))
  = fst (update_file (js "/docs") two_files (fun s => s) same_vector
           (fun _ => 0%Z) true (fresh4, no_tally) (js "a.md")).
Proof.
  apply (init_file_as_update Z (js "/docs") two_files (fun s => s) same_vector
           (fun _ => 0%Z) fresh4).
  reflexivity.
Defined.

Lemma same_vector_sized (file : jsstring) (texts : list jsstring)
    (es : list (Float32Array Z)) :
  same_vector file texts = Some es ->
  (length texts <= length es)%nat
  /\ Forall (fun v => len_list v = 4%Z) (firstn (length texts) es).
Proof.
  unfold same_vector. destruct (jsstring_eqb file (js "b.md")); [discriminate|].
  intros E. injection E as <-. rewrite length_map. split; [apply le_n|].
  rewrite <- (length_map (fun _ : jsstring => [1; 0; 0; 0]%Z) texts).
  rewrite firstn_all. apply Forall_forall. intros v Hv.
  apply in_map_iff in Hv. destruct Hv as (t & <- & _). reflexivity.
Qed.

Lemma update_store_paired_witness :
  let db' := fst (update_store (js "/docs") two_files (fun s => s) same_vector
                    (fun _ => 0%Z) false [js "a.md"; js "b.md"] fresh4) in
  paired db'
  /\ stat_chunks (getStats db') = stat_embeddings (getStats db').
Proof.
  apply (update_store_paired Z (js "/docs") two_files (fun s => s) same_vector
           (fun _ => 0%Z) false [js "a.md"; js "b.md"] fresh4).
  - exact fresh4_reachable.
  - split; [reflexivity | constructor].
  - exact same_vector_sized.
Defined.

End IngestFacts.

(* ================================================================== *)
(** * More of the [read_file] tool *)
(* ================================================================== *)

Module McpServerMore.
Import JsString NodePath McpServer VectorDbFacts.

Lemma startsWith_itself (s : jsstring) : startsWith s s = true.
Proof.
  unfold startsWith. induction s as [|c s IH]; simpl; [reflexivity|].
  rewrite N.eqb_refl. exact IH.
Qed.

Lemma startsWith_shorter (s p q : jsstring) :
  startsWith s (p ++ q) = true -> startsWith s p = true.
Proof.
  unfold startsWith. revert s. induction p as [|a p IH]; intros s; simpl.
  - reflexivity.
  - destruct s as [|b s]; [discriminate|].
    destruct (a =? b)%N; [apply IH | discriminate].
Qed.

Lemma resolve_from_root (cwd path : jsstring) :
  isAbsolute cwd = true -> startsWith (resolve cwd path) [slash] = true.
Proof.
  intros Habs. unfold resolve. rewrite Habs, orb_true_r. reflexivity.
Qed.

Lemma within_prefixed (cwd root_path path : jsstring) :
  isAbsolute cwd = true ->
  within (resolve cwd root_path) (resolve cwd path) = true ->
  startsWith (resolve cwd path) (resolve cwd root_path) = true.
Proof.
  intros Habs H. unfold within in H.
  apply orb_true_iff in H. destruct H as [H | H].
  - apply orb_true_iff in H. destruct H as [H | H].
    + apply jsstring_eqb_eq in H. rewrite H. apply startsWith_itself.
    + apply jsstring_eqb_eq in H. rewrite H.
      apply resolve_from_root. exact Habs.
  - apply (startsWith_shorter _ _ [slash]). exact H.
Qed.

(** X24.  The guard of [read_file] refuses no path inside the root:
    when the working directory is absolute and the path asked for
    resolves to the root or below it, the answer is the text of the
    file at the resolved path under a title line, or the message for
    a file that is not there or cannot be read. *)
Theorem within_root_served (cwd docsPath : jsstring) (fs : filesystem)
    (file_path : jsstring) :
  isAbsolute cwd = true ->
  within (resolve cwd docsPath) (resolve cwd (join docsPath file_path)) = true ->
  handleReadFile cwd docsPath fs file_path
  = match fs (resolve cwd (join docsPath file_path)) with
    | None =>
        {| text := js "File not found: " ++ file_path; isError := true |}
    | Some (Unreadable message) =>
        {| text := js "Failed to read file: " ++ message; isError := true |}
    | Some (File content) =>
        {| text := js "# " ++ file_path ++ nlnl ++ content; isError := false |}
    end.
Proof.
  intros Habs Hin. unfold handleReadFile.
  rewrite (within_prefixed cwd docsPath (join docsPath file_path) Habs Hin).
  reflexivity.
Qed.

(** The theorem at the server for [/docs] and a file in a
    subdirectory, asked for with a detour. *)
Lemma within_root_served_witness :
  handleReadFile (js "/srv") (js "/docs") sibling_fs (js "api/../guide.md")
  = match sibling_fs (resolve (js "/srv")
                        (join (js "/docs") (js "api/../guide.md"))) with
    | None =>
        {| text := js "File not found: " ++ js "api/../guide.md";
           isError := true |}
    | Some (Unreadable message) =>
        {| text := js "Failed to read file: " ++ message; isError := true |}
    | Some (File content) =>
        {| text := js "# " ++ js "api/../guide.md" ++ nlnl ++ content;
           isError := false |}
    end.
Proof.
  apply (within_root_served (js "/srv") (js "/docs") sibling_fs
           (js "api/../guide.md")).
  - reflexivity.
  - vm_compute. reflexivity.
Defined.

End McpServerMore.

(* ================================================================== *)
(** * More of [stripMdxComponents] *)
(* ================================================================== *)

Module StripFacts.
Import JsString Chunker ChunkShape JsStringFacts.

(** ** Occurrences of a text *)

Lemma startsWith_longer (s t p : jsstring) :
  startsWith s p = true -> startsWith (s ++ t) p = true.
Proof.
  unfold startsWith. revert s. induction p as [|a p IH]; intros s; simpl.
  - reflexivity.
  - destruct s as [|b s]; [discriminate|]. simpl.
    destruct (a =? b)%N; [apply IH | discriminate].
Qed.

Lemma find_sub_none (p s : jsstring) :
  find_sub p s = None ->
  startsWith s p = false
  /\ match s with [] => True | _ :: t => find_sub p t = None end.
Proof.
  destruct s as [|c t]; simpl.
  - destruct (startsWith [] p); [discriminate | auto].
  - destruct (startsWith (c :: t) p); [discriminate|].
    destruct (find_sub p t); [discriminate | auto].
Qed.

Lemma find_sub_cons (p s : jsstring) (c : code_unit) :
  startsWith (c :: s) p = false -> find_sub p s = None ->
  find_sub p (c :: s) = None.
Proof.
  intros H1 H2. cbn [find_sub]. rewrite H1, H2. reflexivity.
Qed.

Lemma find_sub_suffix (p a b : jsstring) :
  find_sub p (a ++ b) = None -> find_sub p b = None.
Proof.
  induction a as [|c a IH]; intros H; [exact H|].
  apply IH. apply (find_sub_none p ((c :: a) ++ b) H).
Qed.

Lemma find_sub_prefix (p a b : jsstring) :
  find_sub p (a ++ b) = None -> find_sub p a = None.
Proof.
  induction a as [|c a IH]; intros H.
  - destruct (find_sub_none p _ H) as [Hb _]. simpl.
    destruct (startsWith [] p) eqn:E; [|reflexivity].
    rewrite (startsWith_longer [] b p E) in Hb. discriminate.
  - destruct (find_sub_none p _ H) as [Hhead Htail]. simpl in Htail.
    apply find_sub_cons; [|apply IH; exact Htail].
    destruct (startsWith (c :: a) p) eqn:E; [|reflexivity].
    rewrite (startsWith_longer (c :: a) b p E) in Hhead. discriminate.
Qed.

Lemma take_drop (p : code_unit -> bool) (s : jsstring) :
  takeWhile p s ++ dropWhile p s = s.
Proof.
  induction s as [|c t IH]; simpl; [reflexivity|].
  destruct (p c); simpl; [rewrite IH|]; reflexivity.
Qed.

Lemma find_sub_trim (p s : jsstring) :
  find_sub p s = None -> find_sub p (trim s) = None.
Proof.
  intros H. unfold trim, trimEnd, trimStart.
  assert (Hstart : find_sub p (dropWhile isSpace s) = None).
  { apply (find_sub_suffix p (takeWhile isSpace s)). rewrite take_drop. exact H. }
  set (x := dropWhile isSpace s) in *.
  apply (find_sub_prefix p _ (rev (takeWhile isSpace (rev x)))).
  rewrite <- rev_app_distr, take_drop, rev_involutive. exact Hstart.
Qed.

(** ** Runs of line feeds *)

Lemma skip_run (p : code_unit -> bool) (s : jsstring) :
  skipn (length (takeWhile p s)) s = dropWhile p s.
Proof.
  induction s as [|c t IH]; simpl; [reflexivity|].
  destruct (p c); simpl; [exact IH | reflexivity].
Qed.

Lemma dropWhile_shorter (p : code_unit -> bool) (s : jsstring) :
  (length (dropWhile p s) <= length s)%nat.
Proof.
  induction s as [|c t IH]; simpl; [lia|]. destruct (p c); simpl; lia.
Qed.

Lemma leading_LF_dropped (s : jsstring) : leading_LF (dropWhile is_LF s) = 0%nat.
Proof.
  unfold leading_LF. induction s as [|c t IH]; simpl; [reflexivity|].
  destruct (is_LF c) eqn:E; [exact IH|]. simpl. rewrite E. reflexivity.
Qed.

Lemma three_LF_leading (s : jsstring) :
  (leading_LF s <= 2)%nat -> startsWith s three_LF = false.
Proof.
  intros H. unfold startsWith, three_LF.
  destruct s as [|a s]; [reflexivity|]. cbn [strip_prefix].
  destruct (LF =? a)%N eqn:Ea; [|reflexivity].
  apply N.eqb_eq in Ea. subst a.
  destruct s as [|b s]; [reflexivity|]. cbn [strip_prefix].
  destruct (LF =? b)%N eqn:Eb; [|reflexivity].
  apply N.eqb_eq in Eb. subst b.
  destruct s as [|c s]; [reflexivity|]. cbn [strip_prefix].
  destruct (LF =? c)%N eqn:Ec; [|reflexivity].
  apply N.eqb_eq in Ec. subst c.
  unfold leading_LF in H. simpl in H. lia.
Qed.

(** After characters to skip, the scan goes on as a new one. *)
Lemma replace_blank_skip (rep : jsstring) (s : jsstring) :
  forall (k : nat) (prev : option code_unit),
    replace_all_aux m_blank_lines rep prev k s
    = replace_all_aux m_blank_lines rep None 0 (skipn k s).
Proof.
  induction s as [|c t IH]; intros k prev.
  - destruct k; reflexivity.
  - destruct k as [|k]; [reflexivity|]. simpl. apply IH.
Qed.

Lemma replace_blank_step (c : code_unit) (t : jsstring) :
  replace_all_aux m_blank_lines nlnl None 0 (c :: t)
  = if (3 <=? leading_LF (c :: t))%nat
    then nlnl ++ replace_all_aux m_blank_lines nlnl None 0
                   (skipn (leading_LF (c :: t) - 1) t)
    else c :: replace_all_aux m_blank_lines nlnl None 0 t.
Proof.
  cbn [replace_all_aux]. unfold m_blank_lines at 1.
  change (fun c0 : code_unit => (c0 =? LF)%N) with is_LF.
  fold (leading_LF (c :: t)).
  destruct (3 <=? leading_LF (c :: t))%nat eqn:E.
  - destruct (leading_LF (c :: t)) as [|n]; [discriminate E|].
    rewrite replace_blank_skip. simpl. rewrite Nat.sub_0_r. reflexivity.
  - rewrite (replace_blank_skip nlnl t 0 (Some c)). reflexivity.
Qed.

Lemma leading_LF_cons (c : code_unit) (t : jsstring) :
  leading_LF (c :: t) = if is_LF c then S (leading_LF t) else 0%nat.
Proof. unfold leading_LF. simpl. destruct (is_LF c); reflexivity. Qed.

Lemma replace_blank_runs (n : nat) :
  forall s : jsstring,
    (length s <= n)%nat ->
    find_sub three_LF (replace_all m_blank_lines nlnl s) = None
    /\ (leading_LF (replace_all m_blank_lines nlnl s)
        <= Nat.min 2 (leading_LF s))%nat.
Proof.
  unfold replace_all. induction n as [|n IH]; intros s Hlen.
  - destruct s; [|simpl in Hlen; lia].
    split; [reflexivity | unfold leading_LF; simpl; lia].
  - destruct s as [|c t];
      [split; [reflexivity | unfold leading_LF; simpl; lia]|].
    simpl in Hlen. rewrite replace_blank_step.
    destruct (3 <=? leading_LF (c :: t))%nat eqn:Erun.
    + apply Nat.leb_le in Erun. rewrite leading_LF_cons in *.
      destruct (is_LF c) eqn:Ec; [|lia].
      replace (S (leading_LF t) - 1)%nat with (leading_LF t) by lia.
      replace (skipn (leading_LF t) t) with (dropWhile is_LF t)
        by (symmetry; apply skip_run).
      destruct (IH (dropWhile is_LF t)) as [Hnone Hlead].
      { pose proof (dropWhile_shorter is_LF t). lia. }
      rewrite leading_LF_dropped in Hlead.
      set (out := replace_all_aux m_blank_lines nlnl None 0 (dropWhile is_LF t))
        in *.
      assert (Hout : leading_LF out = 0%nat) by lia.
      change (nlnl ++ out) with (LF :: LF :: out).
      assert (H1 : leading_LF (LF :: out) = 1%nat).
      { rewrite leading_LF_cons. simpl. rewrite Hout. reflexivity. }
      assert (H2 : leading_LF (LF :: LF :: out) = 2%nat).
      { rewrite leading_LF_cons. simpl. rewrite H1. reflexivity. }
      split.
      * apply find_sub_cons; [apply three_LF_leading; lia|].
        apply find_sub_cons; [apply three_LF_leading; lia | exact Hnone].
      * rewrite H2. lia.
    + apply Nat.leb_gt in Erun.
      destruct (IH t) as [Hnone Hlead]; [lia|].
      set (out := replace_all_aux m_blank_lines nlnl None 0 t) in *.
      assert (Hc : (leading_LF (c :: out) <= Nat.min 2 (leading_LF (c :: t)))%nat).
      { rewrite !leading_LF_cons in *. destruct (is_LF c); lia. }
      split; [|exact Hc].
      apply find_sub_cons; [apply three_LF_leading; lia | exact Hnone].
Qed.

(** X25.  The text that [stripMdxComponents] returns never has three
    line feeds in a row: between two lines that are not empty there
    is at most one empty line. *)
Theorem stripMdxComponents_no_blank_run (content : jsstring) :
  find_sub three_LF (stripMdxComponents content) = None.
Proof.
  unfold stripMdxComponents. apply find_sub_trim.
  match goal with |- context [replace_all m_blank_lines nlnl ?x] =>
    apply (replace_blank_runs (length x) x (le_n _))
  end.
Qed.

End StripFacts.

(* ================================================================== *)
(** * The table [db_info] and the argument of [config --set] *)
(* ================================================================== *)

Module DbInfoFacts.
Import JsString DbInfo VectorDbFacts.







End DbInfoFacts.

Module ConfigCommandFacts.
Import JsString ConfigCommand ChunkerMore.

Lemma join_split (sep : code_unit) (s : jsstring) :
  join_with [sep] (split_on sep s) = s.
Proof.
  induction s as [|c t IH]; [reflexivity|].
  pose proof (split_on_nonempty sep t) as Hne. simpl.
  destruct (c =? sep)%N eqn:E.
  - apply N.eqb_eq in E. subst c.
    destruct (split_on sep t) as [|p ps]; [contradiction|].
    cbn [join_with]. simpl in IH. cbn [app]. rewrite IH. reflexivity.
  - destruct (split_on sep t) as [|p ps]; [contradiction|].
    cbn [cons_head]. destruct ps as [|q ps]; simpl in *; rewrite IH;
      reflexivity.
Qed.

Lemma split_on_first (sep : code_unit) (key value : jsstring) :
  ~ In sep key ->
  split_on sep (key ++ sep :: value) = key :: split_on sep value.
Proof.
  induction key as [|c key IH]; intros Hfree; simpl.
  - rewrite N.eqb_refl. reflexivity.
  - destruct (c =? sep)%N eqn:E.
    + apply N.eqb_eq in E. elim Hfree. left. exact E.
    + rewrite IH by (intros H; apply Hfree; right; exact H). reflexivity.
Qed.

Lemma split_on_head (sep : code_unit) (s key : jsstring)
    (rest : list jsstring) :
  split_on sep s = key :: rest -> ~ In sep key.
Proof.
  revert key rest. induction s as [|c t IH]; intros key rest; simpl.
  - intros E. injection E as <- _. intros [].
  - destruct (c =? sep)%N eqn:Ec.
    + intros E. injection E as <- _. intros [].
    + destruct (split_on sep t) as [|p ps] eqn:Et; simpl; intros E;
        injection E as <- _.
      * intros [H | []]. subst c. rewrite N.eqb_refl in Ec. discriminate.
      * intros [H | H]; [subst c; rewrite N.eqb_refl in Ec; discriminate|].
        apply (IH p ps eq_refl H).
Qed.

(** X28.  [config --set] cuts its argument at the first [=]: an
    argument is taken exactly when it is a key that is not empty and
    has no [=], then [=], then a value that is not empty, and the
    value keeps every [=] it has. *)
Theorem parse_set_first_equals (set key value : jsstring) :
  parse_set set = Some (key, value)
  <-> (set = key ++ equals_sign :: value
       /\ ~ In equals_sign key /\ key <> [] /\ value <> []).
Proof.
  unfold parse_set. split.
  - pose proof (join_split equals_sign set) as Hjoin.
    destruct (split_on equals_sign set) as [|k parts] eqn:E; [discriminate|].
    destruct k as [|c k]; [discriminate|]. cbn [truthy negb orb].
    destruct (join_with [equals_sign] parts) as [|v vs] eqn:Ev;
      [discriminate|].
    cbn [truthy negb]. intros H. injection H as <- <-.
    split; [|split; [apply (split_on_head _ _ _ _ E) | split; discriminate]].
    destruct parts as [|q parts]; [discriminate Ev|].
    change (join_with [equals_sign] ((c :: k) :: q :: parts))
      with ((c :: k) ++ [equals_sign] ++ join_with [equals_sign] (q :: parts))
      in Hjoin.
    rewrite Ev in Hjoin. rewrite <- Hjoin. reflexivity.
  - intros (-> & Hfree & Hkey & Hvalue).
    rewrite (split_on_first equals_sign key value Hfree), join_split.
    destruct key; [congruence|]. destruct value; [congruence|]. reflexivity.
Qed.

End ConfigCommandFacts.
